(** * Flow-field renderer: a shallow embedding of [tools/perlin.py],
    [tools/flow_field.py] and of their callers

    The renderer is [tools/perlin.py] and [tools/flow_field.py].  Of its
    callers the development embeds [tools/color_schemes.py], the mapper and
    the style bias of [tools/render_embedding.py], [slugify] and
    [get_genre_from_vector] of [pipeline.py], and [count_syllables] and
    [genre_to_colormap_id] of [tools/simple_text_to_vectors.py].

    Python floats are idealised as real numbers ([R]): rounding error, NaN
    and infinities are outside the model, and so is the size of memory.  The
    items of [np.linspace] and the length of [np.arange] are exact here, where
    numpy rounds; what is stated of a pixel on a lattice point, or of the
    points of grid seeding, is stated so that it does not rest on that.
    Python integers are [Z].  A [str] is a [string] or the list of its
    characters, which are 8-bit.  The two pseudo-random generators the code
    uses (the module-level generator of [random] and the one of
    [numpy.random]) are modelled by their state, which records how the
    generator was last initialised and how many doubles it has produced
    since; what the k-th double is, is left to a [Generators] record every
    definition is parametrised by.  The colormaps of matplotlib are a
    function from a name and a position to a colour, which the mapper is
    parametrised by. *)

From Stdlib Require Import Reals Lra Lia ZArith String Ascii List Bool Psatz.
Import ListNotations.

Open Scope R_scope.

(** ** Python and numpy numerics *)

(** [int(x)] on a float: truncation toward zero. *)
Definition py_int (x : R) : Z :=
  if Rle_lt_dec 0 x then Int_part x else (- Int_part (- x))%Z.

(** [round(x)] and [np.round(x)]: nearest integer, ties to the even one. *)
Definition round_half_even (x : R) : Z :=
  let f := Int_part x in
  let r := x - IZR f in
  if Rlt_le_dec r (1 / 2) then f
  else if Rlt_le_dec (1 / 2) r then (f + 1)%Z
  else if Z.even f then f else (f + 1)%Z.

(** [x % m] on floats: the result takes the sign of [m]. *)
Definition py_mod (x m : R) : R := x - IZR (Int_part (x / m)) * m.

(** [np.arctan2(y, x)]. *)
Definition arctan2 (y x : R) : R :=
  if Rlt_le_dec 0 x then atan (y / x)
  else if Rlt_le_dec x 0 then
         (if Rle_lt_dec 0 y then atan (y / x) + PI else atan (y / x) - PI)
  else if Rlt_le_dec 0 y then PI / 2
  else if Rlt_le_dec y 0 then - (PI / 2)
  else 0.

Definition Rleb (a b : R) : bool := if Rle_dec a b then true else false.
Definition Rltb (a b : R) : bool := if Rlt_dec a b then true else false.
Definition Reqb (a b : R) : bool := if Req_dec_T a b then true else false.

(** ** Exceptions and the state-and-exception monad *)

Inductive exn : Set := ValueError | ZeroDivisionError | IndexError.

Inductive result (A : Type) : Type :=
| Ok (a : A)
| Raise (e : exn).
Arguments Ok {A} a.
Arguments Raise {A} e.

(** A computation over a state [S]: it returns a value or raises, and in
    both cases leaves a state behind (what was mutated before an exception
    stays mutated). *)
Definition M (S A : Type) : Type := S -> result A * S.

Definition ret {S A} (a : A) : M S A := fun s => (Ok a, s).
Definition raise {S A} (e : exn) : M S A := fun s => (Raise e, s).
Definition bind {S A B} (c : M S A) (k : A -> M S B) : M S B :=
  fun s => match c s with
           | (Ok a, s') => k a s'
           | (Raise e, s') => (Raise e, s')
           end.
Definition put {S} (s : S) : M S unit := fun _ => (Ok tt, s).

Declare Scope monad_scope.
Delimit Scope monad_scope with monad.
Notation "x <- c ;; k" := (bind c (fun x => k))
  (at level 61, c at next level, right associativity) : monad_scope.
Notation "' p <- c ;; k" := (bind c (fun x => let p := x in k))
  (at level 61, p pattern, c at next level, right associativity) : monad_scope.
Notation "c ;;; k" := (bind c (fun _ => k))
  (at level 61, right associativity) : monad_scope.
Open Scope monad_scope.

(** Float division [a / b] of Python numbers. *)
Definition py_div {S} (a b : R) : M S R :=
  if Reqb b 0 then raise ZeroDivisionError else ret (a / b).

(** ** Arrays *)

(** A two-dimensional [numpy] array of floats: its shape and its items. *)
Record ndarray : Type := mk_ndarray {
  nrows : nat;
  ncols : nat;
  item : nat -> nat -> R
}.

Definition arr_const (h w : nat) (c : R) : ndarray := mk_ndarray h w (fun _ _ => c).
Definition arr_map (f : R -> R) (a : ndarray) : ndarray :=
  mk_ndarray (nrows a) (ncols a) (fun i j => f (item a i j)).
Definition arr_map2 (f : R -> R -> R) (a b : ndarray) : ndarray :=
  mk_ndarray (nrows a) (ncols a) (fun i j => f (item a i j) (item b i j)).

(** [np.zeros((r, c))] as a value: negative dimensions are refused. *)
Definition np_zeros_value {S} (r c : Z) : M S ndarray :=
  if ((r <? 0) || (c <? 0))%Z then raise ValueError
  else ret (arr_const (Z.to_nat r) (Z.to_nat c) 0).

(** Index [i] into an axis of length [n]: [-n <= i < n] is accepted, a
    negative index counts from the end. *)
Definition idx_ok (n i : Z) : bool := ((- n <=? i) && (i <? n))%Z.
Definition idx_norm (n i : Z) : Z := if (i <? 0)%Z then (i + n)%Z else i.

(** ** The generators *)

Inductive rng_origin : Set :=
| Entropy (e : Z)      (* initialised by the interpreter, from the OS *)
| FromSeed (s : Z).    (* initialised by a call to seed *)

Record rng_state : Set := mk_rng { origin : rng_origin; drawn : nat }.

Record Generators : Type := {
  py_stream : rng_origin -> nat -> R;   (* doubles of [random.random()] *)
  np_stream : rng_origin -> nat -> R    (* doubles of [RandomState.rand] *)
}.

(** [random.seed(a)] for an integer: the generator is initialised from
    [abs(a)]. *)
Definition random_seed (a : Z) : M rng_state unit :=
  put (mk_rng (FromSeed (Z.abs a)) 0).

(** numpy accepts seeds in [0, 2^32 - 1] only. *)
Definition np_seed_ok (s : Z) : bool := ((0 <=? s) && (s <? 2 ^ 32))%Z.

Definition np_random_seed (s : Z) : M rng_state unit :=
  if np_seed_ok s then put (mk_rng (FromSeed s) 0) else raise ValueError.

(** [rng = np.random.RandomState(s)] followed by draws from [rng]: the
    draws run on a generator of their own and the state of the caller is left
    as it was. *)
Definition with_RandomState {A} (s : Z) (c : M rng_state A) : M rng_state A :=
  fun st => if np_seed_ok s then (fst (c (mk_rng (FromSeed s) 0)), st)
            else (Raise ValueError, st).

Section Perlin.

Variable G : Generators.

Definition random_random : M rng_state R :=
  fun st => (Ok (py_stream G (origin st) (drawn st)),
             mk_rng (origin st) (S (drawn st))).

(** [random.uniform(a, b)] is [a + (b - a) * random()]. *)
Definition random_uniform (a b : R) : M rng_state R :=
  r <- random_random ;; ret (a + (b - a) * r).

(** [rand(r, c)]: an [r] by [c] table of doubles, drawn in row-major order. *)
Definition np_rand (r c : Z) : M rng_state (Z -> Z -> R) :=
  fun st =>
    if ((r <? 0) || (c <? 0))%Z then (Raise ValueError, st)
    else (Ok (fun i j => np_stream G (origin st) (drawn st + Z.to_nat (i * c + j))),
          mk_rng (origin st) (drawn st + Z.to_nat (r * c))).

(** ** perlin.py *)

Definition interpolant (t : R) : R := t * t * t * (t * (t * 6 - 15) + 10).

(** Item [k] of [np.linspace(0, stop, num, endpoint=False)]. *)
Definition linspace_item (stop : Z) (num : nat) (k : nat) : R :=
  INR k * (IZR stop / INR num).

(** Every fancy-indexed lookup [gradients[yi, xi]], [gradients[yi, xi + 1]],
    ... of one octave is in range (numpy raises IndexError otherwise).  The
    row index depends on the pixel row only and the column index on the pixel
    column only; an empty output makes no lookup. *)
Definition axis_lookups_ok (res : Z) (num : nat) : bool :=
  forallb (fun k => let c := py_int (linspace_item res num k) in
                    idx_ok (res + 1) c && idx_ok (res + 1) (c + 1))
          (seq 0 num).

Definition lattice_lookups_ok (h w : nat) (res_y res_x : Z) : bool :=
  (Nat.eqb h 0) || (Nat.eqb w 0)
  || (axis_lookups_ok res_y h && axis_lookups_ok res_x w).

Definition single_octave (h w : nat) (res_y res_x : Z) (seed : option Z)
  : M rng_state ndarray :=
  rnd <- match seed with
         | Some s => with_RandomState s (np_rand (res_y + 1) (res_x + 1))
         | None => np_rand (res_y + 1) (res_x + 1)
         end ;;
  let angles y x := 2 * PI * rnd y x in
  let grad_at y_idx x_idx :=
    let a := angles (idx_norm (res_y + 1) y_idx) (idx_norm (res_x + 1) x_idx) in
    (cos a, sin a) in
  if lattice_lookups_ok h w res_y res_x then
    ret (mk_ndarray h w (fun i j =>
      let X := linspace_item res_x w j in
      let Y := linspace_item res_y h i in
      let xi := py_int X in
      let yi := py_int Y in
      let xf := X - IZR xi in
      let yf := Y - IZR yi in
      let g00 := grad_at yi xi in
      let g10 := grad_at yi (xi + 1)%Z in
      let g01 := grad_at (yi + 1)%Z xi in
      let g11 := grad_at (yi + 1)%Z (xi + 1)%Z in
      let dot00 := fst g00 * xf + snd g00 * yf in
      let dot10 := fst g10 * (xf - 1) + snd g10 * yf in
      let dot01 := fst g01 * xf + snd g01 * (yf - 1) in
      let dot11 := fst g11 * (xf - 1) + snd g11 * (yf - 1) in
      let u := interpolant xf in
      let v := interpolant yf in
      let nx0 := dot00 * (1 - u) + u * dot10 in
      let nx1 := dot01 * (1 - u) + u * dot11 in
      nx0 * (1 - v) + v * nx1))
  else raise IndexError.

(** The loop [for o in range(octaves)]: [n] iterations are left, [o] is the
    current octave. *)
Fixpoint sum_octaves (h w : nat) (res : Z * Z) (persistence : R) (seed : option Z)
    (n : nat) (o : Z) (total : ndarray) (amplitude max_amp : R)
  : M rng_state (ndarray * R) :=
  match n with
  | O => ret (total, max_amp)
  | S n' =>
      let freq := (2 ^ o)%Z in
      let res_o := (fst res * freq, snd res * freq)%Z in
      let seed_o := match seed with None => None | Some s => Some (s + o)%Z end in
      octave_noise <- single_octave h w (fst res_o) (snd res_o) seed_o ;;
      sum_octaves h w res persistence seed n' (o + 1)%Z
        (arr_map2 Rplus total (arr_map (Rmult amplitude) octave_noise))
        (amplitude * persistence) (max_amp + amplitude)
  end.

Definition generate_perlin_noise_2d (shape res : Z * Z) (octaves : Z)
    (persistence : R) (seed : option Z) : M rng_state ndarray :=
  match seed with Some s => np_random_seed s | None => ret tt end ;;;
  total <- np_zeros_value (fst shape) (snd shape) ;;
  ' (total, max_amp) <-
    sum_octaves (nrows total) (ncols total) res persistence seed
                (Z.to_nat octaves) 0%Z total 1 0 ;;
  if Reqb max_amp 0 then ret total
  else ret (arr_map (fun x => x / max_amp) total).

End Perlin.

(** ** flow_field.py: data *)

Record Bounds : Type := mk_Bounds { x0 : R; y0 : R; x1 : R; y1 : R }.

Definition color : Type := (Z * Z * Z)%type.

(** The [params] dictionary.  A key that the code reads with
    [params.get(key, default)] is optional; [seed] may be absent or [None]. *)
Record Params : Type := mk_Params {
  width : Z;
  height : Z;
  cell_size : R;
  margin_factor : R;
  noise_scale : option R;
  octaves : option R;
  seed : option Z;
  quantize_steps : option R;
  swirl : option R;
  seeding : string;
  density : R;
  max_length : R;
  step_size : R;
  angle_gain : R;
  jitter : R;
  color_start : color;
  color_lut : option (list color);
  palette_axis : option string;
  palette_within_stroke : option R;
  width_start : R;
  width_end : R;
  background : color
}.

Definition get_or {A} (o : option A) (default : A) : A :=
  match o with Some v => v | None => default end.

(** One call [draw.line(points, fill, width)]. *)
Record line_op : Type := mk_line {
  line_points : list (R * R);
  line_fill : color;
  line_width : Z
}.

(** A PIL image under construction: its size, the colour it was created
    with, and the lines drawn on it so far, oldest first.  The raster is a
    function of these. *)
Record Image : Type := mk_Image {
  im_size : Z * Z;
  im_background : color;
  im_lines : list line_op
}.

Definition Image_new {S} (size : Z * Z) (bg : color) : M S Image :=
  if ((fst size <? 0) || (snd size <? 0))%Z then raise ValueError
  else ret (mk_Image size bg []).

Definition draw_line (img : Image) (pts : list (R * R)) (fill : color) (w : Z) : Image :=
  mk_Image (im_size img) (im_background img) (im_lines img ++ [mk_line pts fill w]).

(** [lst[i]] on a Python list. *)
Definition py_list_get {S A} (lst : list A) (i : Z) : M S A :=
  let n := Z.of_nat (length lst) in
  if idx_ok n i then
    match nth_error lst (Z.to_nat (idx_norm n i)) with
    | Some v => ret v
    | None => raise IndexError
    end
  else raise IndexError.

(** ** The process state of a render: the arrays that are shared by
    reference, and the two module-level generators. *)

Definition loc : Set := nat.

Record world : Type := mk_world {
  heap : list ndarray;
  py_rng : rng_state;
  np_rng : rng_state
}.

Definition lift_py {A} (c : M rng_state A) : M world A :=
  fun w => let (r, s) := c (py_rng w) in (r, mk_world (heap w) s (np_rng w)).
Definition lift_np {A} (c : M rng_state A) : M world A :=
  fun w => let (r, s) := c (np_rng w) in (r, mk_world (heap w) (py_rng w) s).

Definition alloc (a : ndarray) : M world loc :=
  fun w => (Ok (length (heap w)), mk_world (heap w ++ [a]) (py_rng w) (np_rng w)).
Definition load (l : loc) : M world ndarray :=
  fun w => (Ok (nth l (heap w) (arr_const 0 0 0)), w).
Fixpoint list_set {A} (l : list A) (n : nat) (v : A) : list A :=
  match l, n with
  | [], _ => []
  | _ :: t, O => v :: t
  | h :: t, S n' => h :: list_set t n' v
  end.
Definition store (l : loc) (a : ndarray) : M world unit :=
  fun w => (Ok tt, mk_world (list_set (heap w) l a) (py_rng w) (np_rng w)).

(** [np.zeros((ny, nx))]: a fresh array. *)
Definition np_zeros (ny nx : Z) : M world loc :=
  a <- np_zeros_value ny nx ;; alloc a.

(** [target[:] = src] and the in-place operators keep the shape of the
    target and overwrite its items. *)
Definition arr_assign (target src : ndarray) : ndarray :=
  mk_ndarray (nrows target) (ncols target) (item src).

(** ** flow_field.py: functions *)

Definition build_grid (params : Params) : M world (loc * Bounds) :=
  let margin := IZR (Z.min (width params) (height params)) * margin_factor params in
  qx <- py_div (IZR (width params) - 2 * margin) (cell_size params) ;;
  let nx := py_int qx in
  qy <- py_div (IZR (height params) - 2 * margin) (cell_size params) ;;
  let ny := py_int qy in
  angles <- np_zeros ny nx ;;
  ret (angles, mk_Bounds margin margin
                 (IZR (width params) - margin) (IZR (height params) - margin)).

Definition in_bounds (b : Bounds) (x y : R) : bool :=
  Rleb (x0 b) x && Rleb x (x1 b) && Rleb (y0 b) y && Rleb y (y1 b).

(** [np.arange(start, stop, step)]. *)
Definition np_arange {S} (start stop step : R) : M S (list R) :=
  if Reqb step 0 then raise ZeroDivisionError
  else ret (map (fun k => start + INR k * step)
                (seq 0 (Z.to_nat (- Int_part (- ((stop - start) / step)))))).

Definition math_sqrt {S} (x : R) : M S R :=
  if Rltb x 0 then raise ValueError else ret (sqrt x).

Section FlowField.

Variable G : Generators.

Definition fill_angles (angles : loc) (bounds : Bounds) (params : Params) : M world loc :=
  a <- load angles ;;
  let ny := nrows a in
  let nx := ncols a in
  let noise_scale := py_int (Rmax 2 (get_or (noise_scale params) 4)) in
  let octaves := Z.max 1 (Z.min 10 (py_int (get_or (octaves params) 1))) in
  let seed_arg := seed params in
  noise <- lift_np (generate_perlin_noise_2d G (Z.of_nat ny, Z.of_nat nx)
                      (noise_scale, noise_scale) octaves (1 / 2) seed_arg) ;;
  store angles (arr_assign a (arr_map (fun v => v * 2 * PI) noise)) ;;;
  (if Rltb 0 (get_or (swirl params) 0) then
     a1 <- load angles ;;
     let cy := INR ny / 2 in
     let cx := INR nx / 2 in
     let theta i j := arctan2 (INR i - cy) (INR j - cx) in
     store angles
       (arr_assign a1 (mk_ndarray ny nx
          (fun i j => item a1 i j + theta i j * get_or (swirl params) 0)))
   else ret tt) ;;;
  if Rltb 0 (get_or (quantize_steps params) 0) then
    let q := get_or (quantize_steps params) 0 in
    a2 <- load angles ;;
    rounded <- alloc (arr_map (fun v => IZR (round_half_even (v / (2 * PI) * q))) a2) ;;
    a3 <- load rounded ;;
    scaled <- alloc (arr_map (fun v => v * 2 * PI / q) a3) ;;
    ret scaled
  else ret angles.

(** Start points; the third component of the tuples is always [None] and is
    left out. *)
Fixpoint random_points (bounds : Bounds) (n : nat) (points : list (R * R))
  : M rng_state (list (R * R)) :=
  match n with
  | O => ret points
  | S n' =>
      x <- random_uniform G (x0 bounds) (x1 bounds) ;;
      y <- random_uniform G (y0 bounds) (y1 bounds) ;;
      random_points bounds n' (points ++ [(x, y)])
  end.

Fixpoint grid_points (bounds : Bounds) (spacing : R) (ys : list R) (points : list (R * R))
  : M rng_state (list (R * R)) :=
  match ys with
  | [] => ret points
  | y :: ys' =>
      xs <- np_arange (x0 bounds) (x1 bounds) spacing ;;
      grid_points bounds spacing ys' (points ++ map (fun x => (x, y)) xs)
  end.

Definition seed_points (params : Params) (bounds : Bounds) : M rng_state (list (R * R)) :=
  let area := (x1 bounds - x0 bounds) * (y1 bounds - y0 bounds) in
  if String.eqb (seeding params) "random" then
    let n_points := py_int (area * density params) in
    random_points bounds (Z.to_nat n_points) []
  else if String.eqb (seeding params) "grid" then
    q <- py_div area (density params) ;;
    spacing <- math_sqrt q ;;
    ys <- np_arange (y0 bounds) (y1 bounds) spacing ;;
    grid_points bounds spacing ys []
  else ret [].

Section Strokes.

Variable angles : ndarray.
Variable bounds : Bounds.
Variable params : Params.

Definition get_field_angle (x y : R) : M rng_state R :=
  qx <- py_div (x - x0 bounds) (cell_size params) ;;
  let gx := py_int qx in
  qy <- py_div (y - y0 bounds) (cell_size params) ;;
  let gy := py_int qy in
  if ((0 <=? gy) && (gy <? Z.of_nat (nrows angles))
      && (0 <=? gx) && (gx <? Z.of_nat (ncols angles)))%Z
  then ret (item angles (Z.to_nat gy) (Z.to_nat gx))
  else ret 0.

(** The loop [for _ in range(int(params['max_length']))]: [n] iterations
    are left; leaving the bounds breaks out of it. *)
Fixpoint follow (n : nat) (x y heading : R) (positions : list (R * R))
  : M rng_state (list (R * R)) :=
  match n with
  | O => ret positions
  | S n' =>
      field_angle <- get_field_angle x y ;;
      let heading := heading * (1 - angle_gain params)
                     + field_angle * angle_gain params in
      j <- random_uniform G (- jitter params) (jitter params) ;;
      let heading := heading + j in
      let x := x + cos heading * step_size params in
      let y := y + sin heading * step_size params in
      if negb (in_bounds bounds x y) then ret positions
      else follow n' x y heading (positions ++ [(x, y)])
  end.

(** The positions of the stroke that starts at [(px, py)]. *)
Definition trace_stroke (px py : R) : M rng_state (list (R * R)) :=
  heading <- get_field_angle px py ;;
  follow (Z.to_nat (py_int (max_length params))) px py heading [(px, py)].

Definition lut : list color := get_or (color_lut params) [].
Definition lut_len : Z := Z.of_nat (length lut).
Definition within_stroke : R := get_or (palette_within_stroke params) 0.

(** The base metric of a stroke, clamped to [0, 1]. *)
Definition stroke_base (px py : R) : M rng_state R :=
  let axis := get_or (palette_axis params) "x"%string in
  base <-
    (if String.eqb axis "y" then
       ret ((py - y0 bounds) / Rmax 1 (y1 bounds - y0 bounds))
     else if String.eqb axis "field" then
       angle <- get_field_angle px py ;;
       ret (py_mod angle (2 * PI) / (2 * PI))
     else if String.eqb axis "random" then
       random_random G
     else
       ret ((px - x0 bounds) / Rmax 1 (x1 bounds - x0 bounds))) ;;
  ret (Rmax 0 (Rmin 1 base)).

Definition stroke_span : Z :=
  if (lut_len <=? 1)%Z then 0%Z
  else Z.max 0 (py_int (IZR (lut_len - 1) * within_stroke)).

Definition stroke_base_idx (base : R) : Z :=
  if (lut_len <=? 1)%Z then 0%Z
  else
    let max_base_idx := Z.max 0 (lut_len - 1 - stroke_span) in
    py_int (base * IZR max_base_idx).

(** The LUT index of a segment at progress [t]. *)
Definition segment_idx (base_idx : Z) (t : R) : Z :=
  let idx := (base_idx + py_int (t * IZR stroke_span))%Z in
  if (idx >=? lut_len)%Z then (lut_len - 1)%Z else idx.

Definition segment_color (base_idx : Z) (t : R) : M rng_state color :=
  if (lut_len >? 0)%Z then py_list_get lut (segment_idx base_idx t)
  else ret (color_start params).

(** The loop [for i in range(len(positions) - 1)]: [ixs] are the indices
    still to draw. *)
Fixpoint draw_segments (positions : list (R * R)) (base_idx : Z) (ixs : list nat)
    (img : Image) : M rng_state Image :=
  match ixs with
  | [] => ret img
  | i :: ixs' =>
      let t := INR i / INR (length positions - 1) in
      c <- segment_color base_idx t ;;
      let w := width_start params + (width_end params - width_start params) * t in
      draw_segments positions base_idx ixs'
        (draw_line img (firstn 2 (skipn i positions)) c (py_int w))
  end.

(** One iteration of [for x0, y0, _ in points]. *)
Definition draw_stroke (img : Image) (pt : R * R) : M rng_state Image :=
  let (px, py) := pt in
  positions <- trace_stroke px py ;;
  if (1 <? length positions)%nat then
    base <- stroke_base px py ;;
    let base_idx := stroke_base_idx base in
    draw_segments positions base_idx (seq 0 (length positions - 1)) img
  else ret img.

Fixpoint draw_all (points : list (R * R)) (img : Image) : M rng_state Image :=
  match points with
  | [] => ret img
  | pt :: rest => img' <- draw_stroke img pt ;; draw_all rest img'
  end.

Definition draw_strokes : M rng_state Image :=
  img <- Image_new (width params, height params) (background params) ;;
  points <- seed_points params bounds ;;
  draw_all points img.

End Strokes.

(** The statements of [render] before [draw_strokes]: they return
    [grid[0]] and [grid[1]], the reference and the bounds that [draw_strokes]
    is called with.  The value [fill_angles] returns is dropped. *)
Definition render_grid (params : Params) : M world (loc * Bounds) :=
  match seed params with
  | Some s => lift_py (random_seed s)
  | None => ret tt
  end ;;;
  grid <- build_grid params ;;
  fill_angles (fst grid) (snd grid) params ;;;
  ret grid.

(** [draw_strokes] reads the array behind its first argument and writes to
    no array: it runs on the array found at [grid[0]] when it is called. *)
Definition render (params : Params) : M world Image :=
  grid <- render_grid params ;;
  angles <- load (fst grid) ;;
  lift_py (draw_strokes angles (snd grid) params).

End FlowField.

(** * The callers of the renderer *)

(** ** color_schemes.py, render_embedding.py and the genre codes *)

(** [str.lower()], on the letters A to Z; other characters are kept. *)
Definition lower_char (c : ascii) : ascii :=
  let n := nat_of_ascii c in
  if (65 <=? n)%nat && (n <=? 90)%nat then ascii_of_nat (n + 32) else c.

Fixpoint py_lower (s : string) : string :=
  match s with
  | EmptyString => EmptyString
  | String c r => String (lower_char c) (py_lower r)
  end.

(** [d.get(k)] on a dictionary with string keys, in insertion order. *)
Fixpoint dict_get {V} (d : list (string * V)) (k : string) : option V :=
  match d with
  | [] => None
  | (k', v) :: rest => if String.eqb k k' then Some v else dict_get rest k
  end.

(** The value under 'palette_mapping': a colormap name and the range of the
    colormap to sample, for each of the seven keys. *)
Record PaletteMapping : Type := mk_PaletteMapping {
  pm_fear : string * (R * R);
  pm_anger : string * (R * R);
  pm_sadness : string * (R * R);
  pm_love : string * (R * R);
  pm_joy : string * (R * R);
  pm_surprise : string * (R * R);
  pm_default : string * (R * R)
}.

Record Scheme : Type := mk_Scheme {
  description : string;
  palette_mapping : PaletteMapping;
  scheme_palette_axis : string;
  scheme_palette_within_stroke : R
}.

Definition very_smooth : Scheme :=
  mk_Scheme "Smooth gradients with subtle within-stroke color transitions"%string
    (mk_PaletteMapping ("bone"%string, (2 / 10, 9 / 10)) ("hot"%string, (1 / 10, 95 / 100))
       ("PuBu"%string, (4 / 10, 95 / 100)) ("RdPu"%string, (2 / 10, 9 / 10))
       ("rainbow"%string, (0, 1)) ("cividis"%string, (1 / 10, 9 / 10)) ("grey"%string, (2 / 10, 9 / 10)))
    "x"%string (2 / 10).

Definition expressive : Scheme :=
  mk_Scheme "Bold color shifts with vertical gradients and per-stroke variation"%string
    (mk_PaletteMapping ("bone"%string, (0, 1)) ("hot"%string, (0, 1)) ("PuBu"%string, (2 / 10, 1))
       ("RdPu"%string, (0, 1)) ("rainbow"%string, (0, 1)) ("cividis"%string, (0, 1)) ("grey"%string, (0, 1)))
    "y"%string (5 / 10).

Definition wild : Scheme :=
  mk_Scheme "Flow-driven color chaos with rainbow strokes following field direction"%string
    (mk_PaletteMapping ("bone"%string, (0, 1)) ("hot"%string, (0, 1)) ("PuBu"%string, (0, 1))
       ("RdPu"%string, (0, 1)) ("rainbow"%string, (0, 1)) ("cividis"%string, (0, 1)) ("grey"%string, (0, 1)))
    "field"%string (7 / 10).

Definition SCHEMES : list (string * Scheme) :=
  [("very_smooth"%string, very_smooth); ("expressive"%string, expressive); ("wild"%string, wild)].

Definition get_scheme (name : string) : Scheme :=
  get_or (dict_get SCHEMES name) expressive.

(** simple_text_to_vectors.py: the genre code stored in v[13]. *)
Definition genre_id_mapping : list (string * R) :=
  [("fear"%string, 1 / 10); ("anger"%string, 25 / 100); ("sadness"%string, 35 / 100);
   ("love"%string, 45 / 100); ("joy"%string, 55 / 100); ("surprise"%string, 65 / 100)].

Definition genre_to_colormap_id (genre_name : string) : R :=
  let genre_lower := py_lower genre_name in
  get_or (dict_get genre_id_mapping genre_lower) (75 / 100).

(** pipeline.py *)
Definition get_genre_from_vector (v : list R) : result string :=
  match nth_error v 13 with
  | None => Raise IndexError
  | Some genre_val =>
      Ok (if Rltb genre_val (2 / 10) then "fear"%string
          else if Rltb genre_val (3 / 10) then "anger"%string
          else if Rltb genre_val (4 / 10) then "sadness"%string
          else if Rltb genre_val (5 / 10) then "love"%string
          else if Rltb genre_val (6 / 10) then "joy"%string
          else if Rltb genre_val (7 / 10) then "surprise"%string
          else "neutral"%string)%string
  end.

(** render_embedding.py: the inner function of [map_embedding_to_params]. *)
Definition get_color_palette (pm : PaletteMapping) (genre_val : R) : string * (R * R) :=
  if Rltb genre_val (2 / 10) then pm_fear pm
  else if Rltb genre_val (3 / 10) then pm_anger pm
  else if Rltb genre_val (4 / 10) then pm_sadness pm
  else if Rltb genre_val (5 / 10) then pm_love pm
  else if Rltb genre_val (6 / 10) then pm_joy pm
  else if Rltb genre_val (7 / 10) then pm_surprise pm
  else pm_default pm.

(** The entry of a palette mapping under a genre name ('default' for the
    name 'neutral'). *)
Definition palette_entry (pm : PaletteMapping) (genre : string) : string * (R * R) :=
  if String.eqb genre "fear"%string then pm_fear pm
  else if String.eqb genre "anger"%string then pm_anger pm
  else if String.eqb genre "sadness"%string then pm_sadness pm
  else if String.eqb genre "love"%string then pm_love pm
  else if String.eqb genre "joy"%string then pm_joy pm
  else if String.eqb genre "surprise"%string then pm_surprise pm
  else pm_default pm.

(** [np.linspace(start, stop, num)], end point included. *)
Definition np_linspace (start stop : R) (num : nat) : list R :=
  map (fun k => start + INR k * ((stop - start) / INR (num - 1))) (seq 0 num).

(** The dictionary [map_embedding_to_params] builds: the keys [render]
    reads, and the three it does not. *)
Record Config : Type := mk_Config {
  core : Params;
  color_end : color;
  color_palette : list color;
  palette_name : string
}.

Section Mapper.

(** [plt.colormaps.get_cmap(name)(pos)[:3]]: the red, green and blue of a
    matplotlib colormap at a position. *)
Variable cmap : string -> R -> R * R * R.

Definition sample_color (cmap_name : string) (pos : R) : color :=
  let '(r, g, b) := cmap cmap_name pos in
  (py_int (r * 255), py_int (g * 255), py_int (b * 255)).

Definition map_embedding_to_params (v : list R) (color_scheme : string) : result Config :=
  if (length v <? 14)%nat then Raise IndexError
  else
    let vi k := nth k v 0 in
    let scheme := get_scheme color_scheme in
    let '(cmap_name, (pos_start, pos_end)) :=
      get_color_palette (palette_mapping scheme) (vi 13%nat) in
    let n_colors := 8%nat in
    let color_positions := np_linspace pos_start pos_end n_colors in
    let color_palette := map (sample_color cmap_name) color_positions in
    let lut_size := 256%nat in
    let lut_positions := np_linspace pos_start pos_end lut_size in
    let color_lut := map (sample_color cmap_name) lut_positions in
    let color_start := nth 0 color_palette (0, 0, 0)%Z in
    let color_end := last color_palette (0, 0, 0)%Z in
    Ok (mk_Config
          {| width := 3000; height := 3000;
             cell_size := IZR (py_int (4 + vi 3%nat * 8));
             margin_factor := 8 / 100;
             noise_scale := Some (Rmax 2 (vi 4%nat * 8));
             octaves := Some (IZR (py_int (3 + vi 7%nat * 4)));
             seed := Some (py_int (vi 9%nat * 1000));
             quantize_steps := Some (IZR (py_int (vi 5%nat * 12)));
             swirl := Some (vi 6%nat * (3 / 10));
             seeding := "random"%string;
             density := Rmax (1 / 1000) (Rmin (6 / 1000) (vi 2%nat * (2 / 1000)));
             max_length := IZR (py_int (400 + vi 10%nat * 20));
             step_size := 2 + vi 8%nat * 4;
             angle_gain := 6 / 10 + vi 1%nat * (3 / 10);
             jitter := vi 0%nat * (15 / 100);
             color_start := color_start;
             color_lut := Some color_lut;
             palette_axis := Some (scheme_palette_axis scheme);
             palette_within_stroke := Some (scheme_palette_within_stroke scheme);
             width_start := 6 + vi 11%nat * (3 / 10);
             width_end := 8 / 10;
             background := (250, 250, 245)%Z |}
          color_end color_palette cmap_name).

End Mapper.

Definition map_color (f : Z -> Z) (c : color) : color :=
  let '(r, g, b) := c in (f r, f g, f b).

(** [apply_user_style_bias]: [style] is [None] or a string. *)
Definition apply_user_style_bias (params : Config) (style : option string) : Config :=
  match style with
  | None => params
  | Some EmptyString => params
  | Some style =>
      let s := py_lower style in
      if String.eqb s "sharp"%string || String.eqb s "preferred"%string then
        let p := core params in
        let qs := get_or (quantize_steps p) 0 in
        mk_Config
          {| width := width p; height := height p;
             cell_size := IZR (Z.max 2 (py_int (cell_size p * (6 / 10))));
             margin_factor := margin_factor p;
             noise_scale := Some (IZR (py_int (Rmax 3 (get_or (noise_scale p) 4 * (16 / 10)))));
             octaves := Some (IZR (py_int (get_or (octaves p) 3 + 2)));
             seed := seed p;
             quantize_steps := Some (Rmax 12 (if Rltb 0 qs then qs else 16));
             swirl := swirl p;
             seeding := seeding p;
             density := Rmin (2 / 100) (density p * 2);
             max_length := max_length p;
             step_size := step_size p;
             angle_gain := Rmin (99 / 100) (angle_gain p + 25 / 100);
             jitter := Rmax (1 / 1000) (jitter p * (35 / 100));
             color_start := map_color (fun c => Z.max 0 (c - 40)) (color_start p);
             color_lut := color_lut p;
             palette_axis := palette_axis p;
             palette_within_stroke := palette_within_stroke p;
             width_start := width_start p * (14 / 10);
             width_end := Rmax (6 / 10) (width_end p * (9 / 10));
             background := background p |}
          (map_color (fun c => Z.min 255 (c + 40)) (color_end params))
          (color_palette params) (palette_name params)
      else params
  end.

(** ** pipeline.py: [slugify]; simple_text_to_vectors.py: [count_syllables].
    A str is the list of its characters. *)

Definition underscore : ascii := "_"%char.

Definition in_range (lo hi : nat) (c : ascii) : bool :=
  let n := nat_of_ascii c in (lo <=? n)%nat && (n <=? hi)%nat.

(** The class [a-z0-9]. *)
Definition is_lower_alnum (c : ascii) : bool := in_range 97 122 c || in_range 48 57 c.
(** The class [a-z]. *)
Definition is_lower_letter (c : ascii) : bool := in_range 97 122 c.

(** [re.sub(r'[^a-z0-9]+', '_', s)]: every maximal run of characters
    outside the class becomes one underscore; [in_run] tells that the
    character before was outside the class. *)
Fixpoint sub_runs (in_run : bool) (s : list ascii) : list ascii :=
  match s with
  | [] => []
  | c :: r =>
      if is_lower_alnum c then c :: sub_runs false r
      else if in_run then sub_runs true r
      else underscore :: sub_runs true r
  end.

Fixpoint lstrip (s : list ascii) : list ascii :=
  match s with
  | [] => []
  | c :: r => if Ascii.eqb c underscore then lstrip r else s
  end.

Fixpoint rstrip (s : list ascii) : list ascii :=
  match s with
  | [] => []
  | c :: r =>
      match rstrip r with
      | [] => if Ascii.eqb c underscore then [] else [c]
      | r' => c :: r'
      end
  end.

(** [s[:n]] for an integer [n]. *)
Definition slice_to (s : list ascii) (n : Z) : list ascii :=
  if (0 <=? n)%Z then firstn (Z.to_nat n) s
  else firstn (length s - Z.to_nat (- n)) s.

Definition slugify (text : list ascii) (max_length : Z) : list ascii :=
  let slug := map lower_char text in
  let slug := sub_runs false slug in
  let slug := rstrip (lstrip slug) in
  slice_to slug max_length.

Definition is_vowel (c : ascii) : bool :=
  existsb (Ascii.eqb c) (list_ascii_of_string "aeiouy").

(** The loop of [count_syllables] over the letters of the word. *)
Fixpoint vowel_groups (previous_was_vowel : bool) (word : list ascii) : nat :=
  match word with
  | [] => 0
  | char :: rest =>
      let is_v := is_vowel char in
      (if is_v && negb previous_was_vowel then 1 else 0)%nat + vowel_groups is_v rest
  end.

Definition count_syllables (word : list ascii) : nat :=
  let word := map lower_char word in
  let word := filter is_lower_letter word in
  if (length word =? 0)%nat then 0%nat
  else Nat.max 1 (vowel_groups false word).

(** * Definitions used in the statements *)

(** The seeds that [generate_perlin_noise_2d] hands to numpy for [n] octaves. *)
Definition seeds_accepted (sd : option Z) (n : nat) : Prop :=
  match sd with
  | None => True
  | Some s => (0 <= s)%Z /\ (s + Z.of_nat n <= 2 ^ 32)%Z
  end.

(** The shape of the grid, as [build_grid] computes it. *)
Definition grid_margin (p : Params) : R :=
  IZR (Z.min (width p) (height p)) * margin_factor p.
Definition grid_nx (p : Params) : Z :=
  py_int ((IZR (width p) - 2 * grid_margin p) / cell_size p).
Definition grid_ny (p : Params) : Z :=
  py_int ((IZR (height p) - 2 * grid_margin p) / cell_size p).
Definition grid_bounds (p : Params) : Bounds :=
  mk_Bounds (grid_margin p) (grid_margin p)
            (IZR (width p) - grid_margin p) (IZR (height p) - grid_margin p).

(** The arguments [fill_angles] calls [generate_perlin_noise_2d] with. *)
Definition noise_res (p : Params) : Z := py_int (Rmax 2 (get_or (noise_scale p) 4)).
Definition noise_octaves (p : Params) : Z :=
  Z.max 1 (Z.min 10 (py_int (get_or (octaves p) 1))).
Definition noise_call (G : Generators) (p : Params) (a : ndarray)
  : M rng_state ndarray :=
  generate_perlin_noise_2d G (Z.of_nat (nrows a), Z.of_nat (ncols a))
    (noise_res p, noise_res p) (noise_octaves p) (1 / 2) (seed p).

(** The items [fill_angles] leaves in the array it was given: the noise
    turned into radians, plus the swirl term. *)
Definition unquantized (p : Params) (a noise : ndarray) : ndarray :=
  let radians := arr_assign a (arr_map (fun v => v * 2 * PI) noise) in
  if Rltb 0 (get_or (swirl p) 0) then
    arr_assign radians (mk_ndarray (nrows a) (ncols a)
      (fun i j => item radians i j
                  + arctan2 (INR i - INR (nrows a) / 2) (INR j - INR (ncols a) / 2)
                    * get_or (swirl p) 0))
  else radians.

Definition quantized (p : Params) (a : ndarray) : ndarray * ndarray :=
  let q := get_or (quantize_steps p) 0 in
  let rounded := arr_map (fun v => IZR (round_half_even (v / (2 * PI) * q))) a in
  (rounded, arr_map (fun v => v * 2 * PI / q) rounded).

(** A point lies in the bounds rectangle. *)
Definition within (b : Bounds) (pt : R * R) : Prop :=
  x0 b <= fst pt <= x1 b /\ y0 b <= snd pt <= y1 b.

(** The angle [get_field_angle] returns. *)
Definition field_angle_at (angles : ndarray) (b : Bounds) (p : Params) (x y : R) : R :=
  let gx := py_int ((x - x0 b) / cell_size p) in
  let gy := py_int ((y - y0 b) / cell_size p) in
  if ((0 <=? gy) && (gy <? Z.of_nat (nrows angles))
      && (0 <=? gx) && (gx <? Z.of_nat (ncols angles)))%Z
  then item angles (Z.to_nat gy) (Z.to_nat gx)
  else 0.

Definition clamp (v lo hi : Z) : Z := Z.max lo (Z.min v hi).

(** The colorizer as the specification words it, with [round]. *)
Definition spec_span (L : Z) (within_stroke : R) : Z :=
  clamp (round_half_even (IZR (L - 1) * within_stroke)) 0 (L - 1).
Definition spec_base_index (L : Z) (within_stroke base : R) : Z :=
  round_half_even (base * IZR (L - 1 - spec_span L within_stroke)).
Definition spec_color_index (L : Z) (within_stroke base t : R) : Z :=
  clamp (spec_base_index L within_stroke base
         + round_half_even (t * IZR (spec_span L within_stroke))) 0 (L - 1).

(** The world after the first statement of [render]. *)
Definition seeded_world (p : Params) (w : world) : world :=
  match seed p with
  | Some s => mk_world (heap w) (mk_rng (FromSeed (Z.abs s)) 0) (np_rng w)
  | None => w
  end.

Definition grid_zeros (p : Params) : ndarray :=
  arr_const (Z.to_nat (grid_ny p)) (Z.to_nat (grid_nx p)) 0.

(** The heap after [fill_angles] ran on the fresh array of [build_grid]. *)
Definition filled_heap (p : Params) (h : list ndarray) (noise : ndarray) : list ndarray :=
  let u := unquantized p (grid_zeros p) noise in
  let h1 := list_set (h ++ [grid_zeros p]) (length h) u in
  if Rltb 0 (get_or (quantize_steps p) 0)
  then h1 ++ [fst (quantized p u)] ++ [snd (quantized p u)]
  else h1.

(** A computation that draws from a generator but never re-initialises it. *)
Definition keeps_origin {A} (c : M rng_state A) : Prop :=
  forall st, origin (snd (c st)) = origin st.

(** ** Further definitions for the statements *)

(** The doubles that the octaves [o, o + n) of an unseeded call draw from the
    module-level generator of numpy. *)
Fixpoint octave_draws (res : Z * Z) (n : nat) (o : Z) : nat :=
  match n with
  | O => 0
  | S n' => Z.to_nat ((fst res * 2 ^ o + 1) * (snd res * 2 ^ o + 1))
            + octave_draws res n' (o + 1)
  end.

(** The configuration [p] with another value under 'quantize_steps'. *)
Definition with_quantize_steps (p : Params) (q : option R) : Params :=
  mk_Params (width p) (height p) (cell_size p) (margin_factor p) (noise_scale p)
    (octaves p) (seed p) q (swirl p) (seeding p) (density p) (max_length p)
    (step_size p) (angle_gain p) (jitter p) (color_start p) (color_lut p)
    (palette_axis p) (palette_within_stroke p) (width_start p) (width_end p)
    (background p).

(** Consecutive positions, starting from [prev], are at squared distance
    [d2] from one another. *)
Fixpoint evenly_spaced (d2 : R) (prev : R * R) (rest : list (R * R)) : Prop :=
  match rest with
  | [] => True
  | q :: r => (fst q - fst prev) * (fst q - fst prev)
              + (snd q - snd prev) * (snd q - snd prev) = d2
              /\ evenly_spaced d2 q r
  end.

(** [ceil(v)], as [np.arange] uses it for its length. *)
Definition ceil (v : R) : Z := (- Int_part (- v))%Z.

(** The generator of [random] yields doubles of the unit interval. *)
Definition unit_doubles (G : Generators) : Prop :=
  forall o k, 0 <= py_stream G o k <= 1.

(** The end points of every line drawn lie in the bounds (the width of a
    line is not looked at). *)
Definition line_ends_within (b : Bounds) (img : Image) : Prop :=
  Forall (fun ln => Forall (within b) (line_points ln)) (im_lines img).

(** The regular lattice of grid seeding: [rows] by [cols] points, row by
    row. *)
Definition lattice_points (b : Bounds) (spacing : R) (rows cols : nat) : list (R * R) :=
  flat_map (fun r => map (fun c => (x0 b + INR c * spacing, y0 b + INR r * spacing))
                         (seq 0 cols))
           (seq 0 rows).

(** What a call [draw.line] of the segment loop records for index [i]. *)
Definition segment_of (params : Params) (positions : list (R * R)) (base_idx : Z) (i : nat)
    (ln : line_op) : Prop :=
  let t := INR i / INR (length positions - 1) in
  line_points ln = firstn 2 (skipn i positions)
  /\ line_width ln
     = py_int (width_start params + (width_end params - width_start params) * t)
  /\ ((0 < lut_len params)%Z ->
      nth_error (lut params) (Z.to_nat (segment_idx params base_idx t))
      = Some (line_fill ln))
  /\ (lut_len params = 0%Z -> line_fill ln = color_start params).

(** The genre names that have a code of their own. *)
Definition known_genres : list string :=
  ["fear"; "anger"; "sadness"; "love"; "joy"; "surprise"]%string.

(** No two underscores in a row. *)
Fixpoint no_double_underscore (s : list ascii) : Prop :=
  match s with
  | [] => True
  | a :: r => match r with
              | [] => True
              | b :: _ => ~ (a = underscore /\ b = underscore)
              end /\ no_double_underscore r
  end.

(** The characters a slug may hold. *)
Definition slug_char (c : ascii) : Prop := is_lower_alnum c = true \/ c = underscore.

(** The red, green and blue of a colour, in this order. *)
Definition color_channels (c : color) : list Z := let '(r, g, b) := c in [r; g; b].

(** ** Sample inputs, for the witnesses and counterexamples *)

Definition sample_generators : Generators :=
  {| py_stream := fun _ k => / INR (k + 2);
     np_stream := fun _ k => / INR (k + 3) |}.

Definition boot_world : world :=
  mk_world [] (mk_rng (Entropy 0) 0) (mk_rng (Entropy 0) 0).

Definition sample_lut : list color :=
  map (fun k => (Z.of_nat k, Z.of_nat k, Z.of_nat k)) (seq 0 256).

(** A 100 by 100 render with seed 1, random seeding and a 256-entry LUT. *)
Definition sample_config (cell margin : R) (quantize swirl_ : option R)
    (length_ step dens : R) : Params :=
  {| width := 100; height := 100; cell_size := cell; margin_factor := margin;
     noise_scale := Some 4; octaves := Some 1; seed := Some 1%Z;
     quantize_steps := quantize; swirl := swirl_;
     seeding := "random"; density := dens;
     max_length := length_; step_size := step;
     angle_gain := 1 / 2; jitter := 0;
     color_start := (0, 0, 0)%Z; color_lut := Some sample_lut;
     palette_axis := Some "x"%string; palette_within_stroke := Some (1 / 2);
     width_start := 2; width_end := 2; background := (255, 255, 255)%Z |}.

Definition quantize_config : Params :=
  sample_config 50 0 (Some 4) (Some (1 / 5)) 2 3 (27 / 100000).
Definition plain_config : Params :=
  sample_config 20 0 None None 2 3 (27 / 100000).
Definition zero_step_config : Params :=
  sample_config 20 0 None None 2 0 (27 / 100000).
Definition half_margin_config : Params :=
  sample_config 20 (1 / 2) None None 2 3 (27 / 100000).
Definition wide_margin_config : Params :=
  sample_config 20 (6 / 10) None None 2 3 (27 / 100000).

Definition zero_length_config : Params :=
  sample_config 20 0 None None 0 3 (27 / 100000).
Definition busy_world : world :=
  mk_world [arr_const 1 1 0] (mk_rng (FromSeed 5) 3) (mk_rng (Entropy 9) 7).
Definition fresh_rng : rng_state := mk_rng (FromSeed 1) 0.
Definition blank_image : Image := mk_Image (100, 100)%Z (255, 255, 255)%Z [].
Definition full_bounds : Bounds := mk_Bounds 0 0 100 100.

(** A 100 by 100 render with grid seeding: density 16 asks for a 4 by 4
    lattice of pitch 25. *)
Definition grid_seeding_config : Params :=
  {| width := 100; height := 100; cell_size := 20; margin_factor := 0;
     noise_scale := Some 4; octaves := Some 1; seed := Some 1%Z;
     quantize_steps := None; swirl := None;
     seeding := "grid"; density := 16;
     max_length := 2; step_size := 3;
     angle_gain := 1 / 2; jitter := 0;
     color_start := (0, 0, 0)%Z; color_lut := Some sample_lut;
     palette_axis := Some "x"%string; palette_within_stroke := Some (1 / 2);
     width_start := 2; width_end := 2; background := (255, 255, 255)%Z |}.

(** A world that holds the fresh 2 by 2 grid of [quantize_config]. *)
Definition grid_world : world :=
  mk_world [grid_zeros quantize_config] fresh_rng fresh_rng.

(** The default vector of render_embedding.py. *)
Definition embedding : list R :=
  [1 / 10; 1; 2 / 10; 22 / 10; 2267 / 1000; 1; 25 / 100; 264 / 1000; 287 / 1000;
   814 / 1000; 22; 4 / 10; 75 / 100; 1 / 10].

(** A colormap that is grey at every position, whatever its name. *)
Definition sample_cmap (name : string) (pos : R) : R * R * R := (pos, pos, pos).

(** A vector whose last component is the code of the genre 'Joy'. *)
Definition joy_vector : list R := repeat 0 13 ++ [genre_to_colormap_id "Joy"].

(** * Proofs *)

(** ** Truncation and the interpolant *)

Lemma Int_part_bounds x : IZR (Int_part x) <= x < IZR (Int_part x) + 1.
Proof. destruct (base_Int_part x). lra. Qed.

Lemma Int_part_unique x z : IZR z <= x < IZR z + 1 -> Int_part x = z.
Proof. intros H. symmetry. apply Int_part_spec. lra. Qed.

Lemma py_int_nonneg_bounds x : 0 <= x -> IZR (py_int x) <= x < IZR (py_int x) + 1.
Proof. intros H. unfold py_int. destruct (Rle_lt_dec 0 x); [apply Int_part_bounds | lra]. Qed.

Lemma py_int_nonneg x : 0 <= x -> (0 <= py_int x)%Z.
Proof.
  intros H. pose proof (py_int_nonneg_bounds x H) as [_ Hu].
  apply Z.lt_succ_r. apply lt_IZR. rewrite succ_IZR. lra.
Qed.

Lemma py_int_unique x z : 0 <= x -> IZR z <= x < IZR z + 1 -> py_int x = z.
Proof. intros H Hz. unfold py_int. destruct (Rle_lt_dec 0 x); [now apply Int_part_unique | lra]. Qed.

Lemma py_int_IZR z : py_int (IZR z) = z.
Proof.
  unfold py_int. destruct (Rle_lt_dec 0 (IZR z)).
  - apply Int_part_unique. lra.
  - rewrite <- opp_IZR. rewrite (Int_part_unique (IZR (- z)) (- z)%Z) by lra. lia.
Qed.

Lemma py_int_0 : py_int 0 = 0%Z.
Proof. exact (py_int_IZR 0). Qed.

Lemma py_int_le_neg x : x <= -1 -> (py_int x <= -1)%Z.
Proof.
  intros H. unfold py_int. destruct (Rle_lt_dec 0 x); [lra|].
  pose proof (Int_part_bounds (- x)) as [_ Hu].
  assert (0 < Int_part (- x))%Z; [|lia].
  apply lt_IZR. lra.
Qed.

Lemma py_int_mono_le x (z : Z) : 0 <= x -> x <= IZR z -> (py_int x <= z)%Z.
Proof.
  intros H0 H. pose proof (py_int_nonneg_bounds x H0) as [Hl _].
  apply le_IZR. lra.
Qed.

Lemma interpolant_range t : 0 <= t <= 1 -> 0 <= interpolant t <= 1.
Proof.
  intros [H0 H1]. unfold interpolant. split.
  - assert (0 <= t * t * t) by (apply Rmult_le_pos; [apply Rmult_le_pos|]; lra).
    assert (0 < t * (t * 6 - 15) + 10) by nra.
    nra.
  - assert (E : 1 - t * t * t * (t * (t * 6 - 15) + 10)
                = (1 - t) * (1 - t) * (1 - t) * (6 * t * t + 3 * t + 1)) by ring.
    assert (0 <= (1 - t) * (1 - t) * (1 - t)) by (apply Rmult_le_pos; [apply Rmult_le_pos|]; lra).
    assert (0 <= 6 * t * t + 3 * t + 1) by nra.
    assert (0 <= (1 - t) * (1 - t) * (1 - t) * (6 * t * t + 3 * t + 1)) by (apply Rmult_le_pos; assumption).
    lra.
Qed.

Lemma interpolant_blend t :
  0 <= t <= 1 -> (1 - interpolant t) * t + interpolant t * (1 - t) <= 1 / 2.
Proof.
  intros [H0 H1].
  assert (Hs : 0 <= (t - 1 / 2) * (t - 1 / 2)) by apply Rle_0_sqr.
  assert (Hq : 0 <= 6 * (t * t) * ((1 - t) * (1 - t)) + 2 * t * (1 - t) + 1).
  { assert (0 <= (t * t) * ((1 - t) * (1 - t)))
      by (apply Rmult_le_pos; apply Rle_0_sqr).
    assert (0 <= t * (1 - t)) by (apply Rmult_le_pos; lra).
    lra. }
  assert (Hp : 0 <= 2 * ((t - 1 / 2) * (t - 1 / 2))
                * (6 * (t * t) * ((1 - t) * (1 - t)) + 2 * t * (1 - t) + 1)).
  { apply Rmult_le_pos; lra. }
  assert (E : 1 / 2 - ((1 - interpolant t) * t + interpolant t * (1 - t))
              = 2 * ((t - 1 / 2) * (t - 1 / 2))
                * (6 * (t * t) * ((1 - t) * (1 - t)) + 2 * t * (1 - t) + 1)).
  { unfold interpolant. field. }
  lra.
Qed.

(** A bilinear blend of four lattice dot products. *)
(** ** Noise stays in [-1, 1] *)

Lemma scaled_bound c a A : -1 <= c <= 1 -> - A <= a <= A -> - A <= c * a <= A.
Proof. intros Hc Ha. nra. Qed.

Lemma dot_bound c s a b A B :
  -1 <= c <= 1 -> -1 <= s <= 1 -> - A <= a <= A -> - B <= b <= B ->
  - (A + B) <= c * a + s * b <= A + B.
Proof.
  intros Hc Hs Ha Hb.
  pose proof (scaled_bound c a A Hc Ha). pose proof (scaled_bound s b B Hs Hb). lra.
Qed.

Lemma mix_bound a b A B u :
  0 <= u <= 1 -> - A <= a <= A -> - B <= b <= B ->
  - (A * (1 - u) + u * B) <= a * (1 - u) + u * b <= A * (1 - u) + u * B.
Proof. intros. nra. Qed.

Lemma pixel_bound c00 s00 c10 s10 c01 s01 c11 s11 xf yf :
  -1 <= c00 <= 1 -> -1 <= s00 <= 1 -> -1 <= c10 <= 1 -> -1 <= s10 <= 1 ->
  -1 <= c01 <= 1 -> -1 <= s01 <= 1 -> -1 <= c11 <= 1 -> -1 <= s11 <= 1 ->
  0 <= xf <= 1 -> 0 <= yf <= 1 ->
  let dot00 := c00 * xf + s00 * yf in
  let dot10 := c10 * (xf - 1) + s10 * yf in
  let dot01 := c01 * xf + s01 * (yf - 1) in
  let dot11 := c11 * (xf - 1) + s11 * (yf - 1) in
  let u := interpolant xf in
  let v := interpolant yf in
  let nx0 := dot00 * (1 - u) + u * dot10 in
  let nx1 := dot01 * (1 - u) + u * dot11 in
  -1 <= nx0 * (1 - v) + v * nx1 <= 1.
Proof.
  intros H1 H2 H3 H4 H5 H6 H7 H8 Hx Hy dot00 dot10 dot01 dot11 u v nx0 nx1.
  pose proof (interpolant_range xf Hx) as Hu. fold u in Hu.
  pose proof (interpolant_range yf Hy) as Hv. fold v in Hv.
  pose proof (interpolant_blend xf Hx) as Bx. fold u in Bx.
  pose proof (interpolant_blend yf Hy) as By. fold v in By.
  assert (D00 : - (xf + yf) <= dot00 <= xf + yf)
    by (apply dot_bound; lra).
  assert (D10 : - ((1 - xf) + yf) <= dot10 <= (1 - xf) + yf)
    by (apply dot_bound; lra).
  assert (D01 : - (xf + (1 - yf)) <= dot01 <= xf + (1 - yf))
    by (apply dot_bound; lra).
  assert (D11 : - ((1 - xf) + (1 - yf)) <= dot11 <= (1 - xf) + (1 - yf))
    by (apply dot_bound; lra).
  pose proof (mix_bound dot00 dot10 _ _ u Hu D00 D10) as N0. fold nx0 in N0.
  pose proof (mix_bound dot01 dot11 _ _ u Hu D01 D11) as N1. fold nx1 in N1.
  pose proof (mix_bound nx0 nx1 _ _ v Hv N0 N1) as N.
  assert (E : ((xf + yf) * (1 - u) + u * ((1 - xf) + yf)) * (1 - v)
              + v * ((xf + (1 - yf)) * (1 - u) + u * ((1 - xf) + (1 - yf)))
              = ((1 - u) * xf + u * (1 - xf)) + ((1 - v) * yf + v * (1 - yf))) by ring.
  rewrite E in N. lra.
Qed.

Lemma frac_range X : 0 <= X -> 0 <= X - IZR (py_int X) <= 1.
Proof. intros H. pose proof (py_int_nonneg_bounds X H). lra. Qed.

Lemma linspace_item_nonneg stop num k : (0 <= stop)%Z -> 0 <= linspace_item stop num k.
Proof.
  intros H. unfold linspace_item. apply Rmult_le_pos; [apply pos_INR|].
  destruct num as [|n].
  - simpl. unfold Rdiv. rewrite Rinv_0. lra.
  - apply Rmult_le_pos; [now apply IZR_le | left; apply Rinv_0_lt_compat, lt_0_INR; lia].
Qed.

Lemma axis_lookups_ok_res res num k :
  axis_lookups_ok res num = true -> (k < num)%nat -> (0 <= res)%Z.
Proof.
  unfold axis_lookups_ok. rewrite forallb_forall. intros H Hk.
  specialize (H k). rewrite in_seq in H. specialize (H ltac:(lia)).
  cbv zeta in H. apply andb_true_iff in H as [H _].
  unfold idx_ok in H. apply andb_true_iff in H as [Ha Hb]. lia.
Qed.

Lemma bind_Ok {S A B} (c : M S A) (k : A -> M S B) s b s' :
  bind c k s = (Ok b, s') ->
  exists a s1, c s = (Ok a, s1) /\ k a s1 = (Ok b, s').
Proof.
  unfold bind. destruct (c s) as [[a|e] s1]; [eauto | discriminate].
Qed.

Section NoiseBounds.
Variable G : Generators.

Lemma single_octave_ok h w res_y res_x sd st a st' :
  single_octave G h w res_y res_x sd st = (Ok a, st') ->
  nrows a = h /\ ncols a = w /\
  forall i j, (i < h)%nat -> (j < w)%nat -> -1 <= item a i j <= 1.
Proof.
  unfold single_octave. intros H.
  apply bind_Ok in H as (rnd & st1 & _ & H).
  destruct (lattice_lookups_ok h w res_y res_x) eqn:L; [|discriminate].
  unfold ret in H. injection H as <- _. cbn [nrows ncols item].
  split; [reflexivity | split; [reflexivity|]]. intros i j Hi Hj.
  unfold lattice_lookups_ok in L.
  assert (Hh : Nat.eqb h 0 = false) by (apply Nat.eqb_neq; lia).
  assert (Hw : Nat.eqb w 0 = false) by (apply Nat.eqb_neq; lia).
  rewrite Hh, Hw in L. cbn [orb] in L. apply andb_true_iff in L as [Ly Lx].
  pose proof (axis_lookups_ok_res _ _ _ Ly Hi) as Ry.
  pose proof (axis_lookups_ok_res _ _ _ Lx Hj) as Rx.
  cbn [fst snd].
  apply pixel_bound; try apply COS_bound; try apply SIN_bound;
    apply frac_range; now apply linspace_item_nonneg.
Qed.

Lemma sum_octaves_bound h w res pers sd n : 0 <= pers ->
  forall o total amp max_amp st r st',
  0 <= amp ->
  (forall i j, (i < h)%nat -> (j < w)%nat -> - max_amp <= item total i j <= max_amp) ->
  sum_octaves G h w res pers sd n o total amp max_amp st = (Ok r, st') ->
  nrows (fst r) = nrows total /\ ncols (fst r) = ncols total /\
  (forall i j, (i < h)%nat -> (j < w)%nat -> - snd r <= item (fst r) i j <= snd r).
Proof.
  intros Hp. induction n as [|n IH]; intros o total amp max_amp st r st' Ha Hinv H.
  - cbn in H. injection H as <- _. cbn. auto.
  - cbn [sum_octaves] in H.
    apply bind_Ok in H as (oct & st1 & E & H).
    apply single_octave_ok in E as (_ & _ & Hoct).
    assert (Hamp : 0 <= amp * pers) by (apply Rmult_le_pos; assumption).
    assert (Hinv' : forall i j, (i < h)%nat -> (j < w)%nat ->
              - (max_amp + amp)
              <= item (arr_map2 Rplus total (arr_map (Rmult amp) oct)) i j
              <= max_amp + amp).
    { intros i j Hi Hj. cbn [arr_map2 arr_map item].
      specialize (Hinv i j Hi Hj). specialize (Hoct i j Hi Hj).
      pose proof (scaled_bound (item oct i j) amp amp Hoct ltac:(lra)) as Hs.
      rewrite (Rmult_comm (item oct i j) amp) in Hs. lra. }
    exact (IH _ _ _ _ _ _ _ Hamp Hinv' H).
Qed.

End NoiseBounds.

(** ** The noise generator returns *)

Lemma linspace_item_lt stop num k :
  (0 < stop)%Z -> (k < num)%nat -> linspace_item stop num k < IZR stop.
Proof.
  intros Hs Hk. unfold linspace_item.
  assert (Hn : 0 < INR num) by (apply lt_0_INR; lia).
  assert (Hkn : INR k < INR num) by (apply lt_INR; lia).
  assert (Hst : 0 < IZR stop) by (apply IZR_lt in Hs; exact Hs).
  assert (E : INR k * (IZR stop / INR num) = IZR stop * (INR k / INR num))
    by (field; lra).
  rewrite E.
  assert (INR k / INR num < 1).
  { apply Rmult_lt_reg_r with (INR num); [exact Hn|].
    unfold Rdiv. rewrite Rmult_assoc, Rinv_l by lra. lra. }
  nra.
Qed.

Lemma axis_lookups_ok_pos res num : (1 <= res)%Z -> axis_lookups_ok res num = true.
Proof.
  intros Hr. unfold axis_lookups_ok. apply forallb_forall. intros k Hk.
  apply in_seq in Hk. cbv zeta.
  assert (H0 : 0 <= linspace_item res num k) by (apply linspace_item_nonneg; lia).
  assert (H1 : linspace_item res num k < IZR res) by (apply linspace_item_lt; lia).
  pose proof (py_int_nonneg _ H0) as Hc0.
  pose proof (py_int_nonneg_bounds _ H0) as [Hc1 _].
  assert (Hc2 : (py_int (linspace_item res num k) < res)%Z) by (apply lt_IZR; lra).
  unfold idx_ok. repeat (apply andb_true_iff; split); lia.
Qed.

Lemma lattice_lookups_ok_pos h w res_y res_x :
  (1 <= res_y)%Z -> (1 <= res_x)%Z -> lattice_lookups_ok h w res_y res_x = true.
Proof.
  intros Hy Hx. unfold lattice_lookups_ok.
  rewrite !axis_lookups_ok_pos by assumption. apply orb_true_r.
Qed.

Section NoiseReturns.
Variable G : Generators.

Lemma np_rand_returns r c st : (0 <= r)%Z -> (0 <= c)%Z ->
  exists t st', np_rand G r c st = (Ok t, st').
Proof.
  intros Hr Hc. unfold np_rand.
  assert (E : ((r <? 0) || (c <? 0))%Z = false)
    by (apply orb_false_iff; split; apply Z.ltb_ge; assumption).
  rewrite E. eauto.
Qed.

Lemma single_octave_returns h w res_y res_x sd st :
  (1 <= res_y)%Z -> (1 <= res_x)%Z ->
  match sd with Some s => np_seed_ok s = true | None => True end ->
  exists a st', single_octave G h w res_y res_x sd st = (Ok a, st')
                /\ nrows a = h /\ ncols a = w.
Proof.
  intros Hy Hx Hs. unfold single_octave, bind.
  rewrite lattice_lookups_ok_pos by assumption.
  destruct sd as [s|].
  - unfold with_RandomState. rewrite Hs.
    destruct (np_rand_returns (res_y + 1) (res_x + 1) (mk_rng (FromSeed s) 0))
      as (t & st' & E); [lia | lia |].
    rewrite E. cbn [fst]. unfold ret.
    eexists; eexists; split; [reflexivity | split; reflexivity].
  - destruct (np_rand_returns (res_y + 1) (res_x + 1) st) as (t & st' & E); [lia | lia |].
    rewrite E. cbn [fst]. unfold ret.
    eexists; eexists; split; [reflexivity | split; reflexivity].
Qed.

Lemma sum_octaves_returns h w res pers sd n :
  (1 <= fst res)%Z -> (1 <= snd res)%Z ->
  forall o total amp max_amp st,
  (0 <= o)%Z ->
  match sd with Some s => (0 <= s + o)%Z /\ (s + o + Z.of_nat n <= 2 ^ 32)%Z
              | None => True end ->
  exists r st', sum_octaves G h w res pers sd n o total amp max_amp st = (Ok r, st').
Proof.
  intros Hy Hx. induction n as [|n IH]; intros o total amp max_amp st Ho Hs.
  - cbn. unfold ret. eauto.
  - cbn [sum_octaves]. cbn [fst snd].
    assert (Hf : (1 <= 2 ^ o)%Z) by (pose proof (Z.pow_pos_nonneg 2 o); lia).
    destruct (single_octave_returns h w (fst res * 2 ^ o) (snd res * 2 ^ o)
                (match sd with None => None | Some s => Some (s + o)%Z end) st)
      as (a & st1 & E & _); [nia | nia | |].
    { destruct sd as [s|]; [|exact I]. unfold np_seed_ok.
      apply andb_true_iff; split; [apply Z.leb_le | apply Z.ltb_lt]; lia. }
    unfold bind at 1. rewrite E.
    apply IH; [lia|]. destruct sd as [s|]; [lia | exact I].
Qed.

Lemma generate_perlin_noise_2d_returns shape res octs pers sd st :
  (0 <= fst shape)%Z -> (0 <= snd shape)%Z ->
  (1 <= fst res)%Z -> (1 <= snd res)%Z ->
  seeds_accepted sd (Z.to_nat octs) ->
  (1 <= octs)%Z ->
  exists field st',
    generate_perlin_noise_2d G shape res octs pers sd st = (Ok field, st').
Proof.
  intros Hh Hw Hy Hx Hs Ho. unfold generate_perlin_noise_2d.
  assert (E0 : exists st0,
    (match sd with Some s => np_random_seed s | None => ret tt end) st = (Ok tt, st0)).
  { destruct sd as [s|]; [|unfold ret; eauto].
    unfold np_random_seed, np_seed_ok. cbn in Hs.
    assert (((0 <=? s) && (s <? 2 ^ 32))%Z = true) as ->
      by (apply andb_true_iff; split; [apply Z.leb_le | apply Z.ltb_lt]; lia).
    unfold put. eauto. }
  destruct E0 as (st0 & E0). unfold bind at 1. rewrite E0.
  unfold np_zeros_value.
  assert (((fst shape <? 0) || (snd shape <? 0))%Z = false) as ->
    by (apply orb_false_iff; split; apply Z.ltb_ge; assumption).
  unfold bind at 1. unfold ret at 1.
  destruct (sum_octaves_returns (Z.to_nat (fst shape)) (Z.to_nat (snd shape)) res pers sd
              (Z.to_nat octs) Hy Hx 0%Z
              (arr_const (Z.to_nat (fst shape)) (Z.to_nat (snd shape)) 0) 1 0 st0)
    as ([total max_amp] & st1 & E1); [lia | |].
  { destruct sd as [s|]; [|exact I]. cbn in Hs. lia. }
  unfold bind. cbn [nrows ncols arr_const]. rewrite E1.
  destruct (Reqb max_amp 0); unfold ret; eauto.
Qed.

Lemma generate_perlin_noise_2d_bound shape res octs pers sd st field st' :
  0 <= pers ->
  generate_perlin_noise_2d G shape res octs pers sd st = (Ok field, st') ->
  nrows field = Z.to_nat (fst shape) /\ ncols field = Z.to_nat (snd shape) /\
  forall i j, (i < nrows field)%nat -> (j < ncols field)%nat ->
              -1 <= item field i j <= 1.
Proof.
  intros Hp H. unfold generate_perlin_noise_2d in H.
  apply bind_Ok in H as (u & st0 & _ & H).
  apply bind_Ok in H as (zeros & st1 & Hz & H).
  unfold np_zeros_value in Hz.
  destruct ((fst shape <? 0) || (snd shape <? 0))%Z; [discriminate|].
  injection Hz as <- <-.
  apply bind_Ok in H as ([total max_amp] & st2 & Hsum & H).
  cbn [nrows ncols arr_const] in Hsum.
  apply sum_octaves_bound in Hsum; [| exact Hp | lra |].
  2:{ intros i j _ _. cbn. lra. }
  cbn [fst snd nrows ncols arr_const] in Hsum. destruct Hsum as (Hr & Hc & Hb).
  unfold Reqb in H. destruct (Req_dec_T max_amp 0) as [E|NE].
  - injection H as <- _. rewrite Hr, Hc. split; [reflexivity | split; [reflexivity|]].
    intros i j Hi Hj. specialize (Hb i j Hi Hj). lra.
  - injection H as <- _. cbn [arr_map nrows ncols item]. rewrite Hr, Hc.
    split; [reflexivity | split; [reflexivity|]].
    intros i j Hi Hj. specialize (Hb i j Hi Hj).
    assert (Hm : 0 < max_amp) by lra.
    split.
    + apply Rmult_le_reg_r with max_amp; [exact Hm|].
      unfold Rdiv. rewrite Rmult_assoc, Rinv_l by lra. lra.
    + apply Rmult_le_reg_r with max_amp; [exact Hm|].
      unfold Rdiv. rewrite Rmult_assoc, Rinv_l by lra. lra.
Qed.

End NoiseReturns.

(** Heap *)
(** ** Heap and grid construction *)

Lemma list_set_length {A} (l : list A) n v : length (list_set l n v) = length l.
Proof. revert n; induction l as [|h t IH]; intros [|n]; cbn; auto. Qed.

Lemma nth_list_set_same {A} (l : list A) n v d :
  (n < length l)%nat -> nth n (list_set l n v) d = v.
Proof.
  revert n; induction l as [|h t IH]; intros [|n] H; cbn in *; try lia; auto.
  apply IH. lia.
Qed.

Lemma nth_app_fresh {A} (l : list A) v d : nth (length l) (l ++ [v]) d = v.
Proof. rewrite app_nth2 by lia. rewrite Nat.sub_diag. reflexivity. Qed.

Lemma nth_app_old {A} (l l' : list A) n d :
  (n < length l)%nat -> nth n (l ++ l') d = nth n l d.
Proof. intros H. now apply app_nth1. Qed.

Lemma Reqb_true a b : a = b -> Reqb a b = true.
Proof. intros H. unfold Reqb. destruct (Req_dec_T a b); [reflexivity | contradiction]. Qed.
Lemma Reqb_false a b : a <> b -> Reqb a b = false.
Proof. intros H. unfold Reqb. destruct (Req_dec_T a b); [contradiction | reflexivity]. Qed.
Lemma Reqb_false_inv a b : Reqb a b = false -> a <> b.
Proof. unfold Reqb. destruct (Req_dec_T a b); [discriminate | auto]. Qed.
Lemma Rltb_true a b : a < b -> Rltb a b = true.
Proof. intros H. unfold Rltb. destruct (Rlt_dec a b); [reflexivity | contradiction]. Qed.
Lemma Rltb_false a b : ~ a < b -> Rltb a b = false.
Proof. intros H. unfold Rltb. destruct (Rlt_dec a b); [contradiction | reflexivity]. Qed.
Lemma Rleb_true a b : a <= b -> Rleb a b = true.
Proof. intros H. unfold Rleb. destruct (Rle_dec a b); [reflexivity | contradiction]. Qed.
Lemma Rleb_false a b : ~ a <= b -> Rleb a b = false.
Proof. intros H. unfold Rleb. destruct (Rle_dec a b); [contradiction | reflexivity]. Qed.
Lemma Rleb_iff a b : Rleb a b = true <-> a <= b.
Proof. unfold Rleb. destruct (Rle_dec a b); split; intros; auto; discriminate. Qed.

Lemma build_grid_eval p w :
  build_grid p w =
  if Reqb (cell_size p) 0 then (Raise ZeroDivisionError, w)
  else if ((grid_ny p <? 0) || (grid_nx p <? 0))%Z then (Raise ValueError, w)
  else (Ok (length (heap w), grid_bounds p),
        mk_world (heap w ++ [arr_const (Z.to_nat (grid_ny p)) (Z.to_nat (grid_nx p)) 0])
                 (py_rng w) (np_rng w)).
Proof.
  unfold build_grid, py_div, bind.
  destruct (Reqb (cell_size p) 0); [reflexivity|].
  unfold ret at 1 2. unfold np_zeros, np_zeros_value, bind.
  fold (grid_margin p). fold (grid_nx p). fold (grid_ny p).
  destruct ((grid_ny p <? 0) || (grid_nx p <? 0))%Z; reflexivity.
Qed.

Section Grid.
Variable G : Generators.

Lemma fill_angles_eval l b p w :
  (l < length (heap w))%nat ->
  let a := nth l (heap w) (arr_const 0 0 0) in
  fill_angles G l b p w =
  match noise_call G p a (np_rng w) with
  | (Raise e, st) => (Raise e, mk_world (heap w) (py_rng w) st)
  | (Ok noise, st) =>
      let h1 := list_set (heap w) l (unquantized p a noise) in
      if Rltb 0 (get_or (quantize_steps p) 0) then
        (Ok (S (length (heap w))),
         mk_world (h1 ++ [fst (quantized p (unquantized p a noise))]
                      ++ [snd (quantized p (unquantized p a noise))])
                  (py_rng w) st)
      else (Ok l, mk_world h1 (py_rng w) st)
  end.
Proof.
  intros Hl a. unfold fill_angles.
  unfold bind at 1. unfold load at 1. fold a.
  unfold bind at 1. unfold lift_np. cbn [np_rng heap py_rng].
  fold (noise_res p). fold (noise_octaves p). fold (noise_call G p a).
  destruct (noise_call G p a (np_rng w)) as [[noise|e] st]; [|reflexivity].
  unfold bind at 1. unfold store at 1. cbn [heap py_rng np_rng].
  unfold unquantized.
  destruct (Rltb 0 (get_or (swirl p) 0)).
  - unfold bind at 1. unfold bind at 1. unfold load at 1, store at 1.
    cbn [heap py_rng np_rng fst snd].
    rewrite nth_list_set_same by exact Hl.
    assert (E : forall x y, list_set (list_set (heap w) l x) l y = list_set (heap w) l y).
    { clear. intros x y. generalize (heap w) as h. revert l.
      induction l as [|l IH]; intros [|a h]; cbn; auto. now rewrite IH. }
    rewrite E.
    destruct (Rltb 0 (get_or (quantize_steps p) 0)); [|reflexivity].
    unfold bind, load, alloc. cbn [heap py_rng np_rng fst snd].
    rewrite nth_list_set_same by exact Hl.
    rewrite nth_app_fresh. rewrite !length_app, list_set_length. cbn [length].
    rewrite <- app_assoc. unfold quantized. cbn [fst snd]. unfold ret.
    repeat f_equal. lia.
  - unfold bind at 1. unfold ret at 1.
    destruct (Rltb 0 (get_or (quantize_steps p) 0)); [|reflexivity].
    unfold bind, load, alloc. cbn [heap py_rng np_rng fst snd].
    rewrite nth_list_set_same by exact Hl.
    rewrite nth_app_fresh. rewrite !length_app, list_set_length. cbn [length].
    rewrite <- app_assoc. unfold quantized. cbn [fst snd]. unfold ret.
    repeat f_equal. lia.
Qed.

End Grid.

(** ** Stroke tracing *)

Lemma in_bounds_iff b x y : in_bounds b x y = true <-> within b (x, y).
Proof.
  unfold in_bounds, within. cbn [fst snd].
  rewrite !andb_true_iff, !Rleb_iff. tauto.
Qed.

Lemma get_field_angle_eval angles b p x y st :
  get_field_angle angles b p x y st =
  if Reqb (cell_size p) 0 then (Raise ZeroDivisionError, st)
  else (Ok (field_angle_at angles b p x y), st).
Proof.
  unfold get_field_angle, field_angle_at, py_div, bind.
  destruct (Reqb (cell_size p) 0); [reflexivity|].
  unfold ret.
  destruct ((0 <=? _) && _ && _ && _)%Z; reflexivity.
Qed.

Section StrokeProofs.
Variable G : Generators.
Variable angles : ndarray.
Variable bounds : Bounds.
Variable params : Params.

Lemma random_uniform_eval a b st :
  random_uniform G a b st =
  (Ok (a + (b - a) * py_stream G (origin st) (drawn st)),
   mk_rng (origin st) (S (drawn st))).
Proof. reflexivity. Qed.

Lemma follow_props n : forall x y heading positions st ps st',
  follow G angles bounds params n x y heading positions st = (Ok ps, st') ->
  exists ext, ps = positions ++ ext /\ (length ext <= n)%nat
              /\ Forall (within bounds) ext.
Proof.
  induction n as [|n IH]; intros x y heading positions st ps st' H.
  - cbn in H. injection H as <- _. exists []. rewrite app_nil_r. auto.
  - cbn [follow] in H.
    apply bind_Ok in H as (fa & st1 & _ & H).
    apply bind_Ok in H as (j & st2 & _ & H).
    match type of H with context [in_bounds bounds ?a ?b] =>
      destruct (in_bounds bounds a b) eqn:E end; cbn [negb] in H.
    + apply IH in H as (ext & -> & Hl & Hf).
      eexists (_ :: ext). rewrite <- app_assoc. cbn [app].
      split; [reflexivity|]. split; [cbn; lia|].
      constructor; [now apply in_bounds_iff | exact Hf].
    + injection H as <- _. exists []. rewrite app_nil_r. cbn. auto with arith.
Qed.

Lemma follow_returns n : cell_size params <> 0 ->
  forall x y heading positions st,
  exists ps st', follow G angles bounds params n x y heading positions st = (Ok ps, st').
Proof.
  intros Hc. induction n as [|n IH]; intros x y heading positions st.
  - cbn. unfold ret. eauto.
  - cbn [follow]. unfold bind at 1.
    rewrite get_field_angle_eval, (Reqb_false _ _ Hc).
    unfold bind at 1. rewrite random_uniform_eval.
    match goal with |- context [in_bounds bounds ?a ?b] =>
      destruct (in_bounds bounds a b) end; cbn [negb].
    + apply IH.
    + unfold ret. eauto.
Qed.

(** With a zero step the position never changes. *)
Lemma follow_zero_step n : cell_size params <> 0 -> step_size params = 0 ->
  forall x y heading positions st, within bounds (x, y) ->
  exists st', follow G angles bounds params n x y heading positions st
              = (Ok (positions ++ repeat (x, y) n), st').
Proof.
  intros Hc Hs. induction n as [|n IH]; intros x y heading positions st Hin.
  - cbn. rewrite app_nil_r. unfold ret. eauto.
  - cbn [follow]. unfold bind at 1.
    rewrite get_field_angle_eval, (Reqb_false _ _ Hc).
    unfold bind at 1. rewrite random_uniform_eval.
    rewrite Hs, !Rmult_0_r, !Rplus_0_r.
    apply in_bounds_iff in Hin. rewrite Hin. cbn [negb].
    apply in_bounds_iff in Hin.
    destruct (IH x y
      (heading * (1 - angle_gain params)
       + field_angle_at angles bounds params x y * angle_gain params
       + (- jitter params + (jitter params - - jitter params)
                            * py_stream G (origin st) (drawn st)))
      (positions ++ [(x, y)]) (mk_rng (origin st) (S (drawn st))) Hin) as (st' & E).
    exists st'. rewrite E. rewrite <- app_assoc. reflexivity.
Qed.

Lemma trace_stroke_props px py st ps st' :
  trace_stroke G angles bounds params px py st = (Ok ps, st') ->
  exists ext, ps = (px, py) :: ext
              /\ (length ext <= Z.to_nat (py_int (max_length params)))%nat
              /\ Forall (within bounds) ext.
Proof.
  unfold trace_stroke. intros H.
  apply bind_Ok in H as (h & st1 & _ & H).
  apply follow_props in H as (ext & -> & Hl & Hf). exists ext. auto.
Qed.

Lemma trace_stroke_returns px py st : cell_size params <> 0 ->
  exists ps st', trace_stroke G angles bounds params px py st = (Ok ps, st').
Proof.
  intros Hc. unfold trace_stroke, bind.
  rewrite get_field_angle_eval, (Reqb_false _ _ Hc). now apply follow_returns.
Qed.

End StrokeProofs.

(** ** Colour lookup and drawing *)

Lemma progress_range i n : (i < n - 1)%nat -> 0 <= INR i / INR (n - 1) < 1.
Proof.
  intros H. assert (Hn : 0 < INR (n - 1)) by (apply lt_0_INR; lia).
  assert (Hi : INR i < INR (n - 1)) by (apply lt_INR; lia).
  pose proof (pos_INR i).
  split.
  - apply Rmult_le_pos; [assumption | left; now apply Rinv_0_lt_compat].
  - apply Rmult_lt_reg_r with (INR (n - 1)); [exact Hn|].
    unfold Rdiv. rewrite Rmult_assoc, Rinv_l by lra. lra.
Qed.

Section Colorizer.
Variable params : Params.

Lemma stroke_span_nonneg : (0 <= stroke_span params)%Z.
Proof. unfold stroke_span. destruct (lut_len params <=? 1)%Z; lia. Qed.

Lemma stroke_base_idx_nonneg base : 0 <= base -> (0 <= stroke_base_idx params base)%Z.
Proof.
  intros Hb. unfold stroke_base_idx. destruct (lut_len params <=? 1)%Z; [lia|].
  apply py_int_nonneg. apply Rmult_le_pos; [exact Hb|]. apply IZR_le. lia.
Qed.

Lemma segment_idx_range base t :
  (1 <= lut_len params)%Z -> 0 <= base -> 0 <= t ->
  (0 <= segment_idx params (stroke_base_idx params base) t < lut_len params)%Z.
Proof.
  intros HL Hb Ht.
  pose proof (stroke_base_idx_nonneg base Hb) as Hbi.
  pose proof stroke_span_nonneg as Hsp.
  assert (Hts : (0 <= py_int (t * IZR (stroke_span params)))%Z).
  { apply py_int_nonneg. apply Rmult_le_pos; [exact Ht | apply IZR_le; lia]. }
  unfold segment_idx. cbv zeta.
  destruct (_ >=? lut_len params)%Z eqn:E; [lia|].
  rewrite Z.geb_leb in E. apply Z.leb_gt in E. lia.
Qed.

Lemma py_list_get_in_range {S A} (l : list A) i (st : S) :
  (0 <= i < Z.of_nat (length l))%Z ->
  exists v, py_list_get l i st = (Ok v, st) /\ nth_error l (Z.to_nat i) = Some v.
Proof.
  intros H. unfold py_list_get. cbv zeta.
  assert (idx_ok (Z.of_nat (length l)) i = true) as ->
    by (unfold idx_ok; apply andb_true_iff; split; [apply Z.leb_le | apply Z.ltb_lt]; lia).
  assert (idx_norm (Z.of_nat (length l)) i = i) as ->
    by (unfold idx_norm; destruct (i <? 0)%Z eqn:E; [apply Z.ltb_lt in E; lia | reflexivity]).
  destruct (nth_error l (Z.to_nat i)) as [v|] eqn:E.
  - exists v. auto.
  - apply nth_error_None in E. lia.
Qed.

Lemma segment_color_returns base t (st : rng_state) :
  0 <= base -> 0 <= t ->
  exists c, segment_color params (stroke_base_idx params base) t st = (Ok c, st).
Proof.
  intros Hb Ht. unfold segment_color.
  destruct (lut_len params >? 0)%Z eqn:E; [|unfold ret; eauto].
  apply Z.gtb_lt in E.
  destruct (py_list_get_in_range (lut params)
              (segment_idx params (stroke_base_idx params base) t) st) as (c & Hc & _).
  { apply segment_idx_range; [fold (lut_len params) in *; lia | assumption..]. }
  eauto.
Qed.

Lemma draw_segments_returns positions base ixs : 0 <= base ->
  forall img (st : rng_state),
  exists img', draw_segments params positions (stroke_base_idx params base) ixs img st
               = (Ok img', st)
    /\ im_size img' = im_size img /\ im_background img' = im_background img
    /\ exists new, im_lines img' = im_lines img ++ new /\ length new = length ixs.
Proof.
  intros Hb. induction ixs as [|i ixs IH]; intros img st.
  - cbn. unfold ret. exists img. repeat split. exists []. now rewrite app_nil_r.
  - cbn [draw_segments]. unfold bind at 1.
    destruct (segment_color_returns base (INR i / INR (length positions - 1)) st Hb)
      as (c & Hc).
    { apply Rmult_le_pos; [apply pos_INR|].
      destruct (length positions - 1)%nat as [|k].
      - cbn. rewrite Rinv_0. lra.
      - left. apply Rinv_0_lt_compat, lt_0_INR. lia. }
    rewrite Hc.
    match goal with |- context [draw_segments _ _ _ _ ?im _] =>
      destruct (IH im st) as (img' & E & Hs & Hbg & new & Hn & Hl) end.
    exists img'. rewrite E. cbn [draw_line im_size im_background im_lines] in *.
    repeat split; auto.
    eexists (_ :: new). rewrite Hn, <- app_assoc. cbn [app]. split; [reflexivity|].
    cbn. now rewrite Hl.
Qed.

(** The end points of the lines the segment loop draws: the slice
    [positions[i:i+2]], for each index in turn. *)
Lemma draw_segments_points positions base_idx ixs :
  forall img (st : rng_state) img' st',
  draw_segments params positions base_idx ixs img st = (Ok img', st') ->
  exists new, im_lines img' = im_lines img ++ new
    /\ map line_points new = map (fun i => firstn 2 (skipn i positions)) ixs.
Proof.
  induction ixs as [|i ixs IH]; intros img st img' st' H.
  - cbn in H. injection H as <- _. exists []. now rewrite app_nil_r.
  - cbn [draw_segments] in H. apply bind_Ok in H as (c & st1 & _ & H).
    apply IH in H as (new & Hn & Hp). cbn [draw_line im_lines] in Hn.
    eexists (_ :: new). rewrite Hn, <- app_assoc. cbn [app]. split; [reflexivity|].
    cbn [map line_points]. now rewrite Hp.
Qed.

End Colorizer.

Section Drawing.
Variable G : Generators.
Variable angles : ndarray.
Variable bounds : Bounds.
Variable params : Params.

Lemma stroke_base_returns px py st : cell_size params <> 0 ->
  exists base st', stroke_base G angles bounds params px py st = (Ok base, st')
                   /\ 0 <= base <= 1.
Proof.
  intros Hc. unfold stroke_base. cbv zeta.
  assert (K : forall v, 0 <= Rmax 0 (Rmin 1 v) <= 1).
  { intros v. split; [apply Rmax_l|]. apply Rmax_lub; [lra | apply Rmin_l]. }
  destruct (String.eqb _ "y").
  { unfold bind, ret. eauto. }
  destruct (String.eqb _ "field").
  { unfold bind. rewrite get_field_angle_eval, (Reqb_false _ _ Hc). unfold ret. eauto. }
  destruct (String.eqb _ "random").
  { unfold bind, random_random, ret. eauto. }
  unfold bind, ret. eauto.
Qed.

Lemma draw_stroke_returns img pt st : cell_size params <> 0 ->
  exists img' st', draw_stroke G angles bounds params img pt st = (Ok img', st')
    /\ im_size img' = im_size img /\ im_background img' = im_background img.
Proof.
  intros Hc. destruct pt as [px py]. unfold draw_stroke.
  destruct (trace_stroke_returns G angles bounds params px py st Hc) as (ps & st1 & E).
  unfold bind at 1. rewrite E.
  destruct (1 <? length ps)%nat; [|unfold ret; eauto].
  destruct (stroke_base_returns px py st1 Hc) as (base & st2 & Eb & Hb).
  unfold bind at 1. rewrite Eb.
  destruct (draw_segments_returns params ps base (seq 0 (length ps - 1)) (proj1 Hb) img st2)
    as (img' & Ed & Hs & Hbg & _).
  eauto.
Qed.

Lemma draw_all_returns points : cell_size params <> 0 ->
  forall img st,
  exists img' st', draw_all G angles bounds params points img st = (Ok img', st')
    /\ im_size img' = im_size img /\ im_background img' = im_background img.
Proof.
  intros Hc. induction points as [|pt rest IH]; intros img st.
  - cbn. unfold ret. eauto.
  - cbn [draw_all]. unfold bind at 1.
    destruct (draw_stroke_returns img pt st Hc) as (img1 & st1 & E & Hs & Hb).
    rewrite E. destruct (IH img1 st1) as (img2 & st2 & E2 & Hs2 & Hb2).
    exists img2, st2. rewrite E2. repeat split; congruence.
Qed.

(** Random seeding always returns, with one point per iteration. *)
Lemma random_points_returns n : forall points st,
  exists new st', random_points G bounds n points st = (Ok (points ++ new), st')
                  /\ length new = n.
Proof.
  induction n as [|n IH]; intros points st.
  - cbn. unfold ret. exists [], st. now rewrite app_nil_r.
  - cbn [random_points]. unfold bind at 1. rewrite random_uniform_eval.
    unfold bind at 1. rewrite random_uniform_eval.
    match goal with |- context [random_points _ _ _ (points ++ [?pt]) ?s] =>
      destruct (IH (points ++ [pt]) s) as (new & st' & E & Hl) end.
    eexists (_ :: new), st'. rewrite E, <- app_assoc. cbn [app].
    split; [reflexivity | cbn; now rewrite Hl].
Qed.

End Drawing.

(** ** What [render] computes *)

Lemma nth_filled_heap p h noise :
  nth (length h) (filled_heap p h noise) (arr_const 0 0 0)
  = unquantized p (grid_zeros p) noise.
Proof.
  unfold filled_heap. cbv zeta.
  assert (L : (length h < length (h ++ [grid_zeros p]))%nat)
    by (rewrite length_app; cbn; lia).
  destruct (Rltb 0 (get_or (quantize_steps p) 0)).
  - rewrite nth_app_old by (rewrite list_set_length; exact L).
    now apply nth_list_set_same.
  - now apply nth_list_set_same.
Qed.

Section Render.
Variable G : Generators.

Lemma render_grid_eval p w :
  let w1 := seeded_world p w in
  render_grid G p w =
  if Reqb (cell_size p) 0 then (Raise ZeroDivisionError, w1)
  else if ((grid_ny p <? 0) || (grid_nx p <? 0))%Z then (Raise ValueError, w1)
  else match noise_call G p (grid_zeros p) (np_rng w) with
       | (Raise e, st) =>
           (Raise e, mk_world (heap w ++ [grid_zeros p]) (py_rng w1) st)
       | (Ok noise, st) =>
           (Ok (length (heap w), grid_bounds p),
            mk_world (filled_heap p (heap w) noise) (py_rng w1) st)
       end.
Proof.
  intros w1. unfold render_grid.
  assert (E1 : (match seed p with
                | Some s => lift_py (random_seed s)
                | None => ret tt end) w = (Ok tt, w1)).
  { unfold w1, seeded_world. destruct (seed p); [reflexivity|]. reflexivity. }
  unfold bind at 1. rewrite E1.
  unfold bind at 1. rewrite build_grid_eval.
  assert (Hh : heap w1 = heap w) by (unfold w1, seeded_world; destruct (seed p); reflexivity).
  assert (Hn : np_rng w1 = np_rng w) by (unfold w1, seeded_world; destruct (seed p); reflexivity).
  destruct (Reqb (cell_size p) 0); [reflexivity|].
  destruct ((grid_ny p <? 0) || (grid_nx p <? 0))%Z; [reflexivity|].
  unfold bind at 1. cbn [fst snd].
  rewrite fill_angles_eval by (cbn [heap]; rewrite length_app; cbn; lia).
  cbn [heap py_rng np_rng]. rewrite Hh, Hn.
  rewrite nth_app_fresh. fold (grid_zeros p).
  destruct (noise_call G p (grid_zeros p) (np_rng w)) as [[noise|e] st]; [|reflexivity].
  unfold filled_heap. cbv zeta.
  destruct (Rltb 0 (get_or (quantize_steps p) 0)); reflexivity.
Qed.

Lemma render_eval p w :
  let w1 := seeded_world p w in
  render G p w =
  if Reqb (cell_size p) 0 then (Raise ZeroDivisionError, w1)
  else if ((grid_ny p <? 0) || (grid_nx p <? 0))%Z then (Raise ValueError, w1)
  else match noise_call G p (grid_zeros p) (np_rng w) with
       | (Raise e, st) =>
           (Raise e, mk_world (heap w ++ [grid_zeros p]) (py_rng w1) st)
       | (Ok noise, st) =>
           let (r, s) := draw_strokes G (unquantized p (grid_zeros p) noise)
                           (grid_bounds p) p (py_rng w1) in
           (r, mk_world (filled_heap p (heap w) noise) s st)
       end.
Proof.
  intros w1. unfold render. unfold bind at 1. rewrite render_grid_eval. fold w1.
  destruct (Reqb (cell_size p) 0); [reflexivity|].
  destruct ((grid_ny p <? 0) || (grid_nx p <? 0))%Z; [reflexivity|].
  destruct (noise_call G p (grid_zeros p) (np_rng w)) as [[noise|e] st]; [|reflexivity].
  unfold bind, load, lift_py. cbn [fst snd heap py_rng np_rng].
  rewrite nth_filled_heap. reflexivity.
Qed.

(** With a seed, the noise does not depend on the generator it starts from. *)
Lemma generate_seeded shape res octs pers s st1 st2 :
  fst (generate_perlin_noise_2d G shape res octs pers (Some s) st1)
  = fst (generate_perlin_noise_2d G shape res octs pers (Some s) st2).
Proof.
  unfold generate_perlin_noise_2d. unfold bind at 1 3.
  unfold np_random_seed. destruct (np_seed_ok s); reflexivity.
Qed.

Lemma render_seeded_result p s w1 w2 :
  seed p = Some s -> fst (render G p w1) = fst (render G p w2).
Proof.
  intros Hs. rewrite !render_eval.
  destruct (Reqb (cell_size p) 0); [reflexivity|].
  destruct ((grid_ny p <? 0) || (grid_nx p <? 0))%Z; [reflexivity|].
  assert (E : fst (noise_call G p (grid_zeros p) (np_rng w1))
              = fst (noise_call G p (grid_zeros p) (np_rng w2))).
  { unfold noise_call. rewrite Hs. apply generate_seeded. }
  assert (P : py_rng (seeded_world p w1) = py_rng (seeded_world p w2)).
  { unfold seeded_world. rewrite Hs. reflexivity. }
  destruct (noise_call G p (grid_zeros p) (np_rng w1)) as [[n1|e1] s1];
    destruct (noise_call G p (grid_zeros p) (np_rng w2)) as [[n2|e2] s2];
    cbn [fst] in E; try discriminate E.
  - injection E as ->. rewrite P.
    destruct (draw_strokes G _ _ p _) as [r s']. reflexivity.
  - injection E as ->. reflexivity.
Qed.

End Render.

(** ** Draws never re-initialise a generator *)

Lemma keeps_ret {A} (a : A) : keeps_origin (ret a).
Proof. intros st. reflexivity. Qed.
Lemma keeps_raise {A} e : keeps_origin (@raise rng_state A e).
Proof. intros st. reflexivity. Qed.
Lemma keeps_bind {A B} (c : M rng_state A) (k : A -> M rng_state B) :
  keeps_origin c -> (forall a, keeps_origin (k a)) -> keeps_origin (bind c k).
Proof.
  intros Hc Hk st. unfold bind. specialize (Hc st).
  destruct (c st) as [[a|e] s1]; cbn [snd] in *.
  - rewrite Hk. exact Hc.
  - exact Hc.
Qed.
Lemma keeps_py_div a b : keeps_origin (py_div a b).
Proof. unfold py_div. destruct (Reqb b 0); [apply keeps_raise | apply keeps_ret]. Qed.
Lemma keeps_random_random G : keeps_origin (random_random G).
Proof. intros st. reflexivity. Qed.
Lemma keeps_random_uniform G a b : keeps_origin (random_uniform G a b).
Proof. intros st. reflexivity. Qed.
Lemma keeps_np_arange a b c : keeps_origin (np_arange a b c).
Proof. unfold np_arange. destruct (Reqb c 0); [apply keeps_raise | apply keeps_ret]. Qed.
Lemma keeps_math_sqrt x : keeps_origin (math_sqrt x).
Proof. unfold math_sqrt. destruct (Rltb x 0); [apply keeps_raise | apply keeps_ret]. Qed.
Lemma keeps_py_list_get {A} (l : list A) i : keeps_origin (py_list_get l i).
Proof.
  unfold py_list_get. cbv zeta. destruct (idx_ok _ i); [|apply keeps_raise].
  destruct (nth_error l _); [apply keeps_ret | apply keeps_raise].
Qed.
Lemma keeps_Image_new sz bg : keeps_origin (Image_new sz bg).
Proof. unfold Image_new. destruct (_ || _)%bool; [apply keeps_raise | apply keeps_ret]. Qed.

Create HintDb keeps.
#[local] Hint Resolve keeps_ret keeps_raise keeps_py_div keeps_random_random
  keeps_random_uniform keeps_np_arange keeps_math_sqrt keeps_py_list_get
  keeps_Image_new : keeps.

Section Origin.
Variable G : Generators.
Variable angles : ndarray.
Variable bounds : Bounds.
Variable params : Params.

Lemma keeps_get_field_angle x y : keeps_origin (get_field_angle angles bounds params x y).
Proof.
  unfold get_field_angle.
  apply keeps_bind; [auto with keeps | intros qx].
  apply keeps_bind; [auto with keeps | intros qy].
  destruct (_ && _)%bool; auto with keeps.
Qed.

Lemma keeps_follow n : forall x y heading positions,
  keeps_origin (follow G angles bounds params n x y heading positions).
Proof.
  induction n as [|n IH]; intros x y heading positions; cbn [follow].
  - auto with keeps.
  - apply keeps_bind; [apply keeps_get_field_angle | intros fa].
    apply keeps_bind; [auto with keeps | intros j].
    destruct (negb _); [auto with keeps | apply IH].
Qed.

Lemma keeps_trace_stroke px py : keeps_origin (trace_stroke G angles bounds params px py).
Proof.
  unfold trace_stroke. apply keeps_bind; [apply keeps_get_field_angle | intros h].
  apply keeps_follow.
Qed.

Lemma keeps_stroke_base px py : keeps_origin (stroke_base G angles bounds params px py).
Proof.
  unfold stroke_base. cbv zeta. apply keeps_bind; [|auto with keeps].
  destruct (String.eqb _ "y"); [auto with keeps|].
  destruct (String.eqb _ "field").
  { apply keeps_bind; [apply keeps_get_field_angle | auto with keeps]. }
  destruct (String.eqb _ "random"); auto with keeps.
Qed.

Lemma keeps_draw_segments positions base_idx ixs : forall img,
  keeps_origin (draw_segments params positions base_idx ixs img).
Proof.
  induction ixs as [|i ixs IH]; intros img; cbn [draw_segments].
  - auto with keeps.
  - apply keeps_bind; [|intros c; apply IH].
    unfold segment_color. destruct (_ >? 0)%Z; auto with keeps.
Qed.

Lemma keeps_draw_stroke img pt : keeps_origin (draw_stroke G angles bounds params img pt).
Proof.
  destruct pt as [px py]. unfold draw_stroke.
  apply keeps_bind; [apply keeps_trace_stroke | intros ps].
  destruct (1 <? length ps)%nat; [|auto with keeps].
  apply keeps_bind; [apply keeps_stroke_base | intros b]. apply keeps_draw_segments.
Qed.

Lemma keeps_draw_all points : forall img,
  keeps_origin (draw_all G angles bounds params points img).
Proof.
  induction points as [|pt rest IH]; intros img; cbn [draw_all].
  - auto with keeps.
  - apply keeps_bind; [apply keeps_draw_stroke | intros i; apply IH].
Qed.

Lemma keeps_random_points n : forall points,
  keeps_origin (random_points G bounds n points).
Proof.
  induction n as [|n IH]; intros points; cbn [random_points].
  - auto with keeps.
  - apply keeps_bind; [auto with keeps | intros x].
    apply keeps_bind; [auto with keeps | intros y]. apply IH.
Qed.

Lemma keeps_grid_points spacing ys : forall points,
  keeps_origin (grid_points bounds spacing ys points).
Proof.
  induction ys as [|y ys IH]; intros points; cbn [grid_points].
  - auto with keeps.
  - apply keeps_bind; [auto with keeps | intros xs]. apply IH.
Qed.

Lemma keeps_seed_points : keeps_origin (seed_points G params bounds).
Proof.
  unfold seed_points. cbv zeta.
  destruct (String.eqb _ "random"); [apply keeps_random_points|].
  destruct (String.eqb _ "grid"); [|auto with keeps].
  apply keeps_bind; [auto with keeps | intros q].
  apply keeps_bind; [auto with keeps | intros sp].
  apply keeps_bind; [auto with keeps | intros ys]. apply keeps_grid_points.
Qed.

Lemma keeps_draw_strokes : keeps_origin (draw_strokes G angles bounds params).
Proof.
  unfold draw_strokes.
  apply keeps_bind; [auto with keeps | intros img].
  apply keeps_bind; [apply keeps_seed_points | intros pts]. apply keeps_draw_all.
Qed.

End Origin.

Section RenderState.
Variable G : Generators.

(** Whatever happens in [render], the module-level generator of [random] ends
    with the origin the first statement gave it. *)
Lemma render_py_origin p w :
  origin (py_rng (snd (render G p w))) = origin (py_rng (seeded_world p w)).
Proof.
  rewrite render_eval.
  destruct (Reqb (cell_size p) 0); [reflexivity|].
  destruct ((grid_ny p <? 0) || (grid_nx p <? 0))%Z; [reflexivity|].
  destruct (noise_call G p (grid_zeros p) (np_rng w)) as [[noise|e] st]; [|reflexivity].
  pose proof (keeps_draw_strokes G (unquantized p (grid_zeros p) noise)
                (grid_bounds p) p (py_rng (seeded_world p w))) as K.
  destruct (draw_strokes G _ _ p _) as [r s]. exact K.
Qed.

Lemma noise_res_ge p : (2 <= noise_res p)%Z.
Proof.
  unfold noise_res.
  assert (H : 2 <= Rmax 2 (get_or (noise_scale p) 4)) by apply Rmax_l.
  assert (H0 : 0 <= Rmax 2 (get_or (noise_scale p) 4)) by lra.
  pose proof (py_int_nonneg_bounds _ H0) as [_ Hu].
  assert (Hlt : (1 < py_int (Rmax 2 (get_or (noise_scale p) 4))%R)%Z); [|lia].
  apply lt_IZR. lra.
Qed.

Lemma noise_octaves_range p : (1 <= noise_octaves p <= 10)%Z.
Proof. unfold noise_octaves. lia. Qed.

Lemma noise_call_returns p a st :
  seeds_accepted (seed p) (Z.to_nat (noise_octaves p)) ->
  exists noise st', noise_call G p a st = (Ok noise, st')
    /\ nrows noise = nrows a /\ ncols noise = ncols a.
Proof.
  intros Hs. unfold noise_call.
  pose proof (noise_res_ge p). pose proof (noise_octaves_range p).
  destruct (generate_perlin_noise_2d_returns G (Z.of_nat (nrows a), Z.of_nat (ncols a))
              (noise_res p, noise_res p) (noise_octaves p) (1 / 2) (seed p) st)
    as (noise & st' & E); cbn [fst snd]; try lia; try assumption.
  exists noise, st'. split; [exact E|].
  apply generate_perlin_noise_2d_bound in E as (Hr & Hc & _); [|lra].
  cbn [fst snd] in Hr, Hc. rewrite Nat2Z.id in Hr, Hc. auto.
Qed.

(** [render] returns an image for a well-formed configuration whose start
    points are not laid out on a grid. *)
Lemma render_returns p w :
  cell_size p <> 0 -> (0 <= grid_ny p)%Z -> (0 <= grid_nx p)%Z ->
  (0 <= width p)%Z -> (0 <= height p)%Z ->
  seeds_accepted (seed p) (Z.to_nat (noise_octaves p)) ->
  String.eqb (seeding p) "grid" = false ->
  exists img w', render G p w = (Ok img, w')
    /\ im_size img = (width p, height p) /\ im_background img = background p.
Proof.
  intros Hc Hy Hx Hw Hh Hs Hg. rewrite render_eval.
  rewrite (Reqb_false _ _ Hc).
  assert (((grid_ny p <? 0) || (grid_nx p <? 0))%Z = false) as ->
    by (apply orb_false_iff; split; apply Z.ltb_ge; assumption).
  destruct (noise_call_returns p (grid_zeros p) (np_rng w) Hs) as (noise & st & E & _).
  rewrite E.
  set (a := unquantized p (grid_zeros p) noise).
  set (s0 := py_rng (seeded_world p w)).
  assert (K : exists img s', draw_strokes G a (grid_bounds p) p s0 = (Ok img, s')
            /\ im_size img = (width p, height p) /\ im_background img = background p).
  { unfold draw_strokes. unfold bind at 1. unfold Image_new. cbn [fst snd].
    assert (((width p <? 0) || (height p <? 0))%Z = false) as ->
      by (apply orb_false_iff; split; apply Z.ltb_ge; assumption).
    unfold ret at 1.
    assert (P : exists pts s1, seed_points G p (grid_bounds p) s0 = (Ok pts, s1)).
    { unfold seed_points. cbv zeta. destruct (String.eqb (seeding p) "random").
      - destruct (random_points_returns G (grid_bounds p)
                    (Z.to_nat (py_int ((x1 (grid_bounds p) - x0 (grid_bounds p))
                                       * (y1 (grid_bounds p) - y0 (grid_bounds p))
                                       * density p))) [] s0) as (new & s1 & E1 & _).
        cbn [app] in E1. eauto.
      - rewrite Hg. unfold ret. eauto. }
    destruct P as (pts & s1 & P). unfold bind at 1. rewrite P.
    destruct (draw_all_returns G a (grid_bounds p) p pts Hc
                (mk_Image (width p, height p) (background p) []) s1)
      as (img & s2 & E2 & Hsz & Hbg).
    eauto. }
  destruct K as (img & s' & K & Hsz & Hbg). rewrite K. eauto.
Qed.

(** An image that [render] returns has the size and the background of the
    configuration. *)
Lemma render_image_size p w img w' :
  render G p w = (Ok img, w') ->
  im_size img = (width p, height p) /\ im_background img = background p.
Proof.
  rewrite render_eval. intros H.
  destruct (Reqb (cell_size p) 0) eqn:Ec; [discriminate|].
  apply Reqb_false_inv in Ec.
  destruct (_ || _)%bool; [discriminate|].
  destruct (noise_call G p (grid_zeros p) (np_rng w)) as [[noise|e] st]; [|discriminate].
  destruct (draw_strokes G _ _ p _) as [r s] eqn:D. injection H as -> _.
  unfold draw_strokes in D.
  apply bind_Ok in D as (img0 & s0 & D0 & D).
  apply bind_Ok in D as (pts & s1 & _ & D).
  unfold Image_new in D0. destruct (_ || _)%bool; [discriminate|].
  injection D0 as <- _.
  destruct (draw_all_returns G (unquantized p (grid_zeros p) noise) (grid_bounds p) p
              pts Ec (mk_Image (width p, height p) (background p) []) s1)
    as (img' & s2 & E & Hs & Hb).
  rewrite E in D. injection D as <- _. auto.
Qed.





End RenderState.

(** ** Rounding, and the noise at the first cell *)

Lemma round_half_even_up x z :
  IZR z + 1 / 2 < x < IZR z + 1 -> round_half_even x = (z + 1)%Z.
Proof.
  intros H. unfold round_half_even. cbv zeta.
  rewrite (Int_part_unique x z) by lra.
  destruct (Rlt_le_dec (x - IZR z) (1 / 2)); [lra|].
  destruct (Rlt_le_dec (1 / 2) (x - IZR z)); [reflexivity | lra].
Qed.

Lemma round_half_even_down x z :
  IZR z <= x < IZR z + 1 / 2 -> round_half_even x = z.
Proof.
  intros H. unfold round_half_even. cbv zeta.
  rewrite (Int_part_unique x z) by lra.
  destruct (Rlt_le_dec (x - IZR z) (1 / 2)); [reflexivity | lra].
Qed.

Lemma round_half_even_tie_odd z :
  Z.even z = false -> round_half_even (IZR z + 1 / 2) = (z + 1)%Z.
Proof.
  intros H. unfold round_half_even. cbv zeta.
  rewrite (Int_part_unique (IZR z + 1 / 2) z) by lra.
  destruct (Rlt_le_dec (IZR z + 1 / 2 - IZR z) (1 / 2)); [lra|].
  destruct (Rlt_le_dec (1 / 2) (IZR z + 1 / 2 - IZR z)); [lra|].
  now rewrite H.
Qed.

Lemma arctan2_third_quadrant : arctan2 (-1) (-1) = - (3 * PI / 4).
Proof.
  unfold arctan2.
  destruct (Rlt_le_dec 0 (-1)); [lra|].
  destruct (Rlt_le_dec (-1) 0); [|lra].
  destruct (Rle_lt_dec 0 (-1)); [lra|].
  replace (-1 / -1) with 1 by (field; lra). rewrite atan_1. lra.
Qed.

Lemma interpolant_0 : interpolant 0 = 0.
Proof. unfold interpolant. ring. Qed.

Section NoiseOrigin.
Variable G : Generators.

Lemma single_octave_origin h w res_y res_x sd st a st' :
  single_octave G h w res_y res_x sd st = (Ok a, st') -> item a 0 0 = 0.
Proof.
  unfold single_octave. intros H.
  apply bind_Ok in H as (rnd & st1 & _ & H).
  destruct (lattice_lookups_ok h w res_y res_x); [|discriminate].
  injection H as <- _. cbn [item fst snd].
  assert (L : forall stop num, linspace_item stop num 0 = 0)
    by (intros; unfold linspace_item; cbn [INR]; ring).
  rewrite !L. replace 0 with (IZR 0) at 1 2 3 4 5 6 7 8 by reflexivity.
  rewrite !py_int_IZR. cbn [IZR]. rewrite Rminus_diag, interpolant_0. ring.
Qed.

Lemma sum_octaves_origin h w res pers sd n : forall o total amp max_amp st r st',
  item total 0 0 = 0 ->
  sum_octaves G h w res pers sd n o total amp max_amp st = (Ok r, st') ->
  item (fst r) 0 0 = 0.
Proof.
  induction n as [|n IH]; intros o total amp max_amp st r st' H0 H.
  - cbn in H. injection H as <- _. exact H0.
  - cbn [sum_octaves] in H. apply bind_Ok in H as (oct & st1 & E & H).
    apply single_octave_origin in E.
    refine (IH _ _ _ _ _ _ _ _ H). cbn [arr_map2 arr_map item]. rewrite H0, E. ring.
Qed.

Lemma noise_origin shape res octs pers sd st field st' :
  generate_perlin_noise_2d G shape res octs pers sd st = (Ok field, st') ->
  item field 0 0 = 0.
Proof.
  unfold generate_perlin_noise_2d. intros H.
  apply bind_Ok in H as (u & st0 & _ & H).
  apply bind_Ok in H as (zeros & st1 & Hz & H).
  unfold np_zeros_value in Hz. destruct (_ || _)%bool; [discriminate|].
  injection Hz as <- <-.
  apply bind_Ok in H as ([total max_amp] & st2 & Hsum & H).
  apply sum_octaves_origin in Hsum; [|reflexivity]. cbn [fst] in Hsum.
  destruct (Reqb max_amp 0); injection H as <- _; [exact Hsum|].
  cbn [arr_map item]. rewrite Hsum. unfold Rdiv. ring.
Qed.

End NoiseOrigin.

(** ** The claims *)

Lemma sample_seeds_accepted c m q s l st d :
  seeds_accepted (seed (sample_config c m q s l st d))
                 (Z.to_nat (noise_octaves (sample_config c m q s l st d))).
Proof.
  cbn [seed sample_config seeds_accepted].
  pose proof (noise_octaves_range (sample_config c m q s l st d)). lia.
Qed.

Lemma sample_grid_dims c m q s l st d (k : Z) :
  c <> 0 -> (100 - 2 * (100 * m)) / c = IZR k ->
  grid_ny (sample_config c m q s l st d) = k
  /\ grid_nx (sample_config c m q s l st d) = k.
Proof.
  intros Hc H. unfold grid_ny, grid_nx, grid_margin.
  cbn [width height cell_size margin_factor sample_config].
  change (Z.min 100 100) with 100%Z. rewrite H, py_int_IZR. auto.
Qed.

Section Claims.
Variable G : Generators.

(** The array that [draw_strokes] is given is the one [fill_angles] wrote
    the noise and the swirl into; the rounded arrays are other objects. *)
Lemma render_grid_unquantized p w grid w' :
  render_grid G p w = (Ok grid, w') ->
  exists noise st, noise_call G p (grid_zeros p) (np_rng w) = (Ok noise, st)
    /\ nth (fst grid) (heap w') (arr_const 0 0 0) = unquantized p (grid_zeros p) noise.
Proof.
  rewrite render_grid_eval.
  destruct (Reqb (cell_size p) 0); [discriminate|].
  destruct (_ || _)%bool; [discriminate|].
  destruct (noise_call G p (grid_zeros p) (np_rng w)) as [[noise|e] st]; [|discriminate].
  intros H. injection H as <- <-. exists noise, st. split; [reflexivity|].
  cbn [fst heap]. apply nth_filled_heap.
Qed.

(** C1 (defect): with quantize_steps = 4 and swirl = 0.2 on a 2 by 2 grid,
    the array that [draw_strokes] samples holds -3*pi/20 at cell (0, 0), which
    is no multiple of 2*pi/4; snapping would have given 0. *)
Theorem render_grid_not_quantized (w : world) :
  exists grid w', render_grid G quantize_config w = (Ok grid, w') /\
    let a := nth (fst grid) (heap w') (arr_const 0 0 0) in
    item a 0 0 = - (3 * PI / 4) * (1 / 5)
    /\ (forall k : Z, item a 0 0 <> IZR k * (2 * PI / 4))
    /\ IZR (round_half_even (item a 0 0 / (2 * PI) * 4)) * 2 * PI / 4 = 0.
Proof.
  pose proof PI_RGT_0 as Hpi.
  destruct (sample_grid_dims 50 0 (Some 4) (Some (1 / 5)) 2 3 (27 / 100000) 2)
    as [Hny Hnx]; [lra | lra |]. fold quantize_config in Hny, Hnx.
  destruct (noise_call_returns G quantize_config (grid_zeros quantize_config) (np_rng w))
    as (noise & st & E & _); [apply sample_seeds_accepted|].
  assert (R : exists grid w', render_grid G quantize_config w = (Ok grid, w')).
  { rewrite render_grid_eval, Hny, Hnx, E. rewrite Reqb_false by (cbn; lra).
    cbn [Z.ltb Z.compare orb]. eauto. }
  destruct R as (grid & w' & R). exists grid, w'. split; [exact R|].
  apply render_grid_unquantized in R as (noise' & st' & E' & ->).
  apply noise_origin in E'.
  assert (V : item (unquantized quantize_config (grid_zeros quantize_config) noise') 0 0
              = - (3 * PI / 4) * (1 / 5)).
  { unfold unquantized. cbn [get_or swirl quantize_config sample_config].
    rewrite Rltb_true by lra.
    cbn [arr_assign arr_map item nrows ncols grid_zeros arr_const].
    rewrite E', Hny, Hnx. change (Z.to_nat 2) with 2%nat. cbn [INR].
    replace (0 - (1 + 1) / 2) with (-1) by lra.
    rewrite arctan2_third_quadrant. lra. }
  cbv zeta. rewrite V. split; [reflexivity|]. split.
  - intros k Hk.
    assert (Hk' : IZR (10 * k) = IZR (-3)).
    { rewrite mult_IZR. apply Rmult_eq_reg_r with (PI / 20); [|lra].
      cbn [IZR IPR IPR_2] in *. lra. }
    apply eq_IZR in Hk'. lia.
  - replace (- (3 * PI / 4) * (1 / 5) / (2 * PI) * 4) with (-3 / 10) by (field; lra).
    rewrite (round_half_even_up (-3 / 10) (-1)) by lra. cbn. lra.
Qed.

(** C2: with a seed set, the outcome of [render] (the image, or the
    exception) is the same whatever state the process was in, and an image
    it returns is width by height. *)
Theorem render_deterministic (p : Params) (s : Z) (w1 w2 : world) :
  seed p = Some s ->
  fst (render G p w1) = fst (render G p w2)
  /\ forall img, fst (render G p w1) = Ok img -> im_size img = (width p, height p).
Proof.
  intros Hs. split; [now apply render_seeded_result with s|].
  intros img H. destruct (render G p w1) as [r w'] eqn:E. cbn [fst] in H. subst r.
  now apply render_image_size in E.
Qed.

(** C3: every value of the field [generate_perlin_noise_2d] returns, with
    the default persistence 0.5, lies in [-1, 1]. *)
Theorem noise_values_in_unit_interval
    (shape res : Z * Z) (octs : Z) (sd : option Z) (st st' : rng_state)
    (field : ndarray) (i j : nat) :
  generate_perlin_noise_2d G shape res octs (1 / 2) sd st = (Ok field, st') ->
  (i < nrows field)%nat -> (j < ncols field)%nat ->
  -1 <= item field i j <= 1.
Proof.
  intros H Hi Hj.
  apply generate_perlin_noise_2d_bound in H as (_ & _ & Hb); [|lra].
  now apply Hb.
Qed.

(** Without a seed [render] continues the stream of the module-level
    generator of [random]. *)
Lemma render_unseeded_py_origin (p : Params) (w : world) :
  seed p = None -> origin (py_rng (snd (render G p w))) = origin (py_rng w).
Proof.
  intros Hs. rewrite render_py_origin. unfold seeded_world. now rewrite Hs.
Qed.


(** C5: a stroke that starts inside the bounds stays inside them, and has
    at most max_length + 1 positions. *)
Theorem stroke_within_bounds_and_budget
    (angles : ndarray) (bounds : Bounds) (params : Params) (px py : R)
    (st st' : rng_state) (positions : list (R * R)) :
  within bounds (px, py) ->
  trace_stroke G angles bounds params px py st = (Ok positions, st') ->
  Forall (within bounds) positions
  /\ (length positions <= Z.to_nat (py_int (max_length params)) + 1)%nat
  /\ (0 <= max_length params -> INR (length positions) <= max_length params + 1).
Proof.
  intros Hin H. apply trace_stroke_props in H as (ext & -> & Hl & Hf).
  split; [constructor; assumption|]. split; [cbn [length]; lia|].
  intros Hm. cbn [length]. rewrite S_INR.
  pose proof (py_int_nonneg_bounds _ Hm) as [Hlo _].
  pose proof (py_int_nonneg _ Hm) as Hz.
  apply le_INR in Hl.
  rewrite (INR_IZR_INZ (Z.to_nat _)), Z2Nat.id in Hl by exact Hz. lra.
Qed.


Lemma slice_of_repeat {A} (x : A) (m i : nat) :
  (S i < m)%nat -> firstn 2 (skipn i (repeat x m)) = [x; x].
Proof.
  revert m. induction i as [|i IH]; intros m H.
  - destruct m as [|[|m]]; [lia | lia | reflexivity].
  - destruct m as [|m]; [lia|]. cbn [repeat skipn]. apply IH. lia.
Qed.

(** A stroke with a zero step, seeded inside the bounds, uses its whole
    budget and is drawn: one line per step, each from the start point to
    itself. *)
Lemma zero_step_stroke angles bounds params img px py st :
  cell_size params <> 0 -> step_size params = 0 -> within bounds (px, py) ->
  let n := Z.to_nat (py_int (max_length params)) in
  (exists st', trace_stroke G angles bounds params px py st
               = (Ok (repeat (px, py) (S n)), st'))
  /\ exists img' st', draw_stroke G angles bounds params img (px, py) st = (Ok img', st')
       /\ exists new, im_lines img' = im_lines img ++ new /\ length new = n
            /\ Forall (fun ln => line_points ln = [(px, py); (px, py)]) new.
Proof.
  intros Hc Hs Hin n.
  assert (T : exists st', trace_stroke G angles bounds params px py st
                          = (Ok (repeat (px, py) (S n)), st')).
  { unfold trace_stroke, bind. rewrite get_field_angle_eval, (Reqb_false _ _ Hc).
    destruct (follow_zero_step G angles bounds params n Hc Hs px py
                (field_angle_at angles bounds params px py) [(px, py)] st Hin)
      as (st' & E).
    exists st'. exact E. }
  split; [exact T|]. destruct T as (st1 & T).
  unfold draw_stroke. unfold bind at 1. rewrite T.
  destruct n as [|n'].
  - cbn [repeat length Nat.ltb Nat.leb]. unfold ret.
    exists img, st1. split; [reflexivity|]. exists []. rewrite app_nil_r.
    split; [reflexivity|]. split; [reflexivity | constructor].
  - assert ((1 <? length (repeat (px, py) (S (S n'))))%nat = true) as ->
      by (rewrite repeat_length; reflexivity).
    destruct (stroke_base_returns G angles bounds params px py st1 Hc)
      as (base & st2 & Eb & Hb).
    unfold bind at 1. rewrite Eb.
    destruct (draw_segments_returns params (repeat (px, py) (S (S n'))) base
                (seq 0 (length (repeat (px, py) (S (S n'))) - 1)) (proj1 Hb) img st2)
      as (img' & Ed & _ & _ & new & Hn & Hl).
    exists img', st2. split; [exact Ed|]. exists new. split; [exact Hn|].
    split; [rewrite Hl, length_seq, repeat_length; lia|].
    destruct (draw_segments_points _ _ _ _ _ _ _ _ Ed) as (new' & Hn' & Hp).
    rewrite Hn in Hn'. apply app_inv_head in Hn'. subst new'.
    apply Forall_forall. intros ln Hin'.
    assert (Hm : In (line_points ln) (map line_points new)) by now apply in_map.
    rewrite Hp in Hm. apply in_map_iff in Hm as (i & <- & Hi).
    apply in_seq in Hi. rewrite repeat_length in Hi.
    apply slice_of_repeat. lia.
Qed.

(** C6 (as amended): with max_length = 0 the stroke is its start point alone
    and nothing is drawn; with step_size = 0 a stroke that starts inside the
    bounds records its start point once per step of the budget, and once
    more, and is drawn: the image gets one line per step of the budget, each
    from the start point to itself, so at least one when max_length >= 1. *)
Theorem zero_budget_stroke_not_drawn
    (angles : ndarray) (bounds : Bounds) (params : Params) (img : Image)
    (px py : R) (st : rng_state) :
  cell_size params <> 0 ->
  (max_length params = 0 ->
   trace_stroke G angles bounds params px py st = (Ok [(px, py)], st)
   /\ draw_stroke G angles bounds params img (px, py) st = (Ok img, st))
  /\ (step_size params = 0 -> within bounds (px, py) ->
      let n := Z.to_nat (py_int (max_length params)) in
      (exists st', trace_stroke G angles bounds params px py st
                   = (Ok (repeat (px, py) (S n)), st'))
      /\ exists img' st' new,
           draw_stroke G angles bounds params img (px, py) st = (Ok img', st')
           /\ im_lines img' = im_lines img ++ new
           /\ length new = n
           /\ Forall (fun ln => line_points ln = [(px, py); (px, py)]) new
           /\ (1 <= max_length params -> (1 <= length new)%nat)).
Proof.
  intros Hc. split.
  - intros Hm.
    assert (T : trace_stroke G angles bounds params px py st = (Ok [(px, py)], st)).
    { unfold trace_stroke, bind. rewrite get_field_angle_eval, (Reqb_false _ _ Hc).
      rewrite Hm, py_int_0. reflexivity. }
    split; [exact T|]. unfold draw_stroke, bind. rewrite T. reflexivity.
  - intros Hs Hin n.
    destruct (zero_step_stroke angles bounds params img px py st Hc Hs Hin)
      as (T & img' & st' & D & new & Hn & Hl & Hz).
    split; [exact T|]. exists img', st', new.
    split; [exact D|]. split; [exact Hn|]. split; [exact Hl|]. split; [exact Hz|].
    intros Hm. rewrite Hl.
    assert (H1 : (1 <= py_int (max_length params))%Z).
    { assert (H0 : 0 <= max_length params) by lra.
      pose proof (py_int_nonneg_bounds _ H0) as [_ Hu].
      assert (0 < py_int (max_length params))%Z; [|lia].
      apply lt_IZR. lra. }
    lia.
Qed.

(** C7 (as amended): span, base index and segment colour follow the stated
    formulas with truncation ([int]) in the place of [round]. *)
Theorem colorizer_index_formula (params : Params) (base t : R) (st : rng_state) :
  (2 <= lut_len params)%Z ->
  0 <= within_stroke params <= 1 -> 0 <= base <= 1 -> 0 <= t <= 1 ->
  let L := lut_len params in
  let span := stroke_span params in
  let base_idx := stroke_base_idx params base in
  span = clamp (py_int (IZR (L - 1) * within_stroke params)) 0 (L - 1)
  /\ base_idx = py_int (base * IZR (L - 1 - span))
  /\ exists c, segment_color params base_idx t st = (Ok c, st)
       /\ nth_error (lut params)
            (Z.to_nat (clamp (base_idx + py_int (t * IZR span)) 0 (L - 1))) = Some c.
Proof.
  intros HL Hw Hb Ht L span base_idx.
  assert (HL1 : (lut_len params <=? 1)%Z = false) by (apply Z.leb_gt; lia).
  assert (Hp : 0 <= IZR (L - 1) * within_stroke params).
  { apply Rmult_le_pos; [apply IZR_le; unfold L; lia | lra]. }
  assert (Hs0 : (0 <= py_int (IZR (L - 1) * within_stroke params))%Z)
    by now apply py_int_nonneg.
  assert (Hs1 : (py_int (IZR (L - 1) * within_stroke params) <= L - 1)%Z).
  { apply py_int_mono_le; [exact Hp|].
    assert (0 <= IZR (L - 1)) by (apply IZR_le; unfold L; lia). nra. }
  assert (Espan : span = py_int (IZR (L - 1) * within_stroke params)).
  { unfold span, stroke_span. rewrite HL1. fold L. lia. }
  split; [unfold clamp; lia|].
  assert (Ebase : base_idx = py_int (base * IZR (L - 1 - span))).
  { unfold base_idx, stroke_base_idx. rewrite HL1. fold L. fold span.
    cbv zeta. rewrite Z.max_r by lia. reflexivity. }
  split; [exact Ebase|].
  pose proof (segment_idx_range params base t ltac:(lia) (proj1 Hb) (proj1 Ht)) as Hr.
  fold base_idx in Hr.
  assert (Eidx : segment_idx params base_idx t
                 = clamp (base_idx + py_int (t * IZR span)) 0 (L - 1)).
  { unfold segment_idx in *. cbv zeta in *. fold span in Hr |- *. fold L in Hr |- *.
    destruct (_ >=? L)%Z eqn:E; unfold clamp.
    - rewrite Z.geb_leb in E. apply Z.leb_le in E. lia.
    - rewrite Z.geb_leb in E. apply Z.leb_gt in E. lia. }
  unfold segment_color.
  assert ((lut_len params >? 0)%Z = true) as -> by (apply Z.gtb_lt; lia).
  destruct (py_list_get_in_range (lut params) (segment_idx params base_idx t) st Hr)
    as (c & Hc & Hn).
  exists c. rewrite <- Eidx. auto.
Qed.

(** C8 (as amended): random seeding yields int(area * density) start points,
    truncated toward zero (none when the product is negative). *)
Theorem random_seeding_count (params : Params) (bounds : Bounds) (st : rng_state) :
  seeding params = "random"%string ->
  exists points st', seed_points G params bounds st = (Ok points, st')
    /\ length points
       = Z.to_nat (py_int ((x1 bounds - x0 bounds) * (y1 bounds - y0 bounds)
                           * density params)).
Proof.
  intros Hs. unfold seed_points. cbv zeta. rewrite Hs. cbn [String.eqb Ascii.eqb Bool.eqb].
  match goal with |- context [random_points G bounds ?n [] st] =>
    destruct (random_points_returns G bounds n [] st) as (new & st' & E & Hl) end.
  exists new, st'. split; [exact E | exact Hl].
Qed.

(** C9 (as amended): when twice the margin exceeds the smaller canvas
    dimension by a cell or more, [render] raises ValueError (numpy refuses the
    negative grid dimension) and has allocated nothing. *)
Theorem oversized_margin_aborts (p : Params) (w : world) :
  0 < cell_size p ->
  cell_size p <= 2 * grid_margin p - IZR (Z.min (width p) (height p)) ->
  fst (render G p w) = Raise ValueError
  /\ heap (snd (render G p w)) = heap w.
Proof.
  intros Hc Hm. rewrite render_eval. rewrite Reqb_false by lra.
  assert (Q : forall a, a <= - cell_size p -> (py_int (a / cell_size p) <= -1)%Z).
  { intros a Ha. apply py_int_le_neg.
    apply Rmult_le_reg_r with (cell_size p); [exact Hc|].
    unfold Rdiv. rewrite Rmult_assoc, Rinv_l by lra. lra. }
  assert (N : ((grid_ny p <? 0) || (grid_nx p <? 0))%Z = true).
  { apply orb_true_iff. unfold grid_ny, grid_nx.
    destruct (Z.min_spec (width p) (height p)) as [[_ E]|[_ E]]; rewrite E in Hm.
    - right. apply Z.ltb_lt.
      specialize (Q (IZR (width p) - 2 * grid_margin p) ltac:(lra)). lia.
    - left. apply Z.ltb_lt.
      specialize (Q (IZR (height p) - 2 * grid_margin p) ltac:(lra)). lia. }
  rewrite N. cbn [fst snd]. split; [reflexivity|].
  unfold seeded_world. destruct (seed p); reflexivity.
Qed.

(** C10: with a non-empty LUT every segment index lies in [0, L-1],
    whatever palette_within_stroke is, and the colour lookup succeeds. *)
Theorem lut_index_in_range (params : Params) (base : R) (n i : nat) (st : rng_state) :
  (1 <= lut_len params)%Z -> (i < n - 1)%nat ->
  let base_idx := stroke_base_idx params (Rmax 0 (Rmin 1 base)) in
  let t := INR i / INR (n - 1) in
  (0 <= segment_idx params base_idx t <= lut_len params - 1)%Z
  /\ exists c, segment_color params base_idx t st = (Ok c, st).
Proof.
  intros HL Hi base_idx t.
  assert (Hb : 0 <= Rmax 0 (Rmin 1 base)) by apply Rmax_l.
  pose proof (progress_range i n Hi) as [Ht _]. fold t in Ht.
  pose proof (segment_idx_range params _ t HL Hb Ht) as Hr. fold base_idx in Hr.
  split; [lia|]. now apply segment_color_returns.
Qed.

End Claims.

(** ** Witnesses and counterexamples *)

Lemma sample_lut_len c m q s l st d : lut_len (sample_config c m q s l st d) = 256%Z.
Proof.
  unfold lut_len, lut. cbn [color_lut get_or sample_config].
  unfold sample_lut. rewrite length_map, length_seq. reflexivity.
Qed.

Lemma full_bounds_center : within full_bounds (50, 50).
Proof. unfold within, full_bounds. cbn [fst snd x0 x1 y0 y1]. lra. Qed.

Lemma plain_config_renders w :
  exists img w', render sample_generators plain_config w = (Ok img, w').
Proof.
  destruct (sample_grid_dims 20 0 None None 2 3 (27 / 100000) 5)
    as [Hny Hnx]; [lra | lra |]. fold plain_config in Hny, Hnx.
  destruct (render_returns sample_generators plain_config w)
    as (img & w' & E & _).
  - cbn; lra.
  - rewrite Hny. lia.
  - rewrite Hnx. lia.
  - cbn. lia.
  - cbn. lia.
  - apply sample_seeds_accepted.
  - reflexivity.
  - eauto.
Qed.

Lemma render_deterministic_witness :
  seed plain_config = Some 1%Z
  /\ fst (render sample_generators plain_config boot_world)
     = fst (render sample_generators plain_config busy_world)
  /\ exists img, fst (render sample_generators plain_config boot_world) = Ok img
                 /\ im_size img = (100, 100)%Z.
Proof.
  assert (Hs : seed plain_config = Some 1%Z) by reflexivity.
  destruct (render_deterministic sample_generators plain_config 1 boot_world busy_world Hs)
    as [Heq Hsize].
  split; [exact Hs|]. split; [exact Heq|].
  destruct (plain_config_renders boot_world) as (img & w' & E).
  exists img. rewrite E. split; [reflexivity|].
  apply Hsize. rewrite E. reflexivity.
Defined.

Lemma noise_values_witness :
  exists field st',
    generate_perlin_noise_2d sample_generators (2, 3)%Z (4, 4)%Z 2 (1 / 2)
      (Some 7%Z) fresh_rng = (Ok field, st')
    /\ -1 <= item field 1 2 <= 1.
Proof.
  destruct (generate_perlin_noise_2d_returns sample_generators (2, 3)%Z (4, 4)%Z 2
              (1 / 2) (Some 7%Z) fresh_rng) as (field & st' & E);
    cbn [fst snd seeds_accepted]; try lia.
  exists field, st'. split; [exact E|].
  assert (Hp : 0 <= 1 / 2) by lra.
  destruct (generate_perlin_noise_2d_bound sample_generators _ _ _ _ _ _ _ _ Hp E)
    as (Hr & Hc & _).
  apply (noise_values_in_unit_interval sample_generators _ _ _ _ _ _ _ 1 2 E).
  - rewrite Hr. cbn. lia.
  - rewrite Hc. cbn. lia.
Defined.



Lemma stroke_within_bounds_witness :
  within full_bounds (50, 50)
  /\ exists positions st',
       trace_stroke sample_generators (grid_zeros plain_config) full_bounds
         plain_config 50 50 fresh_rng = (Ok positions, st')
       /\ Forall (within full_bounds) positions
       /\ (length positions <= Z.to_nat (py_int (max_length plain_config)) + 1)%nat.
Proof.
  split; [exact full_bounds_center|].
  destruct (trace_stroke_returns sample_generators (grid_zeros plain_config) full_bounds
              plain_config 50 50 fresh_rng) as (ps & st' & E).
  { cbn. lra. }
  exists ps, st'. split; [exact E|].
  destruct (stroke_within_bounds_and_budget sample_generators _ _ _ _ _ _ _ _
              full_bounds_center E) as (Hf & Hl & _).
  split; assumption.
Defined.

(** C6 (counterexample): step_size = 0, max_length = 2, start point
    (50, 50): the stroke has three positions and two segments are drawn. *)
Lemma zero_step_stroke_is_drawn :
  step_size zero_step_config = 0
  /\ exists positions st1 img' st2,
       trace_stroke sample_generators (grid_zeros zero_step_config) full_bounds
         zero_step_config 50 50 fresh_rng = (Ok positions, st1)
       /\ length positions = 3%nat
       /\ draw_stroke sample_generators (grid_zeros zero_step_config) full_bounds
            zero_step_config blank_image (50, 50) fresh_rng = (Ok img', st2)
       /\ length (im_lines img') = 2%nat.
Proof.
  split; [reflexivity|].
  destruct (zero_step_stroke sample_generators (grid_zeros zero_step_config) full_bounds
              zero_step_config blank_image 50 50 fresh_rng)
    as ((st1 & T) & img' & st2 & D & new & Hn & Hl & _);
    [cbn; lra | reflexivity | exact full_bounds_center |].
  assert (B : Z.to_nat (py_int (max_length zero_step_config)) = 2%nat).
  { cbn [max_length zero_step_config sample_config]. now rewrite (py_int_IZR 2). }
  rewrite B in *.
  exists (repeat (50, 50) 3), st1, img', st2.
  split; [exact T|]. split; [reflexivity|]. split; [exact D|].
  rewrite Hn. cbn [im_lines blank_image app]. exact Hl.
Qed.

Lemma zero_budget_witness :
  cell_size zero_length_config <> 0
  /\ max_length zero_length_config = 0
  /\ trace_stroke sample_generators (grid_zeros zero_length_config) full_bounds
       zero_length_config 50 50 fresh_rng = (Ok [(50, 50)], fresh_rng)
  /\ draw_stroke sample_generators (grid_zeros zero_length_config) full_bounds
       zero_length_config blank_image (50, 50) fresh_rng = (Ok blank_image, fresh_rng)
  /\ step_size zero_step_config = 0
  /\ exists img' st' new,
       draw_stroke sample_generators (grid_zeros zero_step_config) full_bounds
         zero_step_config blank_image (50, 50) fresh_rng = (Ok img', st')
       /\ im_lines img' = new
       /\ Forall (fun ln => line_points ln = [(50, 50); (50, 50)]) new
       /\ (1 <= length new)%nat.
Proof.
  assert (Hc : cell_size zero_length_config <> 0) by (cbn; lra).
  split; [exact Hc|]. split; [reflexivity|].
  destruct (proj1 (zero_budget_stroke_not_drawn sample_generators
                     (grid_zeros zero_length_config) full_bounds zero_length_config
                     blank_image 50 50 fresh_rng Hc) eq_refl) as [T D].
  split; [exact T|]. split; [exact D|]. split; [reflexivity|].
  assert (Hc' : cell_size zero_step_config <> 0) by (cbn; lra).
  destruct (proj2 (zero_budget_stroke_not_drawn sample_generators
                     (grid_zeros zero_step_config) full_bounds zero_step_config
                     blank_image 50 50 fresh_rng Hc') eq_refl full_bounds_center)
    as (_ & img' & st' & new & E & Hn & _ & Hz & Hd).
  exists img', st', new. split; [exact E|]. split; [exact Hn|]. split; [exact Hz|].
  apply Hd. cbn. lra.
Defined.

(** C7 (counterexample): L = 256 and palette_within_stroke = 0.5: the code
    computes span 127 where [round] gives 128, and for base 1 the first
    segment takes LUT entry 128 where the stated formulas give entry 127. *)
Lemma span_truncates_not_rounds :
  stroke_span plain_config = 127%Z
  /\ spec_span (lut_len plain_config) (within_stroke plain_config) = 128%Z
  /\ segment_idx plain_config (stroke_base_idx plain_config 1) 0 = 128%Z
  /\ spec_color_index (lut_len plain_config) (within_stroke plain_config) 1 0 = 127%Z.
Proof.
  assert (Hw : within_stroke plain_config = 1 / 2) by reflexivity.
  assert (HL : lut_len plain_config = 256%Z) by apply sample_lut_len.
  assert (Hspan : stroke_span plain_config = 127%Z).
  { unfold stroke_span. rewrite HL, Hw. cbn [Z.leb Z.compare].
    change (256 - 1)%Z with 255%Z.
    rewrite (py_int_unique _ 127) by lra. reflexivity. }
  assert (Hspec : spec_span (lut_len plain_config) (within_stroke plain_config) = 128%Z).
  { unfold spec_span. rewrite HL, Hw. change (256 - 1)%Z with 255%Z.
    replace (255 * (1 / 2)) with (IZR 127 + 1 / 2) by lra.
    rewrite round_half_even_tie_odd by reflexivity. reflexivity. }
  split; [exact Hspan|]. split; [exact Hspec|]. split.
  - unfold segment_idx, stroke_base_idx. rewrite Hspan, HL. cbn [Z.leb Z.compare].
    change (Z.max 0 (256 - 1 - 127)) with 128%Z.
    rewrite Rmult_1_l, Rmult_0_l, py_int_IZR, py_int_0. reflexivity.
  - unfold spec_color_index, spec_base_index. rewrite Hspec, HL.
    change (256 - 1 - 128)%Z with 127%Z.
    rewrite Rmult_1_l, Rmult_0_l.
    rewrite (round_half_even_down (IZR 127) 127) by lra.
    rewrite (round_half_even_down 0 0) by lra. reflexivity.
Qed.

Lemma colorizer_index_witness :
  (2 <= lut_len plain_config)%Z
  /\ 0 <= within_stroke plain_config <= 1
  /\ stroke_span plain_config
     = clamp (py_int (IZR (lut_len plain_config - 1) * within_stroke plain_config))
             0 (lut_len plain_config - 1)
  /\ stroke_base_idx plain_config (1 / 4)
     = py_int (1 / 4 * IZR (lut_len plain_config - 1 - stroke_span plain_config)).
Proof.
  assert (HL : (2 <= lut_len plain_config)%Z)
    by (unfold plain_config; rewrite sample_lut_len; lia).
  assert (Hw : 0 <= within_stroke plain_config <= 1) by (cbn; lra).
  split; [exact HL|]. split; [exact Hw|].
  destruct (colorizer_index_formula plain_config (1 / 4) (1 / 2) fresh_rng HL Hw
              ltac:(lra) ltac:(lra)) as (Hs & Hb & _).
  split; assumption.
Defined.

(** C8 (counterexample): area 10000 and density 0.00027 give 2 start
    points, while round(2.7) is 3. *)
Lemma random_seeding_truncates :
  exists points st',
    seed_points sample_generators plain_config full_bounds fresh_rng = (Ok points, st')
    /\ length points = 2%nat
    /\ round_half_even ((x1 full_bounds - x0 full_bounds)
                        * (y1 full_bounds - y0 full_bounds)
                        * density plain_config) = 3%Z.
Proof.
  assert (A : (x1 full_bounds - x0 full_bounds) * (y1 full_bounds - y0 full_bounds)
               * density plain_config = 27 / 10).
  { cbn [x0 x1 y0 y1 full_bounds density plain_config sample_config]. lra. }
  rewrite A. unfold seed_points. cbv zeta. rewrite A.
  change (String.eqb (seeding plain_config) "random") with true. cbv iota.
  rewrite (py_int_unique (27 / 10) 2) by lra.
  destruct (random_points_returns sample_generators full_bounds (Z.to_nat 2) []
              fresh_rng) as (pts & st' & E & Hl).
  exists pts, st'. cbn [app] in E. split; [exact E|]. split; [exact Hl|].
  rewrite (round_half_even_up _ 2) by lra. reflexivity.
Qed.

Lemma random_seeding_witness :
  seeding plain_config = "random"%string
  /\ exists points st',
       seed_points sample_generators plain_config full_bounds fresh_rng
       = (Ok points, st')
       /\ length points
          = Z.to_nat (py_int ((x1 full_bounds - x0 full_bounds)
                              * (y1 full_bounds - y0 full_bounds)
                              * density plain_config)).
Proof.
  split; [reflexivity|].
  apply (random_seeding_count sample_generators plain_config full_bounds fresh_rng).
  reflexivity.
Defined.

(** C9 (counterexample): margin_factor = 0.5 on a 100 by 100 canvas: the
    margin is half of the canvas, and [render] returns an image. *)
Lemma half_margin_still_renders :
  2 * grid_margin half_margin_config
  = IZR (Z.min (width half_margin_config) (height half_margin_config))
  /\ exists img w', render sample_generators half_margin_config boot_world = (Ok img, w')
       /\ im_size img = (100, 100)%Z.
Proof.
  split.
  { unfold grid_margin. cbn [width height margin_factor half_margin_config sample_config].
    change (Z.min 100 100) with 100%Z. lra. }
  destruct (sample_grid_dims 20 (1 / 2) None None 2 3 (27 / 100000) 0)
    as [Hny Hnx]; [lra | lra |]. fold half_margin_config in Hny, Hnx.
  destruct (render_returns sample_generators half_margin_config boot_world)
    as (img & w' & E & Hs & _).
  - cbn; lra.
  - rewrite Hny. lia.
  - rewrite Hnx. lia.
  - cbn. lia.
  - cbn. lia.
  - apply sample_seeds_accepted.
  - reflexivity.
  - exists img, w'. split; [exact E | exact Hs].
Qed.

Lemma oversized_margin_witness :
  0 < cell_size wide_margin_config
  /\ cell_size wide_margin_config
     <= 2 * grid_margin wide_margin_config
        - IZR (Z.min (width wide_margin_config) (height wide_margin_config))
  /\ fst (render sample_generators wide_margin_config boot_world) = Raise ValueError.
Proof.
  assert (Hc : 0 < cell_size wide_margin_config) by (cbn; lra).
  assert (Hm : cell_size wide_margin_config
               <= 2 * grid_margin wide_margin_config
                  - IZR (Z.min (width wide_margin_config) (height wide_margin_config))).
  { unfold grid_margin. cbn [width height cell_size margin_factor wide_margin_config sample_config].
    change (Z.min 100 100) with 100%Z. lra. }
  split; [exact Hc|]. split; [exact Hm|].
  exact (proj1 (oversized_margin_aborts sample_generators wide_margin_config
                  boot_world Hc Hm)).
Defined.

Lemma lut_index_witness :
  (1 <= lut_len plain_config)%Z
  /\ (0 <= segment_idx plain_config
             (stroke_base_idx plain_config (Rmax 0 (Rmin 1 7))) (INR 3 / INR (5 - 1))
      <= lut_len plain_config - 1)%Z.
Proof.
  assert (HL : (1 <= lut_len plain_config)%Z)
    by (unfold plain_config; rewrite sample_lut_len; lia).
  split; [exact HL|].
  exact (proj1 (lut_index_in_range plain_config 7 5 3 fresh_rng HL ltac:(lia))).
Defined.

(** * Further properties of the code *)

(** ** Perlin noise: lattice points, errors and draws *)

Lemma linspace_item_scaled stop num k (a f : Z) :
  linspace_item stop num k = IZR a ->
  linspace_item (stop * f) num k = IZR (a * f).
Proof.
  unfold linspace_item. intros H. rewrite !mult_IZR, <- H.
  unfold Rdiv. ring.
Qed.

Section NoiseLattice.
Variable G : Generators.

Lemma single_octave_lattice_point h w res_y res_x sd st a st' i j (ky kx : Z) :
  single_octave G h w res_y res_x sd st = (Ok a, st') ->
  linspace_item res_y h i = IZR ky -> linspace_item res_x w j = IZR kx ->
  item a i j = 0.
Proof.
  unfold single_octave. intros H Hy Hx.
  apply bind_Ok in H as (rnd & st1 & _ & H).
  destruct (lattice_lookups_ok h w res_y res_x); [|discriminate].
  injection H as <- _. cbn [item fst snd].
  rewrite Hy, Hx, !py_int_IZR, !Rminus_diag, interpolant_0. ring.
Qed.

Lemma sum_octaves_lattice_point h w res pers sd n i j : forall o total amp max_amp st r st' ky kx,
  linspace_item (fst res * 2 ^ o) h i = IZR ky ->
  linspace_item (snd res * 2 ^ o) w j = IZR kx ->
  (0 <= o)%Z ->
  item total i j = 0 ->
  sum_octaves G h w res pers sd n o total amp max_amp st = (Ok r, st') ->
  item (fst r) i j = 0.
Proof.
  induction n as [|n IH]; intros o total amp max_amp st r st' ky kx Hy Hx Ho H0 H.
  - cbn in H. injection H as <- _. exact H0.
  - cbn [sum_octaves] in H. apply bind_Ok in H as (oct & st1 & E & H).
    cbn [fst snd] in E.
    pose proof (single_octave_lattice_point _ _ _ _ _ _ _ _ i j ky kx E Hy Hx) as Ez.
    refine (IH (o + 1)%Z _ _ _ _ _ _ (ky * 2)%Z (kx * 2)%Z _ _ _ _ H).
    + rewrite Z.pow_add_r, Z.pow_1_r, Z.mul_assoc by lia.
      now apply linspace_item_scaled.
    + rewrite Z.pow_add_r, Z.pow_1_r, Z.mul_assoc by lia.
      now apply linspace_item_scaled.
    + lia.
    + cbn [arr_map2 arr_map item]. rewrite H0, Ez. ring.
Qed.

(** Over the reals the noise vanishes wherever the pixel sits on a point of
    the base lattice: when [w] divides [j * res_x] and [h] divides
    [i * res_y].  (The doubles of [np.linspace] are sure to meet the lattice
    point only when the step is a whole number or the index is 0: the
    theorem below.) *)
Lemma noise_zero_at_lattice_point
    (shape res : Z * Z) (octs : Z) (pers : R) (sd : option Z) (st st' : rng_state)
    (field : ndarray) (i j : nat) :
  generate_perlin_noise_2d G shape res octs pers sd st = (Ok field, st') ->
  (i < nrows field)%nat -> (j < ncols field)%nat ->
  ((Z.of_nat i * fst res) mod Z.of_nat (nrows field) = 0)%Z ->
  ((Z.of_nat j * snd res) mod Z.of_nat (ncols field) = 0)%Z ->
  item field i j = 0.
Proof.
  intros H Hi Hj Dy Dx.
  assert (Hshape : nrows field = Z.to_nat (fst shape) /\ ncols field = Z.to_nat (snd shape)).
  { unfold generate_perlin_noise_2d in H.
    apply bind_Ok in H as (u & st0 & _ & H).
    apply bind_Ok in H as (zeros & st1 & Hz & H).
    unfold np_zeros_value in Hz. destruct (_ || _)%bool; [discriminate|].
    injection Hz as <- <-.
    apply bind_Ok in H as ([total max_amp] & st2 & Hsum & H).
    cbn [nrows ncols arr_const] in Hsum.
    assert (K : forall n o t a m s r s', sum_octaves G (Z.to_nat (fst shape))
                  (Z.to_nat (snd shape)) res pers sd n o t a m s = (Ok r, s') ->
                nrows (fst r) = nrows t /\ ncols (fst r) = ncols t).
    { induction n as [|n IH]; intros o t a m s r s' E.
      - cbn in E. injection E as <- _. auto.
      - cbn [sum_octaves] in E. apply bind_Ok in E as (oct & s1 & _ & E).
        apply IH in E. cbn [arr_map2 nrows ncols] in E. exact E. }
    apply K in Hsum. cbn [fst nrows ncols arr_const] in Hsum.
    destruct (Reqb max_amp 0); injection H as <- _; cbn [arr_map nrows ncols]; exact Hsum. }
  destruct Hshape as [Hr Hc].
  assert (L : forall (k n : nat) (r : Z), (k < n)%nat ->
            ((Z.of_nat k * r) mod Z.of_nat n = 0)%Z ->
            linspace_item (r * 2 ^ 0) n k = IZR (Z.of_nat k * r / Z.of_nat n)).
  { intros k n r Hk Hm. unfold linspace_item.
    apply Z.div_exact in Hm; [|lia].
    assert (Hn : INR n <> 0) by (apply not_0_INR; lia).
    rewrite Z.pow_0_r, Z.mul_1_r.
    apply Rmult_eq_reg_r with (INR n); [|exact Hn].
    replace (INR k * (IZR r / INR n) * INR n) with (INR k * IZR r) by (field; exact Hn).
    rewrite !INR_IZR_INZ, <- !mult_IZR. f_equal. lia. }
  unfold generate_perlin_noise_2d in H.
  apply bind_Ok in H as (u & st0 & _ & H).
  apply bind_Ok in H as (zeros & st1 & Hz & H).
  unfold np_zeros_value in Hz. destruct (_ || _)%bool; [discriminate|].
  injection Hz as <- <-.
  apply bind_Ok in H as ([total max_amp] & st2 & Hsum & H).
  cbn [nrows ncols arr_const] in Hsum. rewrite <- Hr, <- Hc in Hsum.
  eapply sum_octaves_lattice_point with (i := i) (j := j) in Hsum;
    [ | apply L; eassumption | apply L; eassumption | lia | reflexivity ].
  cbn [fst] in Hsum.
  destruct (Reqb max_amp 0); injection H as <- _; [exact Hsum|].
  cbn [arr_map item]. rewrite Hsum. unfold Rdiv. ring.
Qed.

(** X1: the noise is 0 at pixel (i, j) whenever, on each axis, the index is
    0 or the size of the field divides the base resolution (the step of
    [np.linspace] is then a whole number): at pixel (0, 0) always, in row 0
    when [w] divides [res_x], and everywhere when the shape divides the
    resolution. *)
Theorem noise_vanishes_on_lattice
    (shape res : Z * Z) (octs : Z) (pers : R) (sd : option Z) (st st' : rng_state)
    (field : ndarray) (i j : nat) :
  generate_perlin_noise_2d G shape res octs pers sd st = (Ok field, st') ->
  (i < nrows field)%nat -> (j < ncols field)%nat ->
  (i = 0%nat \/ (fst res mod Z.of_nat (nrows field) = 0)%Z) ->
  (j = 0%nat \/ (snd res mod Z.of_nat (ncols field) = 0)%Z) ->
  item field i j = 0.
Proof.
  intros H Hi Hj Dy Dx.
  assert (L : forall (k n : nat) (r : Z), (k < n)%nat ->
            k = 0%nat \/ (r mod Z.of_nat n = 0)%Z ->
            ((Z.of_nat k * r) mod Z.of_nat n = 0)%Z).
  { intros k n r Hk [-> | Hr].
    - cbn [Z.of_nat]. rewrite Z.mul_0_l. apply Zmod_0_l.
    - rewrite Z.mul_mod, Hr, Z.mul_0_r by lia. apply Zmod_0_l. }
  apply (noise_zero_at_lattice_point shape res octs pers sd st st' field i j H Hi Hj);
    apply L; assumption.
Qed.

End NoiseLattice.

Lemma axis_lookups_fail res num :
  (res <= 0)%Z -> (0 <= res + 1)%Z -> (0 < num)%nat -> axis_lookups_ok res num = false.
Proof.
  intros Hr Hr' Hn. unfold axis_lookups_ok.
  destruct num as [|n]; [lia|]. cbn [seq forallb].
  assert (linspace_item res (S n) 0 = IZR 0) as ->
    by (unfold linspace_item; cbn [INR]; ring).
  rewrite py_int_IZR. cbv zeta.
  assert (idx_ok (res + 1) 0 && idx_ok (res + 1) (0 + 1) = false) as ->; [|reflexivity].
  unfold idx_ok. apply andb_false_iff.
  destruct (Z.eq_dec res 0) as [->|].
  - right. reflexivity.
  - left. apply andb_false_iff. right. apply Z.ltb_ge. lia.
Qed.

Section PerlinErrors.
Variable G : Generators.

Lemma single_octave_rejects h w res_y res_x sd st :
  (0 < h)%nat -> (0 < w)%nat -> (res_y <= 0 \/ res_x <= 0)%Z ->
  exists e, fst (single_octave G h w res_y res_x sd st) = Raise e.
Proof.
  intros Hh Hw Hres. unfold single_octave, bind.
  assert (L : (0 <= res_y + 1)%Z -> (0 <= res_x + 1)%Z ->
              lattice_lookups_ok h w res_y res_x = false).
  { intros Hy Hx. unfold lattice_lookups_ok.
    destruct h; [lia|]; destruct w; [lia|]. cbn [Nat.eqb orb].
    apply andb_false_iff.
    destruct Hres; [left | right]; apply axis_lookups_fail; lia. }
  assert (R : forall s, (exists e, fst (np_rand G (res_y + 1) (res_x + 1) s) = Raise e)
                        \/ ((0 <= res_y + 1)%Z /\ (0 <= res_x + 1)%Z
                            /\ exists t s', np_rand G (res_y + 1) (res_x + 1) s = (Ok t, s'))).
  { intros s. unfold np_rand.
    destruct ((res_y + 1 <? 0) || (res_x + 1 <? 0))%Z eqn:E.
    - left. cbn. eauto.
    - right. apply orb_false_iff in E as [E1 E2].
      apply Z.ltb_ge in E1, E2. eauto. }
  destruct sd as [s|].
  - unfold with_RandomState. destruct (np_seed_ok s); [|cbn; eauto].
    destruct (R (mk_rng (FromSeed s) 0)) as [(e & E) | (Hy & Hx & t & s' & E)].
    + rewrite E. cbn. eauto.
    + rewrite E. cbn [fst]. rewrite (L Hy Hx). cbn. eauto.
  - destruct (R st) as [(e & E) | (Hy & Hx & t & s' & E)].
    + destruct (np_rand G _ _ st) as [[t|e'] s']; cbn [fst] in E; [discriminate|].
      cbn. eauto.
    + rewrite E. rewrite (L Hy Hx). cbn. eauto.
Qed.

(** X2: a call for a non-empty field with a non-positive base resolution
    never returns a field: numpy refuses the table of gradients (ValueError)
    or a lookup in it (IndexError). *)
Theorem noise_rejects_nonpositive_resolution
    (shape res : Z * Z) (octs : Z) (pers : R) (sd : option Z) (st : rng_state) :
  (1 <= fst shape)%Z -> (1 <= snd shape)%Z -> (1 <= octs)%Z ->
  (fst res <= 0 \/ snd res <= 0)%Z ->
  exists e, fst (generate_perlin_noise_2d G shape res octs pers sd st) = Raise e.
Proof.
  intros Hh Hw Ho Hres. unfold generate_perlin_noise_2d.
  unfold bind at 1.
  destruct ((match sd with Some s => np_random_seed s | None => ret tt end) st)
    as [[u|e] st0]; [|cbn; eauto].
  unfold bind at 1. unfold np_zeros_value.
  assert (((fst shape <? 0) || (snd shape <? 0))%Z = false) as ->
    by (apply orb_false_iff; split; apply Z.ltb_ge; lia).
  unfold ret at 1. cbn [nrows ncols arr_const].
  destruct (Z.to_nat octs) as [|n] eqn:En; [lia|].
  unfold bind at 1. cbn [sum_octaves]. unfold bind at 1.
  destruct (single_octave_rejects (Z.to_nat (fst shape)) (Z.to_nat (snd shape))
              (fst (fst res * 2 ^ 0, snd res * 2 ^ 0)%Z)
              (snd (fst res * 2 ^ 0, snd res * 2 ^ 0)%Z)
              (match sd with None => None | Some s => Some (s + 0)%Z end) st0)
    as (e & E); [lia | lia | cbn [fst snd]; lia |].
  destruct (single_octave G _ _ _ _ _ st0) as [[a|e'] s1]; cbn [fst] in E;
    [discriminate|]. cbn. eauto.
Qed.

Lemma single_octave_unseeded_state h w res_y res_x st a st' :
  single_octave G h w res_y res_x None st = (Ok a, st') ->
  origin st' = origin st
  /\ drawn st' = (drawn st + Z.to_nat ((res_y + 1) * (res_x + 1)))%nat.
Proof.
  unfold single_octave. intros H. apply bind_Ok in H as (rnd & st1 & E & H).
  unfold np_rand in E. destruct (_ || _)%bool; [discriminate|].
  injection E as _ <-.
  destruct (lattice_lookups_ok h w res_y res_x); [|discriminate].
  injection H as _ <-. cbn. auto.
Qed.

Lemma sum_octaves_unseeded_state h w res pers n : forall o total amp max_amp st r st',
  sum_octaves G h w res pers None n o total amp max_amp st = (Ok r, st') ->
  origin st' = origin st
  /\ drawn st' = (drawn st + octave_draws res n o)%nat.
Proof.
  induction n as [|n IH]; intros o total amp max_amp st r st' H.
  - cbn in H. injection H as _ <-. cbn. split; [reflexivity | lia].
  - cbn [sum_octaves] in H. apply bind_Ok in H as (oct & st1 & E & H).
    apply single_octave_unseeded_state in E as [E1 E2].
    apply IH in H as [H1 H2]. cbn [fst snd octave_draws] in *.
    split; [congruence | lia].
Qed.

(** X3: without a seed the call draws from the module-level generator of
    numpy without re-initialising it, one double per lattice point of every
    octave. *)
Theorem unseeded_noise_draw_count
    (shape res : Z * Z) (octs : Z) (pers : R) (st st' : rng_state) (field : ndarray) :
  generate_perlin_noise_2d G shape res octs pers None st = (Ok field, st') ->
  origin st' = origin st
  /\ drawn st' = (drawn st + octave_draws res (Z.to_nat octs) 0)%nat.
Proof.
  unfold generate_perlin_noise_2d. intros H.
  apply bind_Ok in H as (u & st0 & H0 & H). injection H0 as _ <-.
  apply bind_Ok in H as (zeros & st1 & Hz & H).
  unfold np_zeros_value in Hz. destruct (_ || _)%bool; [discriminate|].
  injection Hz as <- <-.
  apply bind_Ok in H as ([total max_amp] & st2 & Hsum & H).
  apply sum_octaves_unseeded_state in Hsum.
  destruct (Reqb max_amp 0); injection H as _ <-; exact Hsum.
Qed.

End PerlinErrors.

(** ** What [fill_angles] returns, and what [render] does with it *)

Lemma round_half_even_error x : Rabs (IZR (round_half_even x) - x) <= 1 / 2.
Proof.
  unfold round_half_even. cbv zeta.
  pose proof (Int_part_bounds x) as [Hl Hu].
  destruct (Rlt_le_dec (x - IZR (Int_part x)) (1 / 2)).
  - apply Rabs_le. lra.
  - assert (E : IZR (Int_part x + 1) = IZR (Int_part x) + 1) by apply plus_IZR.
    destruct (Rlt_le_dec (1 / 2) (x - IZR (Int_part x))).
    + rewrite E. apply Rabs_le. lra.
    + destruct (Z.even (Int_part x)); [|rewrite E]; apply Rabs_le; lra.
Qed.

Lemma nth_pair_kept {A} (h : list A) x y d n :
  (n < length h)%nat -> nth n (h ++ [x; y]) d = nth n h d.
Proof. intros H. now apply app_nth1. Qed.

Lemma nth_pair_second {A} (h : list A) x y d :
  nth (S (length h)) (h ++ [x; y]) d = y.
Proof.
  rewrite app_nth2 by lia.
  replace (S (length h) - length h)%nat with 1%nat by lia. reflexivity.
Qed.

Section FillAngles.
Variable G : Generators.

(** X4: what [fill_angles] returns when quantize_steps is positive is a new
    array, every item of which is the multiple of 2*pi/N nearest to the item
    left in the array it was given. *)
Theorem fill_angles_returns_snapped
    (l : loc) (b : Bounds) (p : Params) (w w' : world) (q : R) (l' : loc) :
  (l < length (heap w))%nat ->
  quantize_steps p = Some q -> 0 < q ->
  fill_angles G l b p w = (Ok l', w') ->
  l' <> l
  /\ forall i j,
       let kept := item (nth l (heap w') (arr_const 0 0 0)) i j in
       let snapped := item (nth l' (heap w') (arr_const 0 0 0)) i j in
       (exists k : Z, snapped = IZR k * 2 * PI / q)
       /\ Rabs (snapped - kept) <= PI / q.
Proof.
  intros Hl Hq Hpos. rewrite fill_angles_eval by exact Hl. cbv zeta.
  destruct (noise_call G p _ (np_rng w)) as [[noise|e] st]; [|discriminate].
  rewrite Hq. cbn [get_or]. rewrite Rltb_true by exact Hpos.
  intros H. injection H as <- <-. split; [lia|].
  intros i j. cbv zeta. cbn [heap].
  set (U := unquantized p (nth l (heap w) (arr_const 0 0 0)) noise).
  assert (Hlen : length (list_set (heap w) l U) = length (heap w))
    by apply list_set_length.
  rewrite <- Hlen. rewrite nth_pair_second, nth_pair_kept by (rewrite Hlen; exact Hl).
  rewrite nth_list_set_same by exact Hl.
  cbn [arr_map item]. rewrite Hq. cbn [get_or].
  pose proof PI_RGT_0 as Hpi.
  split; [eexists; reflexivity|].
  pose proof (round_half_even_error (item U i j / (2 * PI) * q)) as Herr.
  set (k := IZR (round_half_even (item U i j / (2 * PI) * q))) in *.
  replace (k * 2 * PI / q - item U i j)
    with ((k - item U i j / (2 * PI) * q) * (2 * PI / q)) by (field; lra).
  rewrite Rabs_mult.
  assert (Hs : 0 < 2 * PI / q) by (apply Rdiv_lt_0_compat; lra).
  rewrite (Rabs_pos_eq (2 * PI / q)) by lra.
  replace (PI / q) with (1 / 2 * (2 * PI / q)) by (field; lra).
  apply Rmult_le_compat_r; lra.
Qed.

(** X5: the outcome of [render] is the same for every value of
    quantize_steps. *)
Theorem render_ignores_quantize_steps (p : Params) (q : option R) (w : world) :
  fst (render G (with_quantize_steps p q) w) = fst (render G p w).
Proof.
  rewrite !render_eval.
  destruct p as [f1 f2 f3 f4 f5 f6 f7 f8 f9 f10 f11 f12 f13 f14 f15 f16 f17 f18 f19 f20
                   f21 f22].
  unfold with_quantize_steps.
  cbn [width height cell_size margin_factor noise_scale octaves seed swirl seeding
       density max_length step_size angle_gain jitter color_start color_lut
       palette_axis palette_within_stroke width_start width_end background].
  match goal with |- fst (if ?c then _ else _) = _ => destruct c end; [reflexivity|].
  match goal with |- fst (if ?c then _ else _) = fst (if ?d then _ else _) =>
    change d with c; destruct c end; [reflexivity|].
  match goal with |- fst (match ?c with _ => _ end) = fst (match ?d with _ => _ end) =>
    change d with c; destruct c as [[noise|e] st] end; [|reflexivity].
  match goal with |- fst (let (_, _) := ?c in _) = fst (let (_, _) := ?d in _) =>
    change d with c; destruct c as [r s] end.
  reflexivity.
Qed.

End FillAngles.

(** ** The field lookup and the length of a step *)


Lemma below_ceil v (k : Z) : (k < ceil v)%Z -> IZR k < v.
Proof.
  unfold ceil. intros H. pose proof (Int_part_bounds (- v)) as [Hl Hu].
  assert (k + 1 <= - Int_part (- v))%Z by lia.
  apply IZR_le in H0. rewrite plus_IZR, opp_IZR in H0. lra.
Qed.

Lemma div_nonneg a c : 0 <= a -> 0 < c -> 0 <= a / c.
Proof. intros. apply Rmult_le_pos; [assumption | left; now apply Rinv_0_lt_compat]. Qed.



Section StepLength.
Variable G : Generators.
Variable angles : ndarray.
Variable bounds : Bounds.
Variable params : Params.

Lemma follow_evenly_spaced n : forall x y heading positions st ps st',
  follow G angles bounds params n x y heading positions st = (Ok ps, st') ->
  exists ext, ps = positions ++ ext
    /\ evenly_spaced (step_size params * step_size params) (x, y) ext.
Proof.
  induction n as [|n IH]; intros x y heading positions st ps st' H.
  - cbn in H. injection H as <- _. exists []. rewrite app_nil_r. cbn. auto.
  - cbn [follow] in H.
    apply bind_Ok in H as (fa & st1 & _ & H).
    apply bind_Ok in H as (j & st2 & _ & H).
    match type of H with context [in_bounds bounds ?a ?b] =>
      destruct (in_bounds bounds a b) end; cbn [negb] in H.
    + apply IH in H as (ext & -> & He).
      eexists (_ :: ext). rewrite <- app_assoc. cbn [app].
      split; [reflexivity|]. cbn [evenly_spaced fst snd]. split; [|exact He].
      match goal with |- context [cos ?h] =>
        pose proof (sin2_cos2 h) as T; unfold Rsqr in T;
        set (c := cos h) in *; set (s := sin h) in * end.
      replace (x + c * step_size params - x) with (c * step_size params) by ring.
      replace (y + s * step_size params - y) with (s * step_size params) by ring.
      replace (c * step_size params * (c * step_size params)
               + s * step_size params * (s * step_size params))
        with ((s * s + c * c) * (step_size params * step_size params)) by ring.
      rewrite T. ring.
    + injection H as <- _. exists []. rewrite app_nil_r. cbn. auto.
Qed.

(** X7: every recorded position of a stroke lies at distance |step_size|
    from the one before it, whatever the field, the gain and the jitter. *)
Theorem stroke_steps_have_step_size_length (px py : R) (st st' : rng_state)
    (positions : list (R * R)) :
  trace_stroke G angles bounds params px py st = (Ok positions, st') ->
  exists ext, positions = (px, py) :: ext
    /\ evenly_spaced (step_size params * step_size params) (px, py) ext.
Proof.
  unfold trace_stroke. intros H.
  apply bind_Ok in H as (h & st1 & _ & H).
  apply follow_evenly_spaced in H as (ext & -> & He). exists ext. auto.
Qed.

End StepLength.

(** ** Seed points and drawn lines stay in the bounds *)

Lemma lt_div_iff a b c : 0 < c -> b < a / c <-> b * c < a.
Proof.
  intros Hc. split; intros H.
  - apply Rmult_lt_reg_r with (/ c); [now apply Rinv_0_lt_compat|].
    rewrite Rmult_assoc, Rinv_r by lra. unfold Rdiv in H. lra.
  - apply Rmult_lt_reg_r with c; [exact Hc|].
    unfold Rdiv. rewrite Rmult_assoc, Rinv_l by lra. lra.
Qed.

Lemma arange_items_below start stop step k :
  0 < step -> (k < Z.to_nat (ceil ((stop - start) / step)))%nat ->
  start <= start + INR k * step < stop.
Proof.
  intros Hs Hk. pose proof (pos_INR k).
  assert (IZR (Z.of_nat k) < (stop - start) / step) by (apply below_ceil; lia).
  rewrite <- INR_IZR_INZ in H0. apply lt_div_iff in H0; [|exact Hs].
  split; [nra | lra].
Qed.

Section SeedPoints.
Variable G : Generators.

Lemma random_points_within bounds n : unit_doubles G ->
  x0 bounds <= x1 bounds -> y0 bounds <= y1 bounds ->
  forall points st ps st',
  Forall (within bounds) points ->
  random_points G bounds n points st = (Ok ps, st') -> Forall (within bounds) ps.
Proof.
  intros HG Hx Hy. induction n as [|n IH]; intros points st ps st' Hin H.
  - cbn in H. injection H as <- _. exact Hin.
  - cbn [random_points] in H. unfold bind at 1 in H. rewrite random_uniform_eval in H.
    unfold bind at 1 in H. rewrite random_uniform_eval in H.
    apply IH in H; [exact H|].
    apply Forall_app. split; [exact Hin|]. constructor; [|constructor].
    unfold within. cbn [fst snd].
    pose proof (HG (origin st) (drawn st)).
    pose proof (HG (origin st) (S (drawn st))). cbn [origin drawn]. nra.
Qed.

Lemma grid_points_eval bounds spacing ys : spacing <> 0 -> forall points st,
  grid_points bounds spacing ys points st
  = (Ok (points ++ flat_map (fun y => map (fun x => (x, y))
                     (map (fun k => x0 bounds + INR k * spacing)
                        (seq 0 (Z.to_nat (ceil ((x1 bounds - x0 bounds) / spacing))))))
                   ys), st).
Proof.
  intros Hs. induction ys as [|y ys IH]; intros points st.
  - cbn. now rewrite app_nil_r.
  - cbn [grid_points flat_map]. unfold bind, np_arange. rewrite Reqb_false by exact Hs.
    unfold ret at 1. rewrite IH, <- app_assoc. reflexivity.
Qed.

Lemma ceil_pos v : 0 < v -> (1 <= ceil v)%Z.
Proof.
  intros Hv. unfold ceil. pose proof (Int_part_bounds (- v)) as [Hl _].
  assert (Int_part (- v) < 0)%Z; [|lia]. apply lt_IZR. lra.
Qed.

(** X8: grid seeding with a positive density over non-empty bounds touches
    no generator and puts the start points on a rectangular lattice of pitch
    s = sqrt(area / density), row by row from the corner (x0, y0): point
    (r, c) is (x0 + c * s, y0 + r * s), there is at least one row and one
    column, and every point has x0 <= x < x1 + s and y0 <= y < y1 + s.  (How
    many rows and columns there are is the length of [np.arange], which
    numpy takes from a quotient of doubles; the statement leaves it open.) *)
Theorem grid_seeding_lattice (params : Params) (bounds : Bounds) (st : rng_state) :
  seeding params = "grid"%string -> 0 < density params ->
  x0 bounds < x1 bounds -> y0 bounds < y1 bounds ->
  let spacing := sqrt ((x1 bounds - x0 bounds) * (y1 bounds - y0 bounds)
                       / density params) in
  0 < spacing
  /\ exists rows cols,
       (1 <= rows)%nat /\ (1 <= cols)%nat
       /\ seed_points G params bounds st
          = (Ok (lattice_points bounds spacing rows cols), st)
       /\ Forall (fun pt => x0 bounds <= fst pt < x1 bounds + spacing
                            /\ y0 bounds <= snd pt < y1 bounds + spacing)
                 (lattice_points bounds spacing rows cols).
Proof.
  intros Hs Hd Hx Hy spacing.
  assert (Ha : 0 < (x1 bounds - x0 bounds) * (y1 bounds - y0 bounds) / density params).
  { apply Rdiv_lt_0_compat; [|exact Hd]. apply Rmult_lt_0_compat; lra. }
  assert (Hsp : 0 < spacing) by (apply sqrt_lt_R0; exact Ha).
  split; [exact Hsp|].
  set (rows := Z.to_nat (ceil ((y1 bounds - y0 bounds) / spacing))).
  set (cols := Z.to_nat (ceil ((x1 bounds - x0 bounds) / spacing))).
  exists rows, cols.
  assert (Hrows : (1 <= ceil ((y1 bounds - y0 bounds) / spacing))%Z)
    by (apply ceil_pos, Rdiv_lt_0_compat; lra).
  assert (Hcols : (1 <= ceil ((x1 bounds - x0 bounds) / spacing))%Z)
    by (apply ceil_pos, Rdiv_lt_0_compat; lra).
  split; [unfold rows; lia|]. split; [unfold cols; lia|]. split.
  - unfold seed_points. cbv zeta. rewrite Hs.
    change (String.eqb "grid" "random") with false.
    change (String.eqb "grid" "grid") with true. cbv iota.
    unfold bind at 1. unfold py_div. rewrite Reqb_false by lra. unfold ret at 1.
    unfold bind at 1. unfold math_sqrt. rewrite Rltb_false by lra. unfold ret at 1.
    fold spacing. unfold bind at 1. unfold np_arange. rewrite Reqb_false by lra.
    unfold ret at 1. rewrite grid_points_eval by lra. cbn [app].
    unfold lattice_points. fold (ceil ((y1 bounds - y0 bounds) / spacing)). fold rows.
    fold cols. rewrite flat_map_concat_map, map_map, <- flat_map_concat_map.
    f_equal. f_equal. apply flat_map_ext. intros r. rewrite map_map. reflexivity.
  - unfold lattice_points. apply Forall_forall. intros pt Hin.
    apply in_flat_map in Hin as (r & Hr & Hin).
    apply in_map_iff in Hin as (c & <- & Hc).
    apply in_seq in Hr. apply in_seq in Hc. cbn [fst snd].
    pose proof (arange_items_below (x0 bounds) (x1 bounds) spacing c Hsp ltac:(lia)).
    pose proof (arange_items_below (y0 bounds) (y1 bounds) spacing r Hsp ltac:(lia)).
    lra.
Qed.

Lemma seed_points_within params bounds st pts st' : unit_doubles G ->
  x0 bounds <= x1 bounds -> y0 bounds <= y1 bounds ->
  seeding params <> "grid"%string ->
  seed_points G params bounds st = (Ok pts, st') -> Forall (within bounds) pts.
Proof.
  intros HG Hx Hy Hg. unfold seed_points. cbv zeta.
  destruct (String.eqb (seeding params) "random").
  { intros H. eapply random_points_within in H; eauto. }
  destruct (String.eqb (seeding params) "grid") eqn:Eg.
  { apply String.eqb_eq in Eg. contradiction. }
  intros H. injection H as <- _. constructor.
Qed.

End SeedPoints.

Lemma in_firstn_in {A} (l : list A) n x : In x (firstn n l) -> In x l.
Proof.
  revert l; induction n as [|n IH]; intros [|a l] H; cbn in *; try contradiction.
  destruct H as [H|H]; [now left | right; now apply IH].
Qed.

Lemma in_skipn_in {A} (l : list A) i x : In x (skipn i l) -> In x l.
Proof.
  revert l; induction i as [|i IH]; intros [|a l] H; cbn in *; try contradiction; auto.
Qed.

Lemma in_slice_in {A} (l : list A) i n x : In x (firstn n (skipn i l)) -> In x l.
Proof. intros H. now apply in_skipn_in with i, in_firstn_in with n. Qed.

Section DrawnLines.
Variable G : Generators.
Variable angles : ndarray.
Variable bounds : Bounds.
Variable params : Params.

Lemma draw_segments_within positions base_idx ixs :
  Forall (within bounds) positions -> forall img st img' st',
  line_ends_within bounds img ->
  draw_segments params positions base_idx ixs img st = (Ok img', st') ->
  line_ends_within bounds img'.
Proof.
  intros Hp. induction ixs as [|i ixs IH]; intros img st img' st' Hi H.
  - cbn in H. injection H as <- _. exact Hi.
  - cbn [draw_segments] in H. apply bind_Ok in H as (c & st1 & _ & H).
    apply IH in H; [exact H|].
    unfold line_ends_within, draw_line. cbn [im_lines]. apply Forall_app.
    split; [exact Hi|]. constructor; [|constructor]. cbn [line_points].
    apply Forall_forall. intros pt Hin. apply in_slice_in in Hin.
    rewrite Forall_forall in Hp. now apply Hp.
Qed.

Lemma draw_stroke_within img pt st img' st' :
  within bounds pt -> line_ends_within bounds img ->
  draw_stroke G angles bounds params img pt st = (Ok img', st') ->
  line_ends_within bounds img'.
Proof.
  destruct pt as [px py]. intros Hpt Hi H. unfold draw_stroke in H.
  apply bind_Ok in H as (ps & st1 & T & H).
  apply trace_stroke_props in T as (ext & -> & _ & Hf).
  destruct (1 <? _)%nat; [|injection H as <- _; exact Hi].
  apply bind_Ok in H as (base & st2 & _ & H).
  eapply draw_segments_within in H; eauto.
Qed.

Lemma draw_all_within points : Forall (within bounds) points ->
  forall img st img' st', line_ends_within bounds img ->
  draw_all G angles bounds params points img st = (Ok img', st') ->
  line_ends_within bounds img'.
Proof.
  induction 1 as [|pt rest Hpt Hrest IH]; intros img st img' st' Hi H.
  - cbn in H. injection H as <- _. exact Hi.
  - cbn [draw_all] in H. apply bind_Ok in H as (img1 & st1 & D & H).
    apply draw_stroke_within in D; [|assumption..]. eapply IH; eauto.
Qed.

End DrawnLines.

Section RenderBounds.
Variable G : Generators.

(** X9: with random seeding (any seeding but 'grid'), when the margin
    leaves a rectangle (twice the margin is at most the width and the
    height), both end points of every line of the image [render] returns lie
    in the bounds rectangle.  (The width of a line is not accounted for: a
    wide line that ends near the border of the bounds reaches over it.) *)
Theorem render_draws_inside_bounds (p : Params) (w w' : world) (img : Image) :
  unit_doubles G ->
  2 * grid_margin p <= IZR (width p) -> 2 * grid_margin p <= IZR (height p) ->
  seeding p <> "grid"%string ->
  render G p w = (Ok img, w') ->
  line_ends_within (grid_bounds p) img.
Proof.
  intros HG Hw Hh Hg. rewrite render_eval.
  destruct (Reqb (cell_size p) 0); [discriminate|].
  destruct (_ || _)%bool; [discriminate|].
  destruct (noise_call G p (grid_zeros p) (np_rng w)) as [[noise|e] st]; [|discriminate].
  destruct (draw_strokes G _ _ p _) as [r s] eqn:D. intros H. injection H as -> _.
  unfold draw_strokes in D.
  apply bind_Ok in D as (img0 & s0 & D0 & D).
  apply bind_Ok in D as (pts & s1 & P & D).
  unfold Image_new in D0. destruct (_ || _)%bool; [discriminate|].
  injection D0 as <- _.
  apply seed_points_within in P;
    [ | exact HG | unfold grid_bounds; cbn [x0 x1]; lra
      | unfold grid_bounds; cbn [y0 y1]; lra | exact Hg ].
  eapply draw_all_within in D; [exact D | exact P | constructor].
Qed.

End RenderBounds.

(** ** The sweep through the LUT *)

Lemma py_int_monotone a b : 0 <= a -> a <= b -> (py_int a <= py_int b)%Z.
Proof.
  intros Ha Hab.
  pose proof (py_int_nonneg_bounds a Ha) as [La Ua].
  pose proof (py_int_nonneg_bounds b ltac:(lra)) as [Lb Ub].
  assert (py_int a < py_int b + 1)%Z; [|lia].
  apply lt_IZR. rewrite plus_IZR. lra.
Qed.

Lemma segment_cap (i L : Z) :
  (if (i >=? L)%Z then (L - 1)%Z else i) = Z.min i (L - 1).
Proof.
  destruct (i >=? L)%Z eqn:E; rewrite Z.geb_leb in E;
    [apply Z.leb_le in E | apply Z.leb_gt in E]; lia.
Qed.

Section LutSweep.
Variable params : Params.

(** X10: along a stroke the LUT index never decreases with the progress t;
    with palette_within_stroke = 0 (or a LUT of at most one colour) it is the
    same for every segment. *)
Theorem lut_sweep_is_monotone (base_idx : Z) (t1 t2 : R) :
  0 <= t1 <= t2 ->
  (segment_idx params base_idx t1 <= segment_idx params base_idx t2)%Z
  /\ (within_stroke params = 0 ->
      segment_idx params base_idx t1 = segment_idx params base_idx t2).
Proof.
  intros [H1 H12]. pose proof (stroke_span_nonneg params) as Hs.
  assert (Hz : 0 <= IZR (stroke_span params)) by (apply IZR_le; lia).
  assert (M : (py_int (t1 * IZR (stroke_span params))
               <= py_int (t2 * IZR (stroke_span params)))%Z).
  { apply py_int_monotone; [apply Rmult_le_pos; assumption | nra]. }
  split.
  - unfold segment_idx. cbv zeta. rewrite !segment_cap. lia.
  - intros Hw.
    assert (Hspan : stroke_span params = 0%Z).
    { unfold stroke_span. destruct (lut_len params <=? 1)%Z; [reflexivity|].
      rewrite Hw, Rmult_0_r, py_int_0. reflexivity. }
    unfold segment_idx. rewrite Hspan, !Rmult_0_r, py_int_0. reflexivity.
Qed.

(** X11: with palette_within_stroke in [0, 1] the base index leaves room for
    the whole sweep: base index + span <= L - 1, so the cap at L - 1 never
    cuts a sweep short. *)
Theorem lut_sweep_fits (base t : R) :
  (2 <= lut_len params)%Z -> 0 <= within_stroke params <= 1 ->
  0 <= base <= 1 -> 0 <= t <= 1 ->
  (stroke_base_idx params base + stroke_span params <= lut_len params - 1)%Z
  /\ segment_idx params (stroke_base_idx params base) t
     = (stroke_base_idx params base + py_int (t * IZR (stroke_span params)))%Z.
Proof.
  intros HL Hw Hb Ht.
  assert (HL1 : (lut_len params <=? 1)%Z = false) by (apply Z.leb_gt; lia).
  pose proof (stroke_span_nonneg params) as Hs0.
  assert (Hs1 : (stroke_span params <= lut_len params - 1)%Z).
  { unfold stroke_span. rewrite HL1. apply Z.max_lub; [lia|].
    assert (0 <= IZR (lut_len params - 1)) by (apply IZR_le; lia).
    apply py_int_mono_le; nra. }
  assert (Hbi : (stroke_base_idx params base <= lut_len params - 1 - stroke_span params)%Z).
  { unfold stroke_base_idx. rewrite HL1. cbv zeta. rewrite Z.max_r by lia.
    assert (0 <= IZR (lut_len params - 1 - stroke_span params)) by (apply IZR_le; lia).
    apply py_int_mono_le; nra. }
  split; [lia|].
  assert (Hz : 0 <= IZR (stroke_span params)) by (apply IZR_le; lia).
  assert (Hts : (py_int (t * IZR (stroke_span params)) <= stroke_span params)%Z)
    by (apply py_int_mono_le; nra).
  unfold segment_idx. cbv zeta.
  destruct (_ >=? lut_len params)%Z eqn:E; [|reflexivity].
  rewrite Z.geb_leb in E. apply Z.leb_le in E. lia.
Qed.

(** X12: the degenerate LUTs.  With one colour every segment takes it; with
    none (or no 'color_lut' key) every segment takes 'color_start'. *)
Theorem degenerate_lut_colour (base t : R) (st : rng_state) :
  (forall c, lut params = [c] ->
     segment_color params (stroke_base_idx params base) t st = (Ok c, st))
  /\ (lut params = [] ->
      segment_color params (stroke_base_idx params base) t st
      = (Ok (color_start params), st)).
Proof.
  split.
  - intros c Hc.
    assert (HL : lut_len params = 1%Z) by (unfold lut_len; rewrite Hc; reflexivity).
    unfold segment_color, segment_idx, stroke_base_idx, stroke_span.
    rewrite HL, Hc. change (1 >? 0)%Z with true. change (1 <=? 1)%Z with true.
    cbv iota. rewrite Rmult_0_r, py_int_0. reflexivity.
  - intros Hc.
    assert (HL : lut_len params = 0%Z) by (unfold lut_len; rewrite Hc; reflexivity).
    unfold segment_color. rewrite HL. reflexivity.
Qed.

Lemma segment_idx_nonneg base_idx t :
  (0 <= base_idx)%Z -> 0 <= t -> (0 < lut_len params)%Z ->
  (0 <= segment_idx params base_idx t)%Z.
Proof.
  intros Hb Ht HL. pose proof (stroke_span_nonneg params) as Hs.
  assert (0 <= py_int (t * IZR (stroke_span params)))%Z.
  { apply py_int_nonneg. apply Rmult_le_pos; [exact Ht | apply IZR_le; lia]. }
  unfold segment_idx. cbv zeta. rewrite segment_cap. lia.
Qed.

Lemma draw_segments_lines positions base_idx ixs : (0 <= base_idx)%Z ->
  forall img (st : rng_state) img' st',
  draw_segments params positions base_idx ixs img st = (Ok img', st') ->
  exists new, im_lines img' = im_lines img ++ new
    /\ Forall2 (segment_of params positions base_idx) ixs new.
Proof.
  intros Hbase. induction ixs as [|i ixs IH]; intros img st img' st' H.
  - cbn in H. injection H as <- _. exists []. rewrite app_nil_r. split; [reflexivity|].
    constructor.
  - cbn [draw_segments] in H. apply bind_Ok in H as (c & st1 & C & H).
    apply IH in H as (new & Hn & Hf). cbn [draw_line im_lines] in Hn.
    eexists (_ :: new). rewrite Hn, <- app_assoc. cbn [app]. split; [reflexivity|].
    constructor; [|exact Hf].
    unfold segment_of. cbn [line_points line_width line_fill].
    split; [reflexivity|]. split; [reflexivity|].
    unfold segment_color in C. split.
    + intros HL.
      assert (Ht : 0 <= INR i / INR (length positions - 1)).
      { apply Rmult_le_pos; [apply pos_INR|].
        destruct (length positions - 1)%nat as [|k].
        - cbn. rewrite Rinv_0. lra.
        - left. apply Rinv_0_lt_compat, lt_0_INR. lia. }
      pose proof (segment_idx_nonneg base_idx _ Hbase Ht HL) as Hn0.
      apply Z.gtb_lt in HL. rewrite HL in C.
      unfold py_list_get in C. cbv zeta in C.
      destruct (idx_ok _ _); [|discriminate].
      unfold idx_norm in C.
      destruct (_ <? 0)%Z eqn:E0; [apply Z.ltb_lt in E0; lia|].
      destruct (nth_error (lut params) _) as [v|] eqn:En; [|discriminate].
      injection C as <- _. reflexivity.
    + intros HL. rewrite HL in C. cbn in C. injection C as <- _. reflexivity.
Qed.

End LutSweep.

(** ** The lines of a stroke, and when [render] returns *)

Lemma slice_pair {A} (l : list A) k d :
  (S k < length l)%nat -> firstn 2 (skipn k l) = [nth k l d; nth (S k) l d].
Proof.
  revert l; induction k as [|k IH]; intros l H.
  - destruct l as [|a [|b l]]; cbn in *; try lia. reflexivity.
  - destruct l as [|a l]; cbn in *; [lia|]. apply IH. lia.
Qed.

Lemma Forall2_nth_error {A B} (R : A -> B -> Prop) l1 l2 k y :
  Forall2 R l1 l2 -> nth_error l2 k = Some y ->
  exists x, nth_error l1 k = Some x /\ R x y.
Proof.
  intros H. revert k. induction H as [|a b l1 l2 Hab H IH]; intros [|k] E;
    cbn in *; try discriminate.
  - injection E as <-. eauto.
  - now apply IH.
Qed.

Lemma nth_error_seq_0 m k x : nth_error (seq 0 m) k = Some x -> x = k /\ (k < m)%nat.
Proof.
  intros H. assert (Hk : (k < length (seq 0 m))%nat) by (apply nth_error_Some; congruence).
  rewrite length_seq in Hk. split; [|exact Hk].
  apply nth_error_nth with (d := 0%nat) in H. rewrite seq_nth in H by exact Hk. lia.
Qed.

Section StrokeDrawing.
Variable G : Generators.
Variable angles : ndarray.
Variable bounds : Bounds.
Variable params : Params.

Lemma stroke_base_range px py st base st' :
  stroke_base G angles bounds params px py st = (Ok base, st') -> 0 <= base <= 1.
Proof.
  unfold stroke_base. cbv zeta. intros H.
  apply bind_Ok in H as (b0 & s1 & _ & H). injection H as <- _.
  split; [apply Rmax_l|]. apply Rmax_lub; [lra | apply Rmin_l].
Qed.

(** X13: a stroke of n >= 2 positions adds n - 1 lines to the image and
    keeps the lines already there; line k joins positions k and k + 1 and has
    width int(width_start + (width_end - width_start) * k / (n - 1)).  A
    stroke of one position adds nothing. *)
Theorem stroke_segments_join_positions
    (img img' : Image) (px py : R) (st st' : rng_state) :
  draw_stroke G angles bounds params img (px, py) st = (Ok img', st') ->
  exists positions st1 new,
    trace_stroke G angles bounds params px py st = (Ok positions, st1)
    /\ im_lines img' = im_lines img ++ new
    /\ length new = (length positions - 1)%nat
    /\ forall k ln, nth_error new k = Some ln ->
         line_points ln = [nth k positions (0, 0); nth (S k) positions (0, 0)]
         /\ line_width ln
            = py_int (width_start params
                      + (width_end params - width_start params)
                        * (INR k / INR (length positions - 1))).
Proof.
  unfold draw_stroke. intros H.
  apply bind_Ok in H as (ps & st1 & T & H). exists ps, st1.
  pose proof (trace_stroke_props G angles bounds params px py st ps st1 T)
    as (ext & Eps & _ & _).
  destruct (1 <? length ps)%nat eqn:E1.
  - apply Nat.ltb_lt in E1.
    apply bind_Ok in H as (base & st2 & B & H).
    apply stroke_base_range in B.
    apply draw_segments_lines in H as (new & Hn & Hf);
      [|apply stroke_base_idx_nonneg; lra].
    exists new. split; [exact T|]. split; [exact Hn|]. split.
    + apply Forall2_length in Hf. rewrite length_seq in Hf. lia.
    + intros k ln Hk.
      destruct (Forall2_nth_error _ _ _ _ _ Hf Hk) as (i & Hi & Hseg).
      apply nth_error_seq_0 in Hi as [-> Hlt].
      destruct Hseg as (Hp & Hw & _). rewrite Hp, Hw.
      split; [apply slice_pair; lia | reflexivity].
  - apply Nat.ltb_ge in E1. injection H as <- _. exists [].
    split; [exact T|]. split; [now rewrite app_nil_r|]. split.
    + subst ps. cbn [length] in *. lia.
    + intros [|k] ln Hk; discriminate.
Qed.

End StrokeDrawing.

Section RenderSucceeds.
Variable G : Generators.

Lemma seed_points_returns p b st :
  (seeding p = "grid"%string ->
   0 < density p /\ x0 b < x1 b /\ y0 b < y1 b) ->
  exists pts st', seed_points G p b st = (Ok pts, st').
Proof.
  intros Hg. unfold seed_points. cbv zeta.
  destruct (String.eqb (seeding p) "random") eqn:Er.
  { match goal with |- context [random_points G b ?n [] st] =>
      destruct (random_points_returns G b n [] st) as (new & st' & E & _) end.
    cbn [app] in E. eauto. }
  destruct (String.eqb (seeding p) "grid") eqn:Eg; [|unfold ret; eauto].
  apply String.eqb_eq in Eg. destruct (Hg Eg) as (Hd & Hx & Hy).
  assert (Ha : 0 < (x1 b - x0 b) * (y1 b - y0 b) / density p).
  { apply Rdiv_lt_0_compat; [|exact Hd]. apply Rmult_lt_0_compat; lra. }
  pose proof (sqrt_lt_R0 _ Ha) as Hsp.
  unfold bind at 1. unfold py_div. rewrite Reqb_false by lra. unfold ret at 1.
  unfold bind at 1. unfold math_sqrt. rewrite Rltb_false by lra. unfold ret at 1.
  unfold bind at 1. unfold np_arange. rewrite Reqb_false by lra. unfold ret at 1.
  rewrite grid_points_eval by lra. eauto.
Qed.

(** X14: [render] returns an image, of the configured size and background,
    for every configuration with a non-zero cell size, a margin that leaves
    non-negative grid dimensions, non-negative width and height and a seed
    numpy accepts (grid seeding also needs a positive density and non-empty
    bounds). *)
Theorem render_succeeds (p : Params) (w : world) :
  cell_size p <> 0 -> (0 <= grid_ny p)%Z -> (0 <= grid_nx p)%Z ->
  (0 <= width p)%Z -> (0 <= height p)%Z ->
  seeds_accepted (seed p) (Z.to_nat (noise_octaves p)) ->
  (seeding p = "grid"%string ->
   0 < density p /\ 2 * grid_margin p < IZR (width p)
   /\ 2 * grid_margin p < IZR (height p)) ->
  exists img w', render G p w = (Ok img, w')
    /\ im_size img = (width p, height p) /\ im_background img = background p.
Proof.
  intros Hc Hy Hx Hw Hh Hs Hg. rewrite render_eval.
  rewrite (Reqb_false _ _ Hc).
  assert (((grid_ny p <? 0) || (grid_nx p <? 0))%Z = false) as ->
    by (apply orb_false_iff; split; apply Z.ltb_ge; assumption).
  destruct (noise_call_returns G p (grid_zeros p) (np_rng w) Hs) as (noise & st & E & _).
  rewrite E.
  set (a := unquantized p (grid_zeros p) noise).
  set (s0 := py_rng (seeded_world p w)).
  assert (K : exists img s', draw_strokes G a (grid_bounds p) p s0 = (Ok img, s')
            /\ im_size img = (width p, height p) /\ im_background img = background p).
  { unfold draw_strokes. unfold bind at 1. unfold Image_new. cbn [fst snd].
    assert (((width p <? 0) || (height p <? 0))%Z = false) as ->
      by (apply orb_false_iff; split; apply Z.ltb_ge; assumption).
    unfold ret at 1.
    destruct (seed_points_returns p (grid_bounds p) s0) as (pts & s1 & P).
    { intros Eg. destruct (Hg Eg) as (Hd & H1 & H2).
      unfold grid_bounds. cbn [x0 x1 y0 y1]. repeat split; lra. }
    unfold bind at 1. rewrite P.
    destruct (draw_all_returns G a (grid_bounds p) p pts Hc
                (mk_Image (width p, height p) (background p) []) s1)
      as (img & s2 & E2 & Hsz & Hbg).
    eauto. }
  destruct K as (img & s' & K & Hsz & Hbg). rewrite K. eauto.
Qed.

End RenderSucceeds.

(** ** The mapper, the genre codes and the pipeline *)

Ltac decide_Rltb :=
  repeat match goal with
         | |- context [Rltb ?a ?b] =>
             first [ rewrite (Rltb_true a b) by lra
                   | rewrite (Rltb_false a b) by lra ]
         end.

(** X15: the genre code round trip.  The code that [genre_to_colormap_id]
    gives a genre name is read back by [get_genre_from_vector] as that name
    in lower case, or as 'neutral' when the name is none of the six; and the
    mapper picks the palette entry of that very name. *)
Theorem genre_code_round_trip (genre : string) (v : list R) (pm : PaletteMapping) :
  nth_error v 13 = Some (genre_to_colormap_id genre) ->
  exists g, get_genre_from_vector v = Ok g
    /\ (In (py_lower genre) known_genres -> g = py_lower genre)
    /\ (~ In (py_lower genre) known_genres -> g = "neutral"%string)
    /\ get_color_palette pm (genre_to_colormap_id genre) = palette_entry pm g.
Proof.
  intros Hv. unfold get_genre_from_vector. rewrite Hv.
  unfold genre_to_colormap_id, get_color_palette. cbv zeta.
  unfold genre_id_mapping, dict_get, known_genres.
  destruct (String.eqb (py_lower genre) "fear") eqn:E1.
  { apply String.eqb_eq in E1. rewrite E1. cbn [get_or]. decide_Rltb.
    eexists; split; [reflexivity|]. split; [auto|]. split; [|reflexivity].
    intros N. exfalso. apply N. cbn. auto. }
  destruct (String.eqb (py_lower genre) "anger") eqn:E2.
  { apply String.eqb_eq in E2. rewrite E2. cbn [get_or]. decide_Rltb.
    eexists; split; [reflexivity|]. split; [auto|]. split; [|reflexivity].
    intros N. exfalso. apply N. cbn. auto. }
  destruct (String.eqb (py_lower genre) "sadness") eqn:E3.
  { apply String.eqb_eq in E3. rewrite E3. cbn [get_or]. decide_Rltb.
    eexists; split; [reflexivity|]. split; [auto|]. split; [|reflexivity].
    intros N. exfalso. apply N. cbn. auto. }
  destruct (String.eqb (py_lower genre) "love") eqn:E4.
  { apply String.eqb_eq in E4. rewrite E4. cbn [get_or]. decide_Rltb.
    eexists; split; [reflexivity|]. split; [auto|]. split; [|reflexivity].
    intros N. exfalso. apply N. cbn. auto. }
  destruct (String.eqb (py_lower genre) "joy") eqn:E5.
  { apply String.eqb_eq in E5. rewrite E5. cbn [get_or]. decide_Rltb.
    eexists; split; [reflexivity|]. split; [auto|]. split; [|reflexivity].
    intros N. exfalso. apply N. cbn. auto 10. }
  destruct (String.eqb (py_lower genre) "surprise") eqn:E6.
  { apply String.eqb_eq in E6. rewrite E6. cbn [get_or]. decide_Rltb.
    eexists; split; [reflexivity|]. split; [auto|]. split; [|reflexivity].
    intros N. exfalso. apply N. cbn. auto 10. }
  cbn [get_or]. decide_Rltb.
  eexists; split; [reflexivity|]. split; [|split; [reflexivity | reflexivity]].
  apply String.eqb_neq in E1, E2, E3, E4, E5, E6.
  cbn [In]. intros [H|[H|[H|[H|[H|[H|[]]]]]]]; congruence.
Qed.

Lemma get_scheme_within_stroke name :
  0 <= scheme_palette_within_stroke (get_scheme name) <= 1.
Proof.
  unfold get_scheme, SCHEMES, dict_get.
  destruct (String.eqb name "very_smooth"); [cbn; lra|].
  destruct (String.eqb name "expressive"); [cbn; lra|].
  destruct (String.eqb name "wild"); cbn; lra.
Qed.

Lemma Ok_inj {A} (a b : A) : Ok a = Ok b -> a = b.
Proof. now intros [= ->]. Qed.

Section MapperProofs.
Variable cmap : string -> R -> R * R * R.

Lemma map_embedding_Ok v scheme cfg :
  map_embedding_to_params cmap v scheme = Ok cfg ->
  (14 <= length v)%nat
  /\ width (core cfg) = 3000%Z /\ height (core cfg) = 3000%Z
  /\ margin_factor (core cfg) = 8 / 100
  /\ cell_size (core cfg) = IZR (py_int (4 + nth 3 v 0 * 8))
  /\ seed (core cfg) = Some (py_int (nth 9 v 0 * 1000))
  /\ seeding (core cfg) = "random"%string
  /\ background (core cfg) = (250, 250, 245)%Z
  /\ density (core cfg) = Rmax (1 / 1000) (Rmin (6 / 1000) (nth 2 v 0 * (2 / 1000)))
  /\ lut_len (core cfg) = 256%Z
  /\ within_stroke (core cfg) = scheme_palette_within_stroke (get_scheme scheme).
Proof.
  unfold map_embedding_to_params.
  destruct (length v <? 14)%nat eqn:E; [discriminate|]. apply Nat.ltb_ge in E.
  cbv zeta.
  destruct (get_color_palette _ _) as [cmap_name [pos_start pos_end]].
  intros H. apply Ok_inj in H. subst cfg. cbn [core width height margin_factor cell_size
    seed seeding background density].
  do 9 (split; [first [exact E | reflexivity]|]).
  split; [|reflexivity].
  unfold lut_len, lut. cbn [core color_lut get_or].
  unfold np_linspace. rewrite !length_map, length_seq. reflexivity.
Qed.

Lemma mapped_grid_margin v scheme cfg :
  map_embedding_to_params cmap v scheme = Ok cfg -> grid_margin (core cfg) = 240.
Proof.
  intros H. apply map_embedding_Ok in H as (_ & Hw & Hh & Hm & _).
  unfold grid_margin. rewrite Hw, Hh, Hm. change (Z.min 3000 3000) with 3000%Z. lra.
Qed.

(** X16: a vector of fewer than 14 components is refused with IndexError;
    for any longer vector and any scheme name the mapper returns a
    configuration with a 3000 by 3000 canvas, bounds (240, 240, 2760, 2760),
    random seeding, a density in [0.001, 0.006], a LUT of 256 colours and
    palette_within_stroke in [0, 1]. *)
Theorem mapper_output_is_well_formed (v : list R) (scheme : string) :
  ((length v < 14)%nat -> map_embedding_to_params cmap v scheme = Raise IndexError)
  /\ ((14 <= length v)%nat ->
      exists cfg, map_embedding_to_params cmap v scheme = Ok cfg
        /\ (width (core cfg), height (core cfg)) = (3000, 3000)%Z
        /\ grid_bounds (core cfg) = mk_Bounds 240 240 2760 2760
        /\ seeding (core cfg) = "random"%string
        /\ 1 / 1000 <= density (core cfg) <= 6 / 1000
        /\ lut_len (core cfg) = 256%Z
        /\ 0 <= within_stroke (core cfg) <= 1).
Proof.
  split.
  - intros H. unfold map_embedding_to_params.
    apply Nat.ltb_lt in H. now rewrite H.
  - intros H.
    assert (E : exists cfg, map_embedding_to_params cmap v scheme = Ok cfg).
    { unfold map_embedding_to_params. apply Nat.ltb_ge in H. rewrite H. cbv zeta.
      destruct (get_color_palette _ _) as [cmap_name [pos_start pos_end]]. eauto. }
    destruct E as (cfg & E). exists cfg. split; [exact E|].
    pose proof (mapped_grid_margin _ _ _ E) as Hm.
    apply map_embedding_Ok in E
      as (_ & Hw & Hh & _ & _ & _ & Hs & _ & Hd & HL & Hws).
    split; [now rewrite Hw, Hh|]. split.
    { unfold grid_bounds. rewrite Hm, Hw, Hh. f_equal; lra. }
    split; [exact Hs|]. split.
    { rewrite Hd. split; [apply Rmax_l|].
      apply Rmax_lub; [lra | apply Rmin_l]. }
    split; [exact HL|]. rewrite Hws. apply get_scheme_within_stroke.
Qed.

Section WithGenerators.
Variable G : Generators.

Lemma renderable p w :
  0 < cell_size p -> grid_margin p = 240 ->
  width p = 3000%Z -> height p = 3000%Z ->
  (exists s, seed p = Some s /\ (0 <= s)%Z /\ (s + 10 <= 2 ^ 32)%Z) ->
  seeding p = "random"%string ->
  exists img w', render G p w = (Ok img, w')
    /\ im_size img = (3000, 3000)%Z /\ im_background img = background p.
Proof.
  intros Hc Hm Hw Hh (s & Hs & Hs0 & Hs1) Hr.
  assert (D : forall W, W = 3000%Z ->
            (0 <= py_int ((IZR W - 2 * grid_margin p) / cell_size p))%Z).
  { intros W ->. apply py_int_nonneg. rewrite Hm. apply div_nonneg; lra. }
  destruct (render_returns G p w) as (img & w' & E & Hsz & Hbg).
  - lra.
  - now apply D.
  - now apply D.
  - lia.
  - lia.
  - rewrite Hs. cbn [seeds_accepted]. pose proof (noise_octaves_range p). lia.
  - rewrite Hr. reflexivity.
  - exists img, w'. rewrite Hsz, Hw, Hh. auto.
Qed.

(** X17: the pipeline's path renders.  For a vector of at least 14
    components with v[3] >= 0 and 0 <= v[9] * 1000 <= 2^32 - 11, and for any
    scheme name and any style, [render] returns a 3000 by 3000 image on the
    configuration that the mapper builds and the style bias rewrites. *)
Theorem mapped_embedding_renders
    (v : list R) (scheme : string) (style : option string) (w : world) :
  (14 <= length v)%nat -> 0 <= nth 3 v 0 ->
  0 <= nth 9 v 0 -> nth 9 v 0 * 1000 < IZR (2 ^ 32 - 10) ->
  exists cfg img w',
    map_embedding_to_params cmap v scheme = Ok cfg
    /\ render G (core (apply_user_style_bias cfg style)) w = (Ok img, w')
    /\ im_size img = (3000, 3000)%Z
    /\ im_background img = (250, 250, 245)%Z.
Proof.
  intros Hlen Hv3 Hv9 Hv9'.
  assert (E : exists cfg, map_embedding_to_params cmap v scheme = Ok cfg).
  { unfold map_embedding_to_params. apply Nat.ltb_ge in Hlen. rewrite Hlen. cbv zeta.
    destruct (get_color_palette _ _) as [cmap_name [pos_start pos_end]]. eauto. }
  destruct E as (cfg & E). exists cfg.
  pose proof (mapped_grid_margin _ _ _ E) as Hm.
  pose proof (map_embedding_Ok _ _ _ E)
    as (_ & Hw & Hh & Hmf & Hcell & Hseed & Hs & Hbg & _).
  assert (Hc : 4 <= cell_size (core cfg)).
  { rewrite Hcell.
    assert (Hlt : (3 < py_int (4 + nth 3 v 0 * 8)%R)%Z); [|apply IZR_le; lia].
    assert (H0 : 0 <= 4 + nth 3 v 0 * 8) by lra.
    pose proof (py_int_nonneg_bounds _ H0) as [_ Hu]. apply lt_IZR. lra. }
  assert (Hsd : exists s, seed (core cfg) = Some s /\ (0 <= s)%Z /\ (s + 10 <= 2 ^ 32)%Z).
  { eexists. split; [exact Hseed|].
    assert (H0 : 0 <= nth 9 v 0 * 1000) by lra.
    split; [now apply py_int_nonneg|].
    pose proof (py_int_nonneg_bounds _ H0) as [Hl _].
    assert (Hlt : (py_int (nth 9 v 0 * 1000)%R < 2 ^ 32 - 10)%Z); [|lia].
    apply lt_IZR. lra. }
  assert (R0 : forall p, 0 < cell_size p -> grid_margin p = 240 ->
            width p = 3000%Z -> height p = 3000%Z ->
            seed p = seed (core cfg) -> seeding p = "random"%string ->
            background p = (250, 250, 245)%Z ->
            exists img w', render G p w = (Ok img, w')
              /\ im_size img = (3000, 3000)%Z
              /\ im_background img = (250, 250, 245)%Z).
  { intros p H1 H2 H3 H4 H5 H6 H7.
    destruct (renderable p w H1 H2 H3 H4) as (img & w' & R1 & R2 & R3);
      [now rewrite H5 | exact H6 |].
    exists img, w'. rewrite R3, H7. auto. }
  assert (Plain : exists img w', render G (core cfg) w = (Ok img, w')
            /\ im_size img = (3000, 3000)%Z
            /\ im_background img = (250, 250, 245)%Z).
  { apply R0; auto. lra. }
  assert (K : exists img w',
            render G (core (apply_user_style_bias cfg style)) w = (Ok img, w')
            /\ im_size img = (3000, 3000)%Z
            /\ im_background img = (250, 250, 245)%Z).
  { unfold apply_user_style_bias. destruct style as [[|c s]|]; try exact Plain.
    destruct (_ || _)%bool; [|exact Plain].
    cbn [core]. apply R0; cbn [cell_size width height seed seeding background]; auto.
    + assert (Hge : (2 <= Z.max 2 (py_int (cell_size (core cfg) * (6 / 10))))%Z) by lia.
      apply IZR_le in Hge. lra. }
  destruct K as (img & w' & K). exists img, w'. split; [exact E | exact K].
Qed.

End WithGenerators.

End MapperProofs.

(** ** Slugs and syllables *)

Lemma sub_runs_chars s : forall b, Forall slug_char (sub_runs b s).
Proof.
  induction s as [|c r IH]; intros b; cbn [sub_runs]; [constructor|].
  destruct (is_lower_alnum c) eqn:E.
  - constructor; [now left | apply IH].
  - destruct b; [apply IH|]. constructor; [now right | apply IH].
Qed.

Lemma underscore_not_alnum : is_lower_alnum underscore = false.
Proof. reflexivity. Qed.

Lemma sub_runs_no_double s : forall b,
  no_double_underscore (sub_runs b s)
  /\ (b = true -> hd_error (sub_runs b s) <> Some underscore).
Proof.
  induction s as [|c r IH]; intros b; cbn [sub_runs].
  - cbn. split; [exact I | discriminate].
  - destruct (is_lower_alnum c) eqn:E.
    + destruct (IH false) as [H1 _]. split.
      * cbn [no_double_underscore]. split; [|exact H1].
        destruct (sub_runs false r); [exact I|].
        intros [-> _]. rewrite underscore_not_alnum in E. discriminate.
      * intros _. cbn. intros [= ->]. rewrite underscore_not_alnum in E. discriminate.
    + destruct (IH true) as [H1 H2]. destruct b.
      * split; [exact H1 | intros _; now apply H2].
      * split; [|discriminate].
        cbn [no_double_underscore]. split; [|exact H1].
        specialize (H2 eq_refl). destruct (sub_runs true r) as [|d t]; [exact I|].
        intros [_ ->]. now apply H2.
Qed.

(** Properties kept by every contiguous piece of a string. *)
Lemma no_double_app_r a b : no_double_underscore (a ++ b) -> no_double_underscore b.
Proof.
  induction a as [|x a IH]; [auto|]. cbn [app no_double_underscore]. intros [_ H]. auto.
Qed.

Lemma no_double_app_l a b : no_double_underscore (a ++ b) -> no_double_underscore a.
Proof.
  induction a as [|x a IH]; [cbn; auto|]. cbn [app no_double_underscore].
  intros [H1 H2]. split; [|auto]. destruct a; [exact I | exact H1].
Qed.

Lemma lstrip_suffix s : exists p, s = p ++ lstrip s.
Proof.
  induction s as [|c r (p & IH)]; [exists []; reflexivity|]. cbn [lstrip].
  destruct (Ascii.eqb c underscore).
  - exists (c :: p). cbn. now rewrite <- IH.
  - exists []. reflexivity.
Qed.

Lemma lstrip_head s : hd_error (lstrip s) <> Some underscore.
Proof.
  induction s as [|c r IH]; [discriminate|]. cbn [lstrip].
  destruct (Ascii.eqb c underscore) eqn:E; [exact IH|].
  cbn. intros [= ->]. now rewrite Ascii.eqb_refl in E.
Qed.

Lemma rstrip_prefix s : exists q, s = rstrip s ++ q.
Proof.
  induction s as [|c r (q & IH)]; [exists []; reflexivity|]. cbn [rstrip].
  destruct (rstrip r) as [|d t] eqn:E.
  - destruct (Ascii.eqb c underscore).
    + exists (c :: r). reflexivity.
    + exists r. reflexivity.
  - exists q. cbn [app] in *. now f_equal.
Qed.

Lemma rstrip_head s : hd_error s <> Some underscore -> hd_error (rstrip s) <> Some underscore.
Proof.
  destruct s as [|c r]; [auto|]. cbn [rstrip hd_error]. intros H.
  destruct (rstrip r); [destruct (Ascii.eqb c underscore); [discriminate | exact H] | exact H].
Qed.

Lemma slice_to_prefix s n : exists q, s = slice_to s n ++ q.
Proof.
  unfold slice_to. destruct (0 <=? n)%Z; eexists; symmetry; apply firstn_skipn.
Qed.

Lemma prefix_head {A} (a q : list A) x :
  hd_error (a ++ q) <> Some x -> hd_error a <> Some x.
Proof. destruct a; [discriminate | auto]. Qed.

(** X18: a slug holds only lower-case letters, digits and underscores, never
    two underscores in a row and no underscore in front; with a non-negative
    max_length it has at most max_length characters. *)
Theorem slugify_is_filesystem_safe (text : list ascii) (max_length : Z) :
  Forall slug_char (slugify text max_length)
  /\ no_double_underscore (slugify text max_length)
  /\ hd_error (slugify text max_length) <> Some underscore
  /\ ((0 <= max_length)%Z ->
      (Z.of_nat (length (slugify text max_length)) <= max_length)%Z).
Proof.
  unfold slugify. cbv zeta.
  set (s1 := sub_runs false (map lower_char text)).
  pose proof (sub_runs_chars (map lower_char text) false) as C1. fold s1 in C1.
  destruct (sub_runs_no_double (map lower_char text) false) as [D1 _]. fold s1 in D1.
  destruct (lstrip_suffix s1) as (p & E1).
  destruct (rstrip_prefix (lstrip s1)) as (q & E2).
  destruct (slice_to_prefix (rstrip (lstrip s1)) max_length) as (r & E3).
  set (out := slice_to (rstrip (lstrip s1)) max_length) in *.
  assert (E : s1 = p ++ (out ++ r) ++ q) by (rewrite <- E3, <- E2; exact E1).
  split; [|split; [|split]].
  - rewrite E in C1. apply Forall_app in C1 as [_ C1].
    apply Forall_app in C1 as [C1 _]. apply Forall_app in C1 as [C1 _]. exact C1.
  - rewrite E in D1. apply no_double_app_r in D1.
    apply no_double_app_l in D1. apply no_double_app_l in D1. exact D1.
  - apply prefix_head with r. rewrite <- E3. apply rstrip_head, lstrip_head.
  - intros Hm. unfold out, slice_to. apply Z.leb_le in Hm. rewrite Hm.
    apply Z.leb_le in Hm. pose proof (firstn_le_length (Z.to_nat max_length)
                                        (rstrip (lstrip s1))). lia.
Qed.

Lemma vowel_groups_bounds w : forall prev,
  (vowel_groups prev w <= length (filter is_vowel w))%nat
  /\ (2 * vowel_groups prev w <= length w + (if prev then 0 else 1))%nat.
Proof.
  induction w as [|c r IH]; intros prev; [cbn; destruct prev; lia|].
  cbn [vowel_groups filter length]. destruct (IH (is_vowel c)) as [H1 H2].
  destruct (is_vowel c), prev; cbn [andb negb length] in *; lia.
Qed.

(** X19: [count_syllables] is 0 exactly for a word without a letter a-z
    (after lowering); for any other word it is at least 1, at most the
    number of its vowels (or 1), and at most half the number of its letters,
    rounded up. *)
Theorem count_syllables_bounds (word : list ascii) :
  let letters := filter is_lower_letter (map lower_char word) in
  (letters = [] -> count_syllables word = 0%nat)
  /\ (letters <> [] ->
      (1 <= count_syllables word)%nat
      /\ (count_syllables word <= Nat.max 1 (length (filter is_vowel letters)))%nat
      /\ (2 * count_syllables word <= length letters + 1)%nat).
Proof.
  intros letters. unfold count_syllables. cbv zeta. fold letters. split.
  - intros ->. reflexivity.
  - intros Hne. destruct letters as [|c r] eqn:E; [contradiction|].
    change (length (c :: r) =? 0)%nat with false. cbv iota.
    destruct (vowel_groups_bounds (c :: r) false) as [H1 H2].
    cbn [length] in *. lia.
Qed.

(** ** The style bias *)

Lemma map_color_channels f c : color_channels (map_color f c) = map f (color_channels c).
Proof. destruct c as [[r g] b]. reflexivity. Qed.

(** X20: the style bias.  Whatever the style, the canvas, the bounds, the
    seed, the seeding mode, the LUT, the step size and the step budget are
    kept.  For the styles 'sharp' and 'preferred', in any letter case, the
    result has quantize_steps >= 12, cell_size >= 2, noise_scale >= 3,
    jitter >= 0.001, angle_gain <= 0.99, density <= 0.02, width_end >= 0.6,
    start channels >= 0 and not above the old ones, end channels <= 255 and
    not below the old ones. *)
Theorem style_bias_postconditions (params : Config) (style : option string) :
  let biased := apply_user_style_bias params style in
  ((width (core biased), height (core biased)) = (width (core params), height (core params))
   /\ grid_bounds (core biased) = grid_bounds (core params)
   /\ seed (core biased) = seed (core params)
   /\ seeding (core biased) = seeding (core params)
   /\ lut (core biased) = lut (core params)
   /\ step_size (core biased) = step_size (core params)
   /\ max_length (core biased) = max_length (core params)
   /\ background (core biased) = background (core params))
  /\ (forall s, style = Some s ->
      py_lower s = "sharp"%string \/ py_lower s = "preferred"%string ->
      (exists q, quantize_steps (core biased) = Some q /\ 12 <= q)
      /\ 2 <= cell_size (core biased)
      /\ (exists n, noise_scale (core biased) = Some (IZR n) /\ (3 <= n)%Z)
      /\ 1 / 1000 <= jitter (core biased)
      /\ angle_gain (core biased) <= 99 / 100
      /\ density (core biased) <= 2 / 100
      /\ 6 / 10 <= width_end (core biased)
      /\ Forall2 (fun new old => (0 <= new)%Z /\ (old <= 0 \/ new < old)%Z)
           (color_channels (color_start (core biased)))
           (color_channels (color_start (core params)))
      /\ Forall2 (fun new old => (new <= 255)%Z /\ (255 <= old \/ old < new)%Z)
           (color_channels (color_end biased)) (color_channels (color_end params))).
Proof.
  intros biased. split.
  - subst biased. unfold apply_user_style_bias.
    destruct style as [[|c s]|]; try (repeat split; reflexivity).
    destruct (_ || _)%bool; repeat split; reflexivity.
  - intros s -> Hs. subst biased. unfold apply_user_style_bias.
    destruct s as [|c s].
    { cbn in Hs. destruct Hs; discriminate. }
    assert (E : (String.eqb (py_lower (String c s)) "sharp"
                 || String.eqb (py_lower (String c s)) "preferred")%bool = true).
    { destruct Hs as [-> | ->]; reflexivity. }
    rewrite E. cbn [core quantize_steps cell_size noise_scale jitter angle_gain density
                    width_end color_start color_end].
    split; [eexists; split; [reflexivity | apply Rmax_l]|].
    split.
    { assert (H : (2 <= Z.max 2 (py_int (cell_size (core params) * (6 / 10))))%Z) by lia.
      apply IZR_le in H. exact H. }
    split.
    { eexists; split; [reflexivity|].
      assert (H3 : IZR 3 <= Rmax 3 (get_or (noise_scale (core params)) 4 * (16 / 10)))
        by apply Rmax_l.
      rewrite <- (py_int_IZR 3) at 1. apply py_int_monotone; [lra | exact H3]. }
    split; [apply Rmax_l|]. split; [apply Rmin_l|]. split; [apply Rmin_l|].
    split; [apply Rmax_l|]. rewrite !map_color_channels. split.
    + destruct (color_start (core params)) as [[r g] b]. cbn.
      do 3 (constructor; [lia|]). constructor.
    + destruct (color_end params) as [[r g] b]. cbn.
      do 3 (constructor; [lia|]). constructor.
Qed.

(** ** Instances of the properties above *)

Lemma sample_unit_doubles : unit_doubles sample_generators.
Proof.
  intros o k. cbn [py_stream sample_generators].
  assert (H : 1 <= INR (k + 2)).
  { rewrite plus_INR. pose proof (pos_INR k). cbn [INR]. lra. }
  split.
  - left. apply Rinv_0_lt_compat. lra.
  - rewrite <- Rinv_1. apply Rinv_le_contravar; lra.
Qed.

Lemma plain_grid_margin : grid_margin plain_config = 0.
Proof.
  unfold grid_margin. cbn [width height margin_factor plain_config sample_config]. lra.
Qed.

Lemma noise_vanishes_witness :
  exists field st',
    generate_perlin_noise_2d sample_generators (2, 3)%Z (4, 4)%Z 2 (1 / 2)
      (Some 7%Z) fresh_rng = (Ok field, st')
    /\ item field 1 0 = 0.
Proof.
  destruct (generate_perlin_noise_2d_returns sample_generators (2, 3)%Z (4, 4)%Z 2
              (1 / 2) (Some 7%Z) fresh_rng) as (field & st' & E);
    cbn [fst snd seeds_accepted]; try lia.
  exists field, st'. split; [exact E|].
  assert (Hp : 0 <= 1 / 2) by lra.
  destruct (generate_perlin_noise_2d_bound sample_generators _ _ _ _ _ _ _ _ Hp E)
    as (Hr & Hc & _).
  apply (noise_vanishes_on_lattice sample_generators _ _ _ _ _ _ _ _ 1 0 E).
  - rewrite Hr. cbn. lia.
  - rewrite Hc. cbn. lia.
  - right. rewrite Hr. reflexivity.
  - left. reflexivity.
Defined.

Lemma noise_rejects_witness :
  exists e, fst (generate_perlin_noise_2d sample_generators (2, 3)%Z (0, 4)%Z 1 (1 / 2)
                   None fresh_rng) = Raise e.
Proof.
  apply (noise_rejects_nonpositive_resolution sample_generators (2, 3)%Z (0, 4)%Z 1
           (1 / 2) None fresh_rng); cbn [fst snd]; lia.
Defined.

Lemma unseeded_draw_count_witness :
  exists field st',
    generate_perlin_noise_2d sample_generators (2, 3)%Z (4, 4)%Z 2 (1 / 2) None
      fresh_rng = (Ok field, st')
    /\ origin st' = FromSeed 1 /\ drawn st' = 106%nat.
Proof.
  destruct (generate_perlin_noise_2d_returns sample_generators (2, 3)%Z (4, 4)%Z 2
              (1 / 2) None fresh_rng) as (field & st' & E);
    cbn [fst snd seeds_accepted]; try lia; try exact I.
  exists field, st'. split; [exact E|].
  exact (unseeded_noise_draw_count sample_generators _ _ _ _ _ _ _ E).
Defined.

Lemma fill_angles_snapped_witness :
  quantize_steps quantize_config = Some 4
  /\ exists l' w',
       fill_angles sample_generators 0%nat (grid_bounds quantize_config) quantize_config
         grid_world = (Ok l', w')
       /\ l' <> 0%nat
       /\ Rabs (item (nth l' (heap w') (arr_const 0 0 0)) 0 0
                - item (nth 0 (heap w') (arr_const 0 0 0)) 0 0) <= PI / 4.
Proof.
  split; [reflexivity|].
  assert (Hl : (0 < length (heap grid_world))%nat) by (cbn; lia).
  destruct (noise_call_returns sample_generators quantize_config
              (nth 0%nat (heap grid_world) (arr_const 0 0 0)) (np_rng grid_world))
    as (noise & st & E & _); [apply sample_seeds_accepted|].
  pose proof (fill_angles_eval sample_generators 0%nat (grid_bounds quantize_config)
                quantize_config grid_world Hl) as F.
  cbv zeta in F. rewrite E in F.
  assert (Hq : Rltb 0 (get_or (quantize_steps quantize_config) 0) = true)
    by (apply Rltb_true; cbn; lra).
  rewrite Hq in F.
  eexists _, _. split; [exact F|].
  destruct (fill_angles_returns_snapped sample_generators 0%nat (grid_bounds quantize_config)
              quantize_config grid_world _ 4 _ Hl eq_refl ltac:(lra) F) as [Hne Hs].
  split; [exact Hne|]. exact (proj2 (Hs 0%nat 0%nat)).
Defined.


Lemma stroke_steps_witness :
  exists positions st' ext,
    trace_stroke sample_generators (grid_zeros plain_config) full_bounds plain_config
      50 50 fresh_rng = (Ok positions, st')
    /\ positions = (50, 50) :: ext
    /\ evenly_spaced (3 * 3) (50, 50) ext.
Proof.
  destruct (trace_stroke_returns sample_generators (grid_zeros plain_config) full_bounds
              plain_config 50 50 fresh_rng) as (ps & st' & E).
  { cbn. lra. }
  destruct (stroke_steps_have_step_size_length sample_generators _ _ _ _ _ _ _ _ E)
    as (ext & Hp & He).
  exists ps, st', ext. split; [exact E|]. split; [exact Hp | exact He].
Defined.

Lemma grid_seeding_witness :
  seeding grid_seeding_config = "grid"%string
  /\ 0 < density grid_seeding_config
  /\ exists pts,
       seed_points sample_generators grid_seeding_config full_bounds fresh_rng
       = (Ok pts, fresh_rng)
       /\ (1 <= length pts)%nat
       /\ Forall (fun pt => x0 full_bounds <= fst pt /\ y0 full_bounds <= snd pt) pts.
Proof.
  assert (Hd : 0 < density grid_seeding_config) by (cbn; lra).
  split; [reflexivity|]. split; [exact Hd|].
  destruct (grid_seeding_lattice sample_generators grid_seeding_config full_bounds
              fresh_rng eq_refl Hd) as (_ & rows & cols & Hr & Hc & E & F);
    [cbn; lra | cbn; lra |].
  eexists. split; [exact E|]. split.
  - unfold lattice_points.
    destruct rows as [|rows]; [lia|]. destruct cols as [|cols]; [lia|].
    cbn [seq flat_map map app length]. lia.
  - eapply Forall_impl; [|exact F]. cbn beta. intros pt [[H1 _] [H2 _]]. auto.
Defined.

Lemma render_inside_bounds_witness :
  exists img w',
    render sample_generators plain_config boot_world = (Ok img, w')
    /\ line_ends_within (grid_bounds plain_config) img.
Proof.
  destruct (plain_config_renders boot_world) as (img & w' & E).
  exists img, w'. split; [exact E|].
  apply (render_draws_inside_bounds sample_generators plain_config boot_world w' img
           sample_unit_doubles); [| | discriminate | exact E];
    rewrite plain_grid_margin; cbn [width height plain_config sample_config]; lra.
Defined.

Lemma lut_sweep_monotone_witness :
  (segment_idx plain_config 10 (1 / 4) <= segment_idx plain_config 10 (3 / 4))%Z.
Proof.
  apply (lut_sweep_is_monotone plain_config 10 (1 / 4) (3 / 4)). lra.
Defined.

Lemma lut_sweep_fits_witness :
  (2 <= lut_len plain_config)%Z
  /\ (stroke_base_idx plain_config (1 / 4) + stroke_span plain_config
      <= lut_len plain_config - 1)%Z.
Proof.
  assert (HL : (2 <= lut_len plain_config)%Z)
    by (unfold plain_config; rewrite sample_lut_len; lia).
  split; [exact HL|].
  assert (Hw : 0 <= within_stroke plain_config <= 1) by (cbn; lra).
  apply (lut_sweep_fits plain_config (1 / 4) (1 / 2) HL Hw); lra.
Defined.

Lemma stroke_segments_witness :
  exists img' st' positions st1 new,
    draw_stroke sample_generators (grid_zeros plain_config) full_bounds plain_config
      blank_image (50, 50) fresh_rng = (Ok img', st')
    /\ trace_stroke sample_generators (grid_zeros plain_config) full_bounds plain_config
         50 50 fresh_rng = (Ok positions, st1)
    /\ im_lines img' = new
    /\ length new = (length positions - 1)%nat.
Proof.
  destruct (draw_stroke_returns sample_generators (grid_zeros plain_config) full_bounds
              plain_config blank_image (50, 50) fresh_rng) as (img' & st' & E & _).
  { cbn. lra. }
  destruct (stroke_segments_join_positions sample_generators _ _ _ _ _ _ _ _ _ E)
    as (ps & st1 & new & T & Hn & Hl & _).
  exists img', st', ps, st1, new. split; [exact E|]. split; [exact T|].
  split; [exact Hn | exact Hl].
Defined.

Lemma render_succeeds_witness :
  seeding grid_seeding_config = "grid"%string
  /\ exists img w',
       render sample_generators grid_seeding_config boot_world = (Ok img, w')
       /\ im_size img = (100, 100)%Z.
Proof.
  split; [reflexivity|].
  assert (Hm : grid_margin grid_seeding_config = 0).
  { unfold grid_margin. cbn [width height margin_factor grid_seeding_config]. lra. }
  assert (Hn : grid_ny grid_seeding_config = 5%Z /\ grid_nx grid_seeding_config = 5%Z).
  { unfold grid_ny, grid_nx. rewrite Hm.
    cbn [width height cell_size grid_seeding_config].
    split; apply py_int_unique; lra. }
  destruct Hn as [Hny Hnx].
  destruct (render_succeeds sample_generators grid_seeding_config boot_world)
    as (img & w' & E & Hs & _).
  - cbn; lra.
  - rewrite Hny. lia.
  - rewrite Hnx. lia.
  - cbn. lia.
  - cbn. lia.
  - cbn [seed grid_seeding_config seeds_accepted].
    pose proof (noise_octaves_range grid_seeding_config). lia.
  - intros _. rewrite Hm. cbn [density width height grid_seeding_config]. lra.
  - exists img, w'. split; [exact E | exact Hs].
Defined.

Lemma genre_round_trip_witness :
  exists g, get_genre_from_vector joy_vector = Ok g /\ g = "joy"%string.
Proof.
  destruct (genre_code_round_trip "Joy" joy_vector (palette_mapping expressive) eq_refl)
    as (g & E & Hk & _).
  exists g. split; [exact E|]. apply Hk.
  right; right; right; right; left. reflexivity.
Defined.

Lemma mapped_embedding_witness :
  exists cfg img w',
    map_embedding_to_params sample_cmap embedding "expressive" = Ok cfg
    /\ render sample_generators (core (apply_user_style_bias cfg (Some "Sharp"%string)))
         boot_world = (Ok img, w')
    /\ im_size img = (3000, 3000)%Z.
Proof.
  destruct (mapped_embedding_renders sample_cmap sample_generators embedding "expressive"
              (Some "Sharp"%string) boot_world)
    as (cfg & img & w' & E & R & Hs & _).
  - cbn. lia.
  - cbn. lra.
  - cbn. lra.
  - cbn. lra.
  - exists cfg, img, w'. split; [exact E|]. split; [exact R | exact Hs].
Defined.
